(** * Celestia: constellation detection and reconciliation

    A shallow embedding of [checkForConstellations] (src/App.tsx) and of
    [generateConstellationName] (services/gemini.ts), with the properties of
    the clustering and reconciliation algorithm proved about it.  The
    handlers of the game (src/App.tsx), the discovery and analysis services
    and what the star map computes before it draws
    (src/components/StarMap.tsx) follow, with properties of a whole session.

    Conventions of the embedding:
    - JavaScript numbers that hold coordinates and resources are rationals
      ([Q]) with exact arithmetic; counters and sizes are [nat]; timestamps
      are [Z].
    - [Math.hypot] returns a rounded double, and which one is up to the
      engine: it is a parameter of the whole development, the class
      [Math].  What is proved holds for whatever [Math.hypot] returns,
      unless the property states what it needs of it.  The sample runs at
      the end of the file use the double nearest to the exact root.
    - The [Map] of adjacency lists is a [gmap], the [visited] set a [gset];
      a [Set] whose iteration order is observed ([mergedIds]) is a
      duplicate-free list in insertion order.
    - The outside world ([uuidv4], [Date.now], [Math.random], the remote
      naming model) is an [Env] of oracles indexed by a logical clock that
      every oracle call advances; React state is the record [World].
    - The handlers of the game around the registry (the game loop, gazing,
      scans, analyses, upgrades, the reset) act on the record [Game]; an
      [async] handler suspended at an [await] is a [Task] of the
      [Session].  Every action finds the handlers of the latest render,
      so that a handler reads the state that the actions before it have
      left, and a pass over the constellations that the effect hook starts
      within a session runs to its end before the next action. *)

From Stdlib Require Import QArith Qminmax Qround Reals Qreals Lra Lia.
From Stdlib Require Lqa.
From stdpp Require Import gmap strings list fin_maps pretty.

(* stdpp's solvers clear hypotheses that may be gone already *)
#[local] Set Warnings "-clear-no-such-hyp".

(** ** Data model (src/types.ts and the uses in src/App.tsx)

    The fields [id], [name] and [type], which several interfaces share,
    carry the name of their record as a prefix. *)

Inductive CelestialType := STAR | NEBULA | BLACK_HOLE | GALAXY | ANOMALY.

Record Coordinates := { x : Q; y : Q }.

Record CelestialBody := {
  body_id : string;
  body_name : string;
  body_type : CelestialType;
  description : string;
  distanceLightYears : Q;
  spectralClass : option string;
  temperatureK : option Q;
  coordinates : Coordinates;
  color : string;
  discoveryDate : Z;
  analyzed : bool
}.

Record GameResources := { starlight : Q; data : Q; focus : Q }.

Inductive LogType := info | discovery | upgrade | warning | constellation.

Record LogEntry := {
  log_id : string;
  timestamp : Z;
  message : string;
  log_type : LogType
}.

Record Constellation := {
  c_id : string;
  c_name : string;
  starIds : list string;
  discoveredAt : Z
}.

#[global] Instance Constellation_eq_dec : EqDecision Constellation.
Proof. solve_decision. Defined.

(** React state of the [App] component that reconciliation can reach, and
    the logical clock counting the oracle calls made so far. *)
Record World := {
  resources : GameResources;
  stars : list CelestialBody;
  constellations : list Constellation;
  logs : list LogEntry;
  clock : nat
}.

(** What [ai.models.generateContent] followed by [JSON.parse] and the read
    of [json.name] amounts to: an exception anywhere in the [try] block, or
    the value of [json.name], where the empty string stands for every falsy
    value (a missing field, an empty text). *)
Inductive ApiOutcome := Throws | JsonName (name : string).

Record Env := {
  uuid_at : nat → string;
  now_at : nat → Z;
  random_at : nat → Q;
  generateContent_at : nat → nat → ApiOutcome
}.

(** What the engine computes for [Math.hypot(x1 - x2, y1 - y2)], as a
    function of the exact differences.  The engine rounds each difference
    to a double, and the subtraction of doubles is correctly rounded, so
    that the rounded difference is a function of the exact one; of the root
    ECMAScript asks an approximation only.  Nothing is assumed of this
    function here: what a property needs of it is stated with the
    property. *)
Class Math := { Math_hypot : Q → Q → Q }.

Section Celestia.

Context {engine : Math}.

(** ** SpatialGraphBuilder: adjacency *)

Definition MAX_DIST : Q := 180.

(** [Math.hypot(a, b) < d] *)
Definition hypot_lt (a b d : Q) : bool :=
  negb (Qle_bool d (Math_hypot a b)).

(** [Math.hypot(s1.coordinates.x - s2.coordinates.x,
                s1.coordinates.y - s2.coordinates.y) < MAX_DIST] *)
Definition near (s1 s2 : CelestialBody) : bool :=
  hypot_lt (x (coordinates s1) - x (coordinates s2))
           (y (coordinates s1) - y (coordinates s2)) MAX_DIST.

(** [adj.get(k)?.push(v)] *)
Definition adj_push (k v : string) (adj : gmap string (list string))
  : gmap string (list string) :=
  match adj !! k with
  | Some l => <[k := l ++ [v]]> adj
  | None => adj
  end.

(** [currentStars.forEach(s => adj.set(s.id, []))] *)
Definition adj_init (currentStars : list CelestialBody)
  : gmap string (list string) :=
  foldl (λ adj s, <[body_id s := []]> adj) ∅ currentStars.

(** The inner loop over [j > i] for a fixed [s1 = currentStars[i]]. *)
Definition adj_row (s1 : CelestialBody) (rest : list CelestialBody)
    (adj : gmap string (list string)) : gmap string (list string) :=
  foldl (λ adj s2,
           if near s1 s2
           then adj_push (body_id s2) (body_id s1)
                  (adj_push (body_id s1) (body_id s2) adj)
           else adj) adj rest.

(** The outer loop over [i]. *)
Fixpoint adj_pairs (currentStars : list CelestialBody)
    (adj : gmap string (list string)) : gmap string (list string) :=
  match currentStars with
  | [] => adj
  | s1 :: rest => adj_pairs rest (adj_row s1 rest adj)
  end.

Definition buildAdjacency (currentStars : list CelestialBody)
  : gmap string (list string) :=
  adj_pairs currentStars (adj_init currentStars).

(** ** SpatialGraphBuilder: connected components *)

(** The [for (const neighborId of neighbors)] loop.  The stack is kept with
    its top (the end of the JavaScript array) at the head of the list. *)
Definition visit_neighbors (neighbors : list string)
    (visited : gset string) (stack : list string)
  : gset string * list string :=
  foldl (λ vs n,
           if decide (n ∈ vs.1) then vs
           else ({[n]} ∪ vs.1, n :: vs.2))
        (visited, stack) neighbors.

(** The [while (stack.length > 0)] loop; [None] when the fuel runs out
    before the stack is empty. *)
Fixpoint dfs_while (fuel : nat) (adj : gmap string (list string))
    (stack cluster : list string) (visited : gset string) {struct fuel}
  : option (list string * gset string) :=
  match stack with
  | [] => Some (cluster, visited)
  | currentId :: stack' =>
      match fuel with
      | O => None
      | S fuel' =>
          let neighbors := default [] (adj !! currentId) in
          let vs := visit_neighbors neighbors visited stack' in
          dfs_while fuel' adj vs.2 (cluster ++ [currentId]) vs.1
      end
  end.

(** The [for (const star of currentStars)] loop around it. *)
Fixpoint components (fuel : nat) (adj : gmap string (list string))
    (todo : list CelestialBody) (visited : gset string)
    (clusters : list (list string)) : option (list (list string)) :=
  match todo with
  | [] => Some clusters
  | star :: rest =>
      if decide (body_id star ∈ visited)
      then components fuel adj rest visited clusters
      else
        match dfs_while fuel adj [body_id star] [] ({[body_id star]} ∪ visited) with
        | None => None
        | Some (cluster, visited') =>
            components fuel adj rest visited'
              (if 3 <=? length cluster then clusters ++ [cluster] else clusters)
        end
  end.

(** Steps 1 and 2 of [checkForConstellations].  A search pops each id at
    most once, so [length currentStars] iterations are enough fuel (see
    [findClusters_spec]). *)
Definition findClusters (currentStars : list CelestialBody)
  : option (list (list string)) :=
  components (length currentStars) (buildAdjacency currentStars)
             currentStars ∅ [].

(** ** Effects: a state monad over [World] *)

Definition M (A : Type) : Type := World → A * World.

Definition ret {A} (a : A) : M A := λ w, (a, w).

Definition bind {A B} (m : M A) (k : A → M B) : M B :=
  λ w, let r := m w in k r.1 r.2.

Notation "'do' x <- m ; k" := (bind m (λ x, k))
  (at level 10, x name, m at level 100, k at level 200,
   format "'[v' 'do'  x  <-  m ; '/' k ']'").
Notation "m ;; k" := (bind m (λ _, k))
  (at level 100, k at level 200, right associativity).

Fixpoint foldM {A B} (f : B → A → M A) (l : list B) (a : A) : M A :=
  match l with
  | [] => ret a
  | b :: l' => do a' <- f b a; foldM f l' a'
  end.

(** Reading an oracle advances the clock. *)
Definition tick : M nat :=
  λ w, (clock w,
        {| resources := resources w; stars := stars w;
           constellations := constellations w; logs := logs w;
           clock := S (clock w) |}).

Definition setResources (f : GameResources → GameResources) : M unit :=
  λ w, (tt,
        {| resources := f (resources w); stars := stars w;
           constellations := constellations w; logs := logs w;
           clock := clock w |}).

Definition setLogs (f : list LogEntry → list LogEntry) : M unit :=
  λ w, (tt,
        {| resources := resources w; stars := stars w;
           constellations := constellations w; logs := f (logs w);
           clock := clock w |}).

Definition setConstellations (cs : list Constellation) : M unit :=
  λ w, (tt,
        {| resources := resources w; stars := stars w;
           constellations := cs; logs := logs w;
           clock := clock w |}).

Section Registry.

Variable env : Env.

Definition uuidv4 : M string := do t <- tick; ret (uuid_at env t).
Definition Date_now : M Z := do t <- tick; ret (now_at env t).
Definition Math_random : M Q := do t <- tick; ret (random_at env t).
Definition generateContent (starCount : nat) : M ApiOutcome :=
  do t <- tick; ret (generateContent_at env t starCount).

(** ** The naming oracle (services/gemini.ts) *)

Definition prefixes : list string :=
  ["Alpha"; "Beta"; "Gamma"; "Delta"; "The Great"; "The Lesser";
   "Northern"; "Southern"].

Definition roots : list string :=
  ["Hydra"; "Lion"; "Crown"; "Arrow"; "Cross"; "Bear"; "Serpent"; "Eagle"].

(** [arr[Math.floor(r * arr.length)]] inside a template literal: an index
    outside the array reads [undefined]. *)
Definition pick (arr : list string) (r : Q) : string :=
  let k := Qfloor (r * inject_Z (Z.of_nat (length arr))) in
  if (k <? 0)%Z then "undefined"
  else default "undefined" (arr !! Z.to_nat k).

Definition generateConstellationName (starCount : nat) : M string :=
  do r <- generateContent starCount;
  match r with
  | JsonName name =>
      if decide (name = "")
      then do u <- Math_random;
           ret ("Cluster " +:+ pretty (Qfloor (u * 9999)))
      else ret name
  | Throws =>
      do u <- Math_random;
      do v <- Math_random;
      ret (pick prefixes u +:+ " " +:+ pick roots v)
  end.

(** [addLog] *)
Definition addLog (msg : string) (ty : LogType) : M unit :=
  do i <- uuidv4;
  do t <- Date_now;
  setLogs (λ prev,
    take 50 ({| log_id := i; timestamp := t; message := msg; log_type := ty |}
             :: prev)).

(** ** ConstellationRegistry *)

(** [c.starIds.some(id => cluster.includes(id))] *)
Definition overlapping (cluster : list string) (c : Constellation) : Prop :=
  Exists (λ i, i ∈ cluster) (starIds c).

#[global] Instance overlapping_dec cluster c : Decision (overlapping cluster c).
Proof. unfold overlapping. apply _. Defined.

(** [Set.prototype.add] on a set kept in insertion order. *)
Definition Set_add (s : list string) (i : string) : list string :=
  if decide (i ∈ s) then s else s ++ [i].

(** [new Set(l)] *)
Definition Set_from (l : list string) : list string := foldl Set_add [] l.

Definition with_starIds (c : Constellation) (ids : list string) : Constellation :=
  {| c_id := c_id c; c_name := c_name c; starIds := ids;
     discoveredAt := discoveredAt c |}.

(** The [for (let i = 1; i < overlaps.length; i++)] loop: the pair is
    ([mergedIds], [updatedConstellations]). *)
Definition consume (others : list Constellation)
    (acc : list string * list Constellation)
  : list string * list Constellation :=
  foldl (λ acc o,
           (foldl Set_add acc.1 (starIds o),
            filter (λ c, c_id c ≠ c_id o) acc.2))
        acc others.

(** The body of [if (hasNewStars || overlaps.length > 1)]. *)
Definition merge_into (primaryC : Constellation) (others : list Constellation)
    (cluster : list string) (updated : list Constellation)
  : list Constellation :=
  let acc := consume others (Set_from (starIds primaryC ++ cluster), updated) in
  map (λ c, if decide (c_id c = c_id primaryC)
            then with_starIds c acc.1 else c) acc.2.

Definition rewardStarlight (cluster : list string) : nat :=
  50 + length cluster * 10.

Definition rewardData (cluster : list string) : nat :=
  20 + length cluster * 5.

Definition add_reward (cluster : list string) (prev : GameResources)
  : GameResources :=
  {| starlight := starlight prev + inject_Z (Z.of_nat (rewardStarlight cluster));
     data := data prev + inject_Z (Z.of_nat (rewardData cluster));
     focus := focus prev |}.

Definition charted_message (name : string) (cluster : list string) : string :=
  "Constellation Charted: " +:+ name +:+ "! (+"
    +:+ pretty (rewardStarlight cluster) +:+ " Light, +"
    +:+ pretty (rewardData cluster) +:+ " Data)".

(** The local variables [updatedConstellations] and [hasChanges]. *)
Record Loc := {
  updatedConstellations : list Constellation;
  hasChanges : bool
}.

(** The [overlaps.length === 0] branch, from the [await] on. *)
Definition create_constellation (cluster : list string) (loc : Loc) : M Loc :=
  do name <- generateConstellationName (length cluster);
  do i <- uuidv4;
  do t <- Date_now;
  let newConstellation :=
    {| c_id := i; c_name := name; starIds := cluster; discoveredAt := t |} in
  setResources (add_reward cluster);;
  addLog (charted_message name cluster) constellation;;
  ret {| updatedConstellations := updatedConstellations loc ++ [newConstellation];
         hasChanges := true |}.

(** The [else] branch. *)
Definition update_existing (primaryC : Constellation)
    (others : list Constellation) (cluster : list string) (loc : Loc) : Loc :=
  let hasNewStars :=
    bool_decide (Exists (λ i, i ∉ starIds primaryC) cluster) in
  if hasNewStars || (1 <? length (primaryC :: others))
  then {| updatedConstellations :=
            merge_into primaryC others cluster (updatedConstellations loc);
          hasChanges := true |}
  else loc.

(** One iteration of [for (const cluster of clusters)]. *)
Definition reconcile (cluster : list string) (loc : Loc) : M Loc :=
  match filter (overlapping cluster) (updatedConstellations loc) with
  | [] => create_constellation cluster loc
  | primaryC :: others => ret (update_existing primaryC others cluster loc)
  end.

(** [checkForConstellations]; [None] only if the component search ran out
    of fuel, which [checkForConstellations_frame] excludes. *)
Definition checkForConstellations (currentStars : list CelestialBody)
    (currentConstellations : list Constellation) (w : World) : option World :=
  if length currentStars <? 3 then Some w
  else
    match findClusters currentStars with
    | None => None
    | Some clusters =>
        let r := foldM reconcile clusters
                   {| updatedConstellations := currentConstellations;
                      hasChanges := false |} w in
        Some (if hasChanges r.1
              then (setConstellations (updatedConstellations r.1) r.2).2
              else r.2)
    end.

End Registry.

(** ** Passes in the event loop *)

(** [checkForConstellations] is an [async] function with one [await], on
    the naming oracle.  Between two events of the loop a pass is either
    suspended there, holding its local variables and the clusters still to
    be treated, or it has returned. *)
Inductive Pass :=
  | Awaiting (cluster : list string) (rest : list (list string)) (loc : Loc)
  | Finished.

(** The end of the function: [if (hasChanges) setConstellations(...)]. *)
Definition commit (loc : Loc) : M unit :=
  if hasChanges loc then setConstellations (updatedConstellations loc)
  else ret tt.

(** The loop over the clusters, run until the next [await] or the end. *)
Fixpoint advance (clusters : list (list string)) (loc : Loc) : M Pass :=
  match clusters with
  | [] => commit loc;; ret Finished
  | cluster :: rest =>
      match filter (overlapping cluster) (updatedConstellations loc) with
      | [] => ret (Awaiting cluster rest loc)
      | primaryC :: others =>
          advance rest (update_existing primaryC others cluster loc)
      end
  end.

Section EventLoop.

Variable env : Env.

(** The call [checkForConstellations(stars, constellations)], up to its
    first [await]. *)
Definition start (currentStars : list CelestialBody)
    (currentConstellations : list Constellation) (w : World)
  : option (Pass * World) :=
  if length currentStars <? 3 then Some (Finished, w)
  else
    match findClusters currentStars with
    | None => None
    | Some clusters =>
        Some (advance clusters
                {| updatedConstellations := currentConstellations;
                   hasChanges := false |} w)
    end.

(** The naming promise settles: the pass goes on to its next [await] or to
    its end. *)
Definition resume (p : Pass) : M Pass :=
  match p with
  | Awaiting cluster rest loc =>
      do loc' <- create_constellation env cluster loc; advance rest loc'
  | Finished => ret Finished
  end.

(** A pass resumed [n] times in a row, nothing else happening meanwhile. *)
Fixpoint complete (n : nat) (p : Pass) : M Pass :=
  match n with
  | O => ret p
  | S n' => do p' <- resume p; complete n' p'
  end.

(** What the event loop can deliver: the effect hook fires for a body list
    and calls [checkForConstellations] with the committed constellations,
    or the naming promise of the [i]-th pass started so far settles. *)
Inductive Event :=
  | Trigger (currentStars : list CelestialBody)
  | Resolve (i : nat).

Record Config := { world : World; passes : list Pass }.

Definition deliver (e : Event) (c : Config) : option Config :=
  match e with
  | Trigger ss =>
      match start ss (constellations (world c)) (world c) with
      | Some r => Some {| world := r.2; passes := passes c ++ [r.1] |}
      | None => None
      end
  | Resolve i =>
      match passes c !! i with
      | Some p =>
          let r := resume p (world c) in
          Some {| world := r.2; passes := <[i := r.1]> (passes c) |}
      | None => Some c
      end
  end.

Fixpoint run_events (es : list Event) (c : Config) : option Config :=
  match es with
  | [] => Some c
  | e :: es' =>
      match deliver e c with
      | Some c' => run_events es' c'
      | None => None
      end
  end.

End EventLoop.

(** A sequence of reconciliation calls, each made as the effect hook makes
    it, with the constellation list of the current state, and each run to
    its end before the next is made: passes that do not interleave. *)
Fixpoint run_calls (env : Env) (calls : list (list CelestialBody)) (w : World)
  : option World :=
  match calls with
  | [] => Some w
  | ss :: calls' =>
      match checkForConstellations env ss (constellations w) w with
      | Some w' => run_calls env calls' w'
      | None => None
      end
  end.

(** ** The game around the registry (src/constants.ts, src/App.tsx)

    Numbers that hold levels are [nat].  [Math.pow] and [toFixed] round in
    floating point, which the rationals do not reproduce: both are taken
    from [Services] and nothing below depends on their values. *)

Inductive UpgradeType := lens | sensor | processor | battery.

(** [Upgrade], without the closure [effect] that renders the card. *)
Record Upgrade := {
  upgrade_id : string;
  upgrade_name : string;
  upgrade_description : string;
  baseCost : Q;
  costMultiplier : Q;
  level : nat;
  maxLevel : nat;
  upgrade_type : UpgradeType
}.

Definition INITIAL_RESOURCES : GameResources :=
  {| starlight := 0; data := 0; focus := 100 |}.

Definition MAX_FOCUS_BASE : Q := 100.
Definition FOCUS_REGEN_BASE : Q := 1.
Definition BASE_GAZE_COOLDOWN_MS : Q := 800.

Definition UPGRADES : list Upgrade :=
  [ {| upgrade_id := "lens_polishing"; upgrade_name := "Lens Polishing";
       upgrade_description := "Improves light gathering efficiency per gaze.";
       baseCost := 15; costMultiplier := 1.5; level := 0; maxLevel := 50;
       upgrade_type := lens |};
    {| upgrade_id := "optical_servos"; upgrade_name := "Optical Servos";
       upgrade_description := "Increases the observation speed (Gaze Rate).";
       baseCost := 100; costMultiplier := 1.4; level := 0; maxLevel := 30;
       upgrade_type := lens |};
    {| upgrade_id := "sensor_array"; upgrade_name := "Sensor Array";
       upgrade_description := "Passively gathers starlight over time.";
       baseCost := 50; costMultiplier := 1.4; level := 0; maxLevel := 20;
       upgrade_type := sensor |};
    {| upgrade_id := "focus_condenser"; upgrade_name := "Focus Condenser";
       upgrade_description := "Increases maximum focus capacity.";
       baseCost := 100; costMultiplier := 1.6; level := 0; maxLevel := 10;
       upgrade_type := battery |};
    {| upgrade_id := "stabilizers"; upgrade_name := "Gravimetric Stabilizers";
       upgrade_description := "Improves focus regeneration rate.";
       baseCost := 300; costMultiplier := 1.7; level := 0; maxLevel := 10;
       upgrade_type := battery |};
    {| upgrade_id := "scan_matrix"; upgrade_name := "Deep Scan Matrix";
       upgrade_description := "Reduces time required for deep space scans.";
       baseCost := 500; costMultiplier := 2.0; level := 0; maxLevel := 5;
       upgrade_type := processor |};
    {| upgrade_id := "quantum_processor"; upgrade_name := "Quantum Processor";
       upgrade_description := "Reduces data cost for deep analysis.";
       baseCost := 200; costMultiplier := 1.8; level := 0; maxLevel := 5;
       upgrade_type := processor |} ].

(** [{ ...u, level: l }] *)
Definition with_level (u : Upgrade) (l : nat) : Upgrade :=
  {| upgrade_id := upgrade_id u; upgrade_name := upgrade_name u;
     upgrade_description := upgrade_description u; baseCost := baseCost u;
     costMultiplier := costMultiplier u; level := l; maxLevel := maxLevel u;
     upgrade_type := upgrade_type u |}.

(** [upgrades.find(u => u.id === i)?.level || 0] *)
Definition level_of (upgrades : list Upgrade) (i : string) : nat :=
  match list_find (λ u, upgrade_id u = i) upgrades with
  | Some (_, u) => level u
  | None => 0
  end.

(** A level or a length as a JavaScript number. *)
Definition number (n : nat) : Q := inject_Z (Z.of_nat n).

(** [a < b] on numbers. *)
Definition Qlt_bool (a b : Q) : bool := negb (Qle_bool b a).

(** *** The discovery and analysis services (services/gemini.ts) *)

(** The object that [JSON.parse] returns for a discovery.  In the fields
    read with [||] the empty string and zero stand for every falsy value;
    the other fields may be missing.  A type is one of the enumeration, as
    the schema of the request asks, or missing. *)
Record Discovery := {
  found_name : string;
  found_type : option CelestialType;
  found_description : string;
  found_distanceLightYears : Q;
  found_color : string;
  found_spectralClass : option string;
  found_temperatureK : option Q
}.

(** The [try] block of [generateCelestialDiscovery]: an exception (of the
    request, of [JSON.parse], or for an empty text), the value [null], or
    an object. *)
Inductive DiscoveryOutcome :=
  | DiscoveryThrows
  | DiscoveryNull
  | DiscoveryJson (d : Discovery).

(** The [try] block of [analyzeCelestialBody]: an exception or the text of
    the response, empty when there is none. *)
Inductive AnalysisOutcome := AnalysisThrows | AnalysisText (text : string).

Record Services := {
  oracles : Env;
  Math_pow : Q → nat → Q;
  toFixed : Q → nat → string;
  discovery_at : nat → Coordinates → nat → DiscoveryOutcome;
  analysis_at : nat → CelestialBody → AnalysisOutcome
}.

Definition setStars (f : list CelestialBody → list CelestialBody) : M unit :=
  λ w, (tt,
        {| resources := resources w; stars := f (stars w);
           constellations := constellations w; logs := logs w;
           clock := clock w |}).

Section Discovery.

Variable sv : Services.

(** [generateCelestialDiscovery]; [None] is the value [null]. *)
Definition generateCelestialDiscovery (coords : Coordinates)
    (existingCount : nat) : M (option Discovery) :=
  do t <- tick;
  match discovery_at sv t coords existingCount with
  | DiscoveryJson d => ret (Some d)
  | DiscoveryNull => ret None
  | DiscoveryThrows =>
      do u <- Math_random (oracles sv);
      do v <- Math_random (oracles sv);
      ret (Some
        {| found_name := "Unknown Signal " +:+ pretty (Qfloor (u * 1000)%Q);
           found_type := Some STAR;
           found_description :=
             "Static interference prevents clear identification. A faint glimmer in the void.";
           found_distanceLightYears := inject_Z (Qfloor (v * 5000)%Q);
           found_color := "#ffffff";
           found_spectralClass := None;
           found_temperatureK := None |})
  end.

Definition analyzeCelestialBody (body : CelestialBody) : M string :=
  do t <- tick;
  match analysis_at sv t body with
  | AnalysisText text =>
      ret (if decide (text = "") then "Analysis inconclusive." else text)
  | AnalysisThrows => ret "Data corrupted. Unable to complete analysis."
  end.

End Discovery.

(** *** The state of the [App] component and the pending continuations *)

(** React state and the ref [lastGazeTimeRef].  The component is loaded;
    [isGazing] and [showResetConfirm], which only decide what the page
    offers, are left out. *)
Record Game := {
  universe : World;
  upgrades : list Upgrade;
  selectedStar : option CelestialBody;
  isScanning : bool;
  isAnalyzing : bool;
  lastGazeTime : Z
}.

(** An [async] handler suspended at an [await], with the variables its
    continuation reads, or one that has returned. *)
Inductive Task :=
  | ScanWaiting (depth : nat)
  | ScanRequested (depth : nat) (coords : Coordinates)
  | Analyzing (body : CelestialBody)
  | Settled.

Record Session := { game : Game; tasks : list Task }.

Definition set_universe (f : World → World) (g : Game) : Game :=
  {| universe := f (universe g); upgrades := upgrades g;
     selectedStar := selectedStar g; isScanning := isScanning g;
     isAnalyzing := isAnalyzing g; lastGazeTime := lastGazeTime g |}.

Definition setUpgrades (us : list Upgrade) (g : Game) : Game :=
  {| universe := universe g; upgrades := us;
     selectedStar := selectedStar g; isScanning := isScanning g;
     isAnalyzing := isAnalyzing g; lastGazeTime := lastGazeTime g |}.

Definition setSelectedStar
    (f : option CelestialBody → option CelestialBody) (g : Game) : Game :=
  {| universe := universe g; upgrades := upgrades g;
     selectedStar := f (selectedStar g); isScanning := isScanning g;
     isAnalyzing := isAnalyzing g; lastGazeTime := lastGazeTime g |}.

Definition setIsScanning (b : bool) (g : Game) : Game :=
  {| universe := universe g; upgrades := upgrades g;
     selectedStar := selectedStar g; isScanning := b;
     isAnalyzing := isAnalyzing g; lastGazeTime := lastGazeTime g |}.

Definition setIsAnalyzing (b : bool) (g : Game) : Game :=
  {| universe := universe g; upgrades := upgrades g;
     selectedStar := selectedStar g; isScanning := isScanning g;
     isAnalyzing := b; lastGazeTime := lastGazeTime g |}.

Definition setLastGazeTime (t : Z) (g : Game) : Game :=
  {| universe := universe g; upgrades := upgrades g;
     selectedStar := selectedStar g; isScanning := isScanning g;
     isAnalyzing := isAnalyzing g; lastGazeTime := t |}.

(** A computation on the part of the state that the registry knows. *)
Definition run {A} (m : M A) (g : Game) : A * Game :=
  let r := m (universe g) in (r.1, set_universe (λ _, r.2) g).

Definition exec (m : M unit) (g : Game) : Game := (run m g).2.

Definition CelestialType_name (t : CelestialType) : string :=
  match t with
  | STAR => "STAR" | NEBULA => "NEBULA" | BLACK_HOLE => "BLACK_HOLE"
  | GALAXY => "GALAXY" | ANOMALY => "ANOMALY"
  end.

Definition newline : string := String (Ascii.ascii_of_nat 10) "".

(** [{ ...s, description: s.description + "\n\nAnalysis: " + text,
       analyzed: true }] *)
Definition with_analysis (s : CelestialBody) (text : string) : CelestialBody :=
  {| body_id := body_id s; body_name := body_name s; body_type := body_type s;
     description :=
       description s +:+ newline +:+ newline +:+ "Analysis: " +:+ text;
     distanceLightYears := distanceLightYears s;
     spectralClass := spectralClass s; temperatureK := temperatureK s;
     coordinates := coordinates s; color := color s;
     discoveryDate := discoveryDate s; analyzed := true |}.

(** [s || d] on strings *)
Definition or_else (s d : string) : string := if decide (s = "") then d else s.

Section Handlers.

Variable sv : Services.

(** The game loop: the body of the one-second interval. *)
Definition gameLoop (g : Game) : Game :=
  let maxFocus :=
    (MAX_FOCUS_BASE + number (level_of (upgrades g) "focus_condenser") * 50)%Q in
  let focusRegen :=
    (FOCUS_REGEN_BASE + number (level_of (upgrades g) "stabilizers"))%Q in
  let passiveStarlight :=
    (number (level_of (upgrades g) "sensor_array") * 0.5)%Q in
  exec (setResources (λ prev,
          {| starlight := (starlight prev + passiveStarlight)%Q;
             data := data prev;
             focus := Qmin maxFocus (focus prev + focusRegen)%Q |})) g.

Definition getGazeCooldown (g : Game) : Q :=
  let servoLevel := level_of (upgrades g) "optical_servos" in
  Qmax 50 (BASE_GAZE_COOLDOWN_MS * Math_pow sv 0.9 servoLevel)%Q.

Definition triggerGaze (g : Game) : Game :=
  let r := run (Date_now (oracles sv)) g in
  let now := r.1 in
  let cooldown := getGazeCooldown g in
  if Qlt_bool (inject_Z (now - lastGazeTime g)) cooldown then r.2
  else
    let lensLevel := level_of (upgrades g) "lens_polishing" in
    let gain := (1 + number lensLevel)%Q in
    exec (setResources (λ prev,
            {| starlight := (starlight prev + gain)%Q; data := data prev;
               focus := focus prev |}))
         (setLastGazeTime now r.2).

(** [calculateScanCost]: the pair ([focusCost], [lightCost]). *)
Definition calculateScanCost (g : Game) : Z * Z :=
  let depth := length (stars (universe g)) in
  let baseFocusCost := 20%Z in
  let baseLightCost := 10%Z in
  ((baseFocusCost + Qfloor (number depth * 1.5)%Q)%Z,
   (baseLightCost + Qfloor (number depth * 0.5)%Q)%Z).

(** [handleScan], up to its first [await]. *)
Definition handleScan (s : Session) : Session :=
  let g := game s in
  let cost := calculateScanCost g in
  if Qlt_bool (focus (resources (universe g))) (inject_Z cost.1)
     || Qlt_bool (starlight (resources (universe g))) (inject_Z cost.2)
     || isScanning g
  then s
  else
    let g1 := setIsScanning true g in
    let g2 :=
      exec (setResources (λ prev,
              {| starlight := (starlight prev - inject_Z cost.2)%Q;
                 data := data prev;
                 focus := (focus prev - inject_Z cost.1)%Q |})) g1 in
    let depth := length (stars (universe g)) in
    let baseTime := 1000%Q in
    let penalty := (number depth * 200)%Q in
    let scanMatrixLevel := level_of (upgrades g) "scan_matrix" in
    let reduction := Qmin 0.75 (number scanMatrixLevel * 0.15)%Q in
    let totalTime := Qmax 500 ((baseTime + penalty) * (1 - reduction))%Q in
    let g3 :=
      exec (addLog (oracles sv)
              ("Scanning sector (ETA: " +:+ toFixed sv (totalTime / 1000)%Q 1
                 +:+ "s)...") info) g2 in
    {| game := g3; tasks := tasks s ++ [ScanWaiting depth] |}.

(** The rest of [handleScan] once the discovery has arrived. *)
Definition scanned (depth : nat) (coords : Coordinates) (g : Game) : Game :=
  let r := run (generateCelestialDiscovery sv coords depth) g in
  let i := run (uuidv4 (oracles sv)) r.2 in
  match r.1 with
  | None =>
      setIsScanning false
        (exec (addLog (oracles sv) "Scan failed: Interference detected." warning)
              i.2)
  | Some d =>
      let t := run (Date_now (oracles sv)) i.2 in
      let newBody :=
        {| body_id := i.1;
           body_name := or_else (found_name d) "Unknown";
           body_type := default STAR (found_type d);
           description := or_else (found_description d) "No data available.";
           distanceLightYears := found_distanceLightYears d;
           spectralClass := found_spectralClass d;
           temperatureK := found_temperatureK d;
           coordinates := coords;
           color := or_else (found_color d) "#ffffff";
           discoveryDate := t.1;
           analyzed := false |} in
      let g1 := exec (setStars (λ prev, prev ++ [newBody])) t.2 in
      let g2 :=
        exec (addLog (oracles sv)
                ("Discovery: " +:+ body_name newBody +:+ " ("
                   +:+ CelestialType_name (body_type newBody) +:+ ")")
                discovery) g1 in
      let g3 :=
        exec (setResources (λ prev,
                {| starlight := starlight prev; data := (data prev + 5)%Q;
                   focus := focus prev |})) g2 in
      setIsScanning false g3
  end.

(** [handleAnalyze], up to its [await]. *)
Definition handleAnalyze (s : Session) : Session :=
  let g := game s in
  match selectedStar g with
  | None => s
  | Some sel =>
      if analyzed sel || isAnalyzing g then s
      else
        let processorLevel := level_of (upgrades g) "quantum_processor" in
        let discount := Qmin 0.5 (number processorLevel * 0.1)%Q in
        let cost := Qfloor (50 * (1 - discount))%Q in
        if Qlt_bool (data (resources (universe g))) (inject_Z cost)
        then
          {| game :=
               exec (addLog (oracles sv)
                       ("Insufficient Data. Need " +:+ pretty cost +:+ ".")
                       warning) g;
             tasks := tasks s |}
        else
          let g1 := setIsAnalyzing true g in
          let g2 :=
            exec (setResources (λ prev,
                    {| starlight := starlight prev;
                       data := (data prev - inject_Z cost)%Q;
                       focus := focus prev |})) g1 in
          let g3 :=
            exec (addLog (oracles sv)
                    ("Analyzing " +:+ body_name sel +:+ "...") info) g2 in
          {| game := g3; tasks := tasks s ++ [Analyzing sel] |}
  end.

(** The rest of [handleAnalyze] once the analysis has arrived. *)
Definition analysed (sel : CelestialBody) (g : Game) : Game :=
  let r := run (analyzeCelestialBody sv sel) g in
  let detailedAnalysis := r.1 in
  let g1 :=
    exec (setStars (λ prev,
            (λ s, if decide (body_id s = body_id sel)
                  then with_analysis s detailedAnalysis else s) <$> prev))
         r.2 in
  let g2 :=
    setSelectedStar (λ prev,
      match prev with
      | Some p => Some (with_analysis p detailedAnalysis)
      | None => None
      end) g1 in
  let g3 :=
    exec (addLog (oracles sv)
            ("Analysis complete for " +:+ body_name sel +:+ ".") discovery)
         g2 in
  setIsAnalyzing false g3.

(** A pending promise settles and the handler that waits for it goes on
    to its next [await] or to its end. *)
Definition settle (t : Task) (g : Game) : Task * Game :=
  match t with
  | ScanWaiting depth =>
      let cx := run (Math_random (oracles sv)) g in
      let cy := run (Math_random (oracles sv)) cx.2 in
      (ScanRequested depth {| x := (cx.1 * 1000)%Q; y := (cy.1 * 1000)%Q |},
       cy.2)
  | ScanRequested depth coords => (Settled, scanned depth coords g)
  | Analyzing sel => (Settled, analysed sel g)
  | Settled => (Settled, g)
  end.

Definition getUpgradeCost (u : Upgrade) : Z :=
  Qfloor (baseCost u * Math_pow sv (costMultiplier u) (level u))%Q.

Definition buyUpgrade (upgradeId : string) (g : Game) : Game :=
  match list_find (λ u, upgrade_id u = upgradeId) (upgrades g) with
  | None => g
  | Some (upgradeIndex, u) =>
      let cost := getUpgradeCost u in
      if Qle_bool (inject_Z cost) (starlight (resources (universe g)))
         && (level u <? maxLevel u)
      then
        let g1 :=
          exec (setResources (λ prev,
                  {| starlight := (starlight prev - inject_Z cost)%Q;
                     data := data prev; focus := focus prev |})) g in
        let g2 :=
          setUpgrades (<[upgradeIndex := with_level u (level u + 1)]>
                         (upgrades g)) g1 in
        exec (addLog (oracles sv)
                ("Upgraded " +:+ upgrade_name u +:+ " to Level "
                   +:+ pretty (level u + 1)) upgrade) g2
      else g
  end.

Definition performReset (g : Game) : Game :=
  exec (addLog (oracles sv) "Universe Reset. Welcome back, Observer." warning)
    {| universe :=
         {| resources := INITIAL_RESOURCES; stars := []; constellations := [];
            logs := []; clock := clock (universe g) |};
       upgrades := UPGRADES;
       selectedStar := None;
       isScanning := false;
       isAnalyzing := false;
       lastGazeTime := lastGazeTime g |}.

(** The effect hook on [stars.length], the pass run to its end. *)
Definition chart (g : Game) : option Game :=
  if decide (0 < length (stars (universe g)))
  then
    match checkForConstellations (oracles sv) (stars (universe g))
            (constellations (universe g)) (universe g) with
    | Some w => Some (set_universe (λ _, w) g)
    | None => None
    end
  else Some g.

(** The restore of the upgrades in [loadGame]. *)
Definition restoreUpgrades (savedUpgrades : list Upgrade) : list Upgrade :=
  (λ def,
     match list_find (λ s, upgrade_id s = upgrade_id def) savedUpgrades with
     | Some (_, saved) => with_level def (level saved)
     | None => def
     end) <$> UPGRADES.

(** What can happen next: a timer, the user, or a promise that settles. *)
Inductive Action :=
  | Tick
  | Gaze
  | Scan
  | SelectStar (i : nat)
  | Deselect
  | Analyze
  | Buy (upgradeId : string)
  | Reset
  | Chart
  | Settle (i : nat).

#[global] Instance Action_eq_dec : EqDecision Action.
Proof. solve_decision. Defined.

Definition on_game (f : Game → Game) (s : Session) : Session :=
  {| game := f (game s); tasks := tasks s |}.

Definition act (a : Action) (s : Session) : option Session :=
  match a with
  | Tick => Some (on_game gameLoop s)
  | Gaze => Some (on_game triggerGaze s)
  | Scan => Some (handleScan s)
  | SelectStar i =>
      match stars (universe (game s)) !! i with
      | Some star => Some (on_game (setSelectedStar (λ _, Some star)) s)
      | None => Some s
      end
  | Deselect => Some (on_game (setSelectedStar (λ _, None)) s)
  | Analyze => Some (handleAnalyze s)
  | Buy upgradeId => Some (on_game (buyUpgrade upgradeId) s)
  | Reset => Some (on_game performReset s)
  | Chart =>
      match chart (game s) with
      | Some g => Some {| game := g; tasks := tasks s |}
      | None => None
      end
  | Settle i =>
      match tasks s !! i with
      | Some t =>
          let r := settle t (game s) in
          Some {| game := r.2; tasks := <[i := r.1]> (tasks s) |}
      | None => Some s
      end
  end.

Fixpoint play (actions : list Action) (s : Session) : option Session :=
  match actions with
  | [] => Some s
  | a :: rest =>
      match act a s with
      | Some s' => play rest s'
      | None => None
      end
  end.

End Handlers.

(** A new game. *)
Definition newGame : Session :=
  {| game :=
       {| universe :=
            {| resources := INITIAL_RESOURCES; stars := []; constellations := [];
               logs := []; clock := 0 |};
          upgrades := UPGRADES;
          selectedStar := None;
          isScanning := false;
          isAnalyzing := false;
          lastGazeTime := 0 |};
     tasks := [] |}.

(** ** The star map (src/components/StarMap.tsx)

    What the drawing effect computes before it draws: the constellation of
    each body, the labels of the constellations and the links between
    bodies.  A [Map] whose entries are read in insertion order is a list of
    pairs.  Strings are compared byte by byte, as JavaScript compares the
    identities that [uuidv4] returns. *)

(** [starToConstellation] *)
Definition starToConstellation (constellations : list Constellation)
  : gmap string string :=
  foldl (λ m c, foldl (λ m sid, <[sid := c_id c]> m) m (starIds c))
        ∅ constellations.

Record LabelData := { xSum : Q; ySum : Q; count : nat; label_name : string }.

(** [Map.prototype.set] and [get] on a map kept in insertion order. *)
Fixpoint Map_set {A} (k : string) (v : A) (m : list (string * A))
  : list (string * A) :=
  match m with
  | [] => [(k, v)]
  | (k', v') :: m' =>
      if decide (k' = k) then (k, v) :: m' else (k', v') :: Map_set k v m'
  end.

Fixpoint Map_get {A} (k : string) (m : list (string * A)) : option A :=
  match m with
  | [] => None
  | (k', v') :: m' => if decide (k' = k) then Some v' else Map_get k m'
  end.

(** [constellationData] after the loop over the constellations. *)
Definition constellationData0 (constellations : list Constellation)
  : list (string * LabelData) :=
  foldl (λ m c,
           Map_set (c_id c)
             {| xSum := 0; ySum := 0; count := 0; label_name := c_name c |} m)
        [] constellations.

(** The body of [stars.forEach] that sums the coordinates. *)
Definition add_to_centroid (m : gmap string string)
    (acc : list (string * LabelData)) (s : CelestialBody)
  : list (string * LabelData) :=
  match m !! body_id s with
  | Some cId =>
      if decide (cId = "") then acc
      else
        match Map_get cId acc with
        | Some d =>
            Map_set cId
              {| xSum := xSum d + x (coordinates s);
                 ySum := ySum d + y (coordinates s);
                 count := count d + 1;
                 label_name := label_name d |} acc
        | None => acc
        end
  | None => acc
  end.

Definition constellationData (stars : list CelestialBody)
    (constellations : list Constellation) : list (string * LabelData) :=
  foldl (add_to_centroid (starToConstellation constellations))
        (constellationData0 constellations) stars.

Record Label := { label_id : string; label_x : Q; label_y : Q; label_text : string }.

(** [labelsData]; a division by a zero [count] is not a number in
    JavaScript and zero here. *)
Definition labelsData (stars : list CelestialBody)
    (constellations : list Constellation) : list Label :=
  (λ e, {| label_id := e.1;
           label_x := xSum e.2 / number (count e.2);
           label_y := ySum e.2 / number (count e.2);
           label_text := label_name e.2 |})
  <$> constellationData stars constellations.

Definition MAX_CONNECTION_DISTANCE : Q := 180.

(** [{ s, dist }] *)
Record Neighbor := { neighbor : CelestialBody; dist : Q }.

Record Link := {
  link_id : string;
  x1 : Q; y1 : Q; x2 : Q; y2 : Q;
  opacity : Q;
  isCharted : bool
}.

(** [sort((a, b) => a.dist - b.dist)]: a stable sort by distance. *)
Fixpoint insert_by_dist (n : Neighbor) (l : list Neighbor) : list Neighbor :=
  match l with
  | [] => [n]
  | m :: l' =>
      if Qle_bool (dist n) (dist m) then n :: m :: l'
      else m :: insert_by_dist n l'
  end.

Definition sort_by_dist (l : list Neighbor) : list Neighbor :=
  foldr insert_by_dist [] l.

(** The two nearest bodies within reach of [star]. *)
Definition nearest (stars : list CelestialBody) (star : CelestialBody)
  : list Neighbor :=
  take 2
    (sort_by_dist
       (filter (λ n, Qlt_bool (dist n) MAX_CONNECTION_DISTANCE = true)
          ((λ s, {| neighbor := s;
                    dist :=
                      Math_hypot (x (coordinates s) - x (coordinates star))
                                 (y (coordinates s) - y (coordinates star)) |})
           <$> filter (λ s, body_id s ≠ body_id star) stars))).

(** [[a, b].sort().join('-')] *)
Definition linkId (a b : string) : string :=
  if String.ltb b a then b +:+ "-" +:+ a else a +:+ "-" +:+ b.

(** [!!c1 && !!c2 && c1 === c2] *)
Definition sameConstellation (c1 c2 : option string) : bool :=
  match c1, c2 with
  | Some i, Some j =>
      bool_decide (i ≠ "") && bool_decide (j ≠ "") && bool_decide (i = j)
  | _, _ => false
  end.

(** The links pushed for one body. *)
Definition links_of (m : gmap string string) (stars : list CelestialBody)
    (star : CelestialBody) : list Link :=
  nearest stars star ≫= λ n,
    if String.ltb (body_id star) (body_id (neighbor n))
    then [ {| link_id := linkId (body_id star) (body_id (neighbor n));
              x1 := x (coordinates star); y1 := y (coordinates star);
              x2 := x (coordinates (neighbor n));
              y2 := y (coordinates (neighbor n));
              opacity := 1 - dist n / MAX_CONNECTION_DISTANCE;
              isCharted :=
                sameConstellation (m !! body_id star)
                                  (m !! body_id (neighbor n)) |} ]
    else [].

Definition links (stars : list CelestialBody)
    (constellations : list Constellation) : list Link :=
  stars ≫= links_of (starToConstellation constellations) stars.

(** ** Vocabulary of the specification *)

(** Euclidean distance between the positions of two bodies. *)
Definition distance (s1 s2 : CelestialBody) : R :=
  sqrt ((Q2R (x (coordinates s1)) - Q2R (x (coordinates s2))) ^ 2
        + (Q2R (y (coordinates s1)) - Q2R (y (coordinates s2))) ^ 2).

(** [adj.get(a) || []] *)
Definition neighbors (adj : gmap string (list string)) (a : string)
  : list string :=
  default [] (adj !! a).

(** Two ids are joined by an edge when two bodies of the list carry them
    and pass the proximity test, which the loops over [i] and [j > i] apply
    to the body at the lower position first. *)
Definition edge (ss : list CelestialBody) (a b : string) : Prop :=
  ∃ i j s1 s2, i < j ∧ ss !! i = Some s1 ∧ ss !! j = Some s2 ∧
               near s1 s2 = true ∧
               ((a = body_id s1 ∧ b = body_id s2) ∨
                (a = body_id s2 ∧ b = body_id s1)).

(** Two ids are adjacent within [d] when two bodies at different positions
    of the list carry them and lie at a Euclidean distance below [d]. *)
Definition adjacent (d : R) (ss : list CelestialBody) (a b : string) : Prop :=
  ∃ i j s1 s2, i ≠ j ∧ ss !! i = Some s1 ∧ ss !! j = Some s2 ∧
               body_id s1 = a ∧ body_id s2 = b ∧ (distance s1 s2 < d)%R.

(** [Math.hypot] takes no account of the signs of its arguments. *)
Definition sign_blind : Prop :=
  ∀ a b : Q, Math_hypot (- a) (- b) = Math_hypot a b.

(** On the pairs of bodies of the list, at the differences that
    [buildAdjacency] passes to it, [Math.hypot] is within [ε] of the
    Euclidean distance. *)
Definition accurate (ε : R) (ss : list CelestialBody) : Prop :=
  ∀ i j s1 s2, i < j → ss !! i = Some s1 → ss !! j = Some s2 →
    (Rabs (Q2R (Math_hypot (x (coordinates s1) - x (coordinates s2))
                           (y (coordinates s1) - y (coordinates s2)))
           - distance s1 s2) <= ε)%R.

(** Connected by a path of edges. *)
Definition connected (ss : list CelestialBody) : relation string :=
  rtc (edge ss).

(** The connected component of [a] has at most [n] ids. *)
Definition component_at_most (n : nat) (ss : list CelestialBody) (a : string)
  : Prop :=
  ∃ l : list string, length l ≤ n ∧ ∀ b, connected ss a b → b ∈ l.

(** The pairs of a row that pass the proximity test. *)
Definition row_edge (s1 : CelestialBody) (rest : list CelestialBody)
    (a b : string) : Prop :=
  ∃ s2, s2 ∈ rest ∧ near s1 s2 = true ∧
        ((a = body_id s1 ∧ b = body_id s2) ∨ (a = body_id s2 ∧ b = body_id s1)).

(** What holds of every id that the search started at [s0] has put on the
    stack or into the cluster, [V0] being the set visited before. *)
Definition found (universe : list string) (R : relation string)
    (s0 : string) (V0 visited : gset string) (v : string) : Prop :=
  v ∈ visited ∧ (v ∉ V0) ∧ v ∈ universe ∧ rtc R s0 v.

(** A cluster kept by the outer loop: large enough, duplicate-free, made
    of visited ids of the universe, any two of them reachable from one
    start. *)
Definition cluster_ok (universe : list string) (R : relation string)
    (visited : gset string) (K : list string) : Prop :=
  3 ≤ length K ∧ NoDup K ∧
  (∀ v, v ∈ K → v ∈ visited ∧ v ∈ universe) ∧
  (∀ a b, a ∈ K → b ∈ K → ∃ s0, rtc R s0 a ∧ rtc R s0 b).

(** Clusters at different positions of the list share no id. *)
Definition clusters_disjoint (clusters : list (list string)) : Prop :=
  ∀ i j K1 K2, i ≠ j → clusters !! i = Some K1 → clusters !! j = Some K2 →
               K1 ## K2.

(** A cluster as [findClusters] returns them: a duplicate-free list of at
    least three ids of the bodies, any two of them connected. *)
Definition good_cluster (ss : list CelestialBody) (K : list string) : Prop :=
  3 ≤ length K ∧ NoDup K ∧ (∀ v, v ∈ K → v ∈ body_id <$> ss) ∧
  (∀ a b, a ∈ K → b ∈ K → connected ss a b).

(** [mergedIds] once the loop over the other overlaps has run. *)
Definition mergedIds (primaryC : Constellation) (others : list Constellation)
    (cluster : list string) : list string :=
  foldl Set_add (Set_from (starIds primaryC ++ cluster)) (others ≫= starIds).

(** Identities are pairwise distinct. *)
Definition ids_unique (cs : list Constellation) : Prop :=
  NoDup (c_id <$> cs).

(** No identity that [uuidv4] hands out from time [t] on is in use. *)
Definition ids_fresh (env : Env) (t : nat) (cs : list Constellation) : Prop :=
  ∀ t', t ≤ t' → uuid_at env t' ∉ c_id <$> cs.

(** Distinct constellations share no member. *)
Definition members_disjoint (cs : list Constellation) : Prop :=
  ∀ c d, c ∈ cs → d ∈ cs → c_id c ≠ c_id d → starIds c ## starIds d.

(** Every constellation has at least three distinct members. *)
Definition members_enough (cs : list Constellation) : Prop :=
  ∀ c, c ∈ cs → 3 ≤ length (starIds c) ∧ NoDup (starIds c).

(** Exactly one constellation touches the cluster, and it contains it. *)
Definition settled (cs : list Constellation) (K : list string) : Prop :=
  ∃ c, c ∈ cs ∧ (∀ v, v ∈ K → v ∈ starIds c) ∧
       ∀ d, d ∈ cs → overlapping K d → d = c.

(** The identities in a list are pairwise distinct and will not be handed
    out again from time [t] on. *)
Definition ids_ok (env : Env) (t : nat) (cs : list Constellation) : Prop :=
  ids_unique cs ∧ ids_fresh env t cs.

(** Members are shared by no two constellations, and there are at least
    three distinct ones in each. *)
Definition members_ok (cs : list Constellation) : Prop :=
  members_disjoint cs ∧ members_enough cs.

(** The invariant of the specification, by positions in the list: two
    constellations share no member, and each has three distinct members or
    more. *)
Definition disjoint_and_large (cs : list Constellation) : Prop :=
  (∀ i j c d, i ≠ j → cs !! i = Some c → cs !! j = Some d →
              ∀ v, v ∈ starIds c → v ∉ starIds d) ∧
  (∀ c, c ∈ cs → 3 ≤ length (starIds c) ∧ NoDup (starIds c)).

(** The name that the naming oracle returns in world [w]. *)
Definition name_in (env : Env) (n : nat) (w : World) : string :=
  (generateConstellationName env n w).1.

(** The log entry written by [addLog] for a creation. *)
Definition charted_entry (env : Env) (name : string) (K : list string)
    (t : nat) : LogEntry :=
  {| log_id := uuid_at env t; timestamp := now_at env (S t);
     message := charted_message name K; log_type := constellation |}.

(** The constellation created for cluster [K] at time [t]. *)
Definition created (env : Env) (name : string) (K : list string) (t : nat)
  : Constellation :=
  {| c_id := uuid_at env t; c_name := name; starIds := K;
     discoveredAt := now_at env (S t) |}.

(** The local state with which a pass starts. *)
Definition loc_of (w : World) : Loc :=
  {| updatedConstellations := constellations w; hasChanges := false |}.

(** The state is well formed: identities distinct and not to be reused,
    members disjoint and at least three. *)
Definition world_ok (env : Env) (w : World) : Prop :=
  ids_ok env (clock w) (constellations w) ∧ members_ok (constellations w).

(** The constellations of [cs] whose identity is not in [cs0]: those
    created since. *)
Definition created_since (cs0 cs : list Constellation) : list Constellation :=
  filter (λ c, c_id c ∉ c_id <$> cs0) cs.

(** The rewards due for a list of newly created constellations. *)
Definition total_starlight (cs : list Constellation) : nat :=
  sum_list_with (λ c, rewardStarlight (starIds c)) cs.

Definition total_data (cs : list Constellation) : nat :=
  sum_list_with (λ c, rewardData (starIds c)) cs.

(** What a step adds to the constellations created since [cs0] and to the
    resources. *)
Definition adds (cs0 : list Constellation) (K : list string)
    (loc loc' : Loc) (w w' : World) (extra : list Constellation) : Prop :=
  created_since cs0 (updatedConstellations loc')
  = created_since cs0 (updatedConstellations loc) ++ extra ∧
  (starlight (resources w')
   == starlight (resources w) + inject_Z (Z.of_nat (total_starlight extra)))%Q ∧
  (data (resources w')
   == data (resources w) + inject_Z (Z.of_nat (total_data extra)))%Q.

(** A suspended pass holds a well-formed local list that the cluster it
    waits for does not touch, and clusters of three distinct ids or more. *)
Definition pass_ok (env : Env) (t : nat) (p : Pass) : Prop :=
  match p with
  | Finished => True
  | Awaiting K rest loc =>
      ids_ok env t (updatedConstellations loc) ∧
      members_ok (updatedConstellations loc) ∧
      filter (overlapping K) (updatedConstellations loc) = [] ∧
      ∀ K', K' ∈ K :: rest → 3 ≤ length K' ∧ NoDup K'
  end.

(** The committed list and every suspended pass are well formed. *)
Definition config_ok (env : Env) (c : Config) : Prop :=
  world_ok env (world c) ∧
  ∀ p, p ∈ passes c → pass_ok env (clock (world c)) p.

(** No pass has been started yet. *)
Definition config0 (w : World) : Config := {| world := w; passes := [] |}.

(** ** Vocabulary of the passes, the game and the star map *)

(** The component of [a] in the graph of the adjacency lists has at most
    two ids. *)
Definition small_in (adj : gmap string (list string)) (a : string) : Prop :=
  ∃ l : list string, length l ≤ 2 ∧
    ∀ b, rtc (λ u v, v ∈ neighbors adj u) a b → b ∈ l.

(** What the outer loop of the search keeps: the visited set is closed
    under the adjacency lists, every visited id is in a cluster or in a
    component of at most two ids, and every cluster is closed. *)
Definition search_closed (adj : gmap string (list string))
    (visited : gset string) (clusters : list (list string)) : Prop :=
  (∀ v u, v ∈ visited → u ∈ neighbors adj v → u ∈ visited) ∧
  (∀ v, v ∈ visited → (∃ K, K ∈ clusters ∧ v ∈ K) ∨ small_in adj v) ∧
  (∀ K v u, K ∈ clusters → v ∈ K → u ∈ neighbors adj v → u ∈ K).

(** Two bodies with the same id at the same place of the map. *)
Definition same_place (s s' : CelestialBody) : Prop :=
  body_id s = body_id s' ∧ coordinates s = coordinates s'.

(** The same constellation at a later time: identity, name and date of
    discovery unchanged, no member lost. *)
Definition grown_from (c c' : Constellation) : Prop :=
  c_id c = c_id c' ∧ c_name c = c_name c' ∧
  discoveredAt c = discoveredAt c' ∧ ∀ v, v ∈ starIds c → v ∈ starIds c'.

(** Every member of a constellation of [cs] is a member of one of [cs']. *)
Definition keeps_members (cs cs' : list Constellation) : Prop :=
  ∀ c v, c ∈ cs → v ∈ starIds c → ∃ c', c' ∈ cs' ∧ v ∈ starIds c'.

(** Every constellation of [cs'] is one of [cs] grown, or carries an
    identity handed out at time [t] or later. *)
Definition descends (env : Env) (t : nat) (cs cs' : list Constellation)
  : Prop :=
  ∀ c', c' ∈ cs' →
        (∃ c, c ∈ cs ∧ grown_from c c') ∨
        (∃ t', t ≤ t' ∧ c_id c' = uuid_at env t').




(** Every constellation of the list has a name. *)
Definition all_named (cs : list Constellation) : Prop :=
  ∀ c, c ∈ cs → c_name c ≠ "".

(** ** Vocabulary of the game *)

(** The resources of a session. *)
Definition purse (s : Session) : GameResources :=
  resources (universe (game s)).

(** The largest focus the game loop fills up to. *)
Definition maxFocus (g : Game) : Q :=
  (MAX_FOCUS_BASE + number (level_of (upgrades g) "focus_condenser") * 50)%Q.

(** What a tick adds to the focus and to the starlight. *)
Definition focusRegen (g : Game) : Q :=
  (FOCUS_REGEN_BASE + number (level_of (upgrades g) "stabilizers"))%Q.

Definition passiveStarlight (g : Game) : Q :=
  (number (level_of (upgrades g) "sensor_array") * 0.5)%Q.

(** What an accepted gaze adds to the starlight. *)
Definition gazeGain (g : Game) : Q :=
  (1 + number (level_of (upgrades g) "lens_polishing"))%Q.

(** No resource is negative. *)
Definition solvent (r : GameResources) : Prop :=
  (0 <= starlight r)%Q ∧ (0 <= data r)%Q ∧ (0 <= focus r)%Q.

(** The upgrades are those of [UPGRADES], in their order, each at a level
    up to its largest. *)
Definition upgrades_ok (us : list Upgrade) : Prop :=
  Forall2 (λ u def, u = with_level def (level u) ∧ level u ≤ maxLevel def)
          us UPGRADES.

(** A scan that has not delivered its body yet. *)
Definition is_scan (t : Task) : bool :=
  match t with
  | ScanWaiting _ | ScanRequested _ _ => true
  | Analyzing _ | Settled => false
  end.

(** The number of scans in flight. *)
Definition in_flight (ts : list Task) : nat :=
  sum_list_with (λ t, if is_scan t then 1 else 0) ts.

(** The focus is within the cap of the game loop. *)
Definition capped (g : Game) : Prop :=
  (focus (resources (universe g)) <= maxFocus g)%Q.

(** At most one scan is in flight, none when [isScanning] is off, and
    the bodies found and to be found are 388 at most. *)
Definition scan_budget (s : Session) : Prop :=
  length (stars (universe (game s))) + in_flight (tasks s) ≤ 388 ∧
  (isScanning (game s) = false → in_flight (tasks s) = 0) ∧
  in_flight (tasks s) ≤ 1.

(** What bounds the number of bodies: the focus is capped, the upgrades
    are those of the catalogue, and the scans are within their budget. *)
Definition bounded (s : Session) : Prop :=
  capped (game s) ∧ upgrades_ok (upgrades (game s)) ∧ scan_budget s.

(** The log holds fifty entries at most. *)
Definition log_bounded (w : World) : Prop := length (logs w) ≤ 50.

(** A body as it is kept: place, identity and name stay, and an analysis
    is not undone. *)
Definition body_kept (s s' : CelestialBody) : Prop :=
  same_place s s' ∧ body_name s = body_name s' ∧
  (analyzed s = true → analyzed s' = true).

(** The bodies of [ss] are kept in [ss'], in their order, before any
    other. *)
Definition sky_extends (ss ss' : list CelestialBody) : Prop :=
  ∃ kept more, ss' = kept ++ more ∧ Forall2 body_kept ss kept.

(** The identities of the bodies are pairwise distinct and will not be
    handed out again from time [t] on. *)
Definition bodies_ok (env : Env) (t : nat) (ss : list CelestialBody) : Prop :=
  NoDup (body_id <$> ss) ∧ ∀ t', t ≤ t' → uuid_at env t' ∉ body_id <$> ss.

(** Every member of a constellation is a body of the list. *)
Definition members_known (ss : list CelestialBody) (cs : list Constellation)
  : Prop :=
  ∀ c v, c ∈ cs → v ∈ starIds c → v ∈ body_id <$> ss.

(** The upgrades are those of [UPGRADES], in their order, at any levels. *)
Definition in_catalogue (us : list Upgrade) : Prop :=
  Forall2 (λ u def, u = with_level def (level u)) us UPGRADES.

(** ** Vocabulary of the star map *)

(** The candidates among which [nearest] chooses: the other bodies within
    reach of [star], each with the distance that [Math.hypot] returns. *)
Definition within_reach (stars : list CelestialBody) (star : CelestialBody)
  : list Neighbor :=
  filter (λ n, Qlt_bool (dist n) MAX_CONNECTION_DISTANCE = true)
    ((λ s, {| neighbor := s;
              dist :=
                Math_hypot (x (coordinates s) - x (coordinates star))
                           (y (coordinates s) - y (coordinates star)) |})
     <$> filter (λ s, body_id s ≠ body_id star) stars).

(** The link that [links_of] pushes for a body and one of its nearest. *)
Definition link_between (m : gmap string string) (star : CelestialBody)
    (n : Neighbor) : Link :=
  {| link_id := body_id star +:+ "-" +:+ body_id (neighbor n);
     x1 := x (coordinates star); y1 := y (coordinates star);
     x2 := x (coordinates (neighbor n)); y2 := y (coordinates (neighbor n));
     opacity := 1 - dist n / MAX_CONNECTION_DISTANCE;
     isCharted :=
       sameConstellation (m !! body_id star) (m !! body_id (neighbor n)) |}.

(** Sorted by distance, nearest first. *)
Definition by_dist (l : list Neighbor) : Prop :=
  ∀ i j n m, i ≤ j → l !! i = Some n → l !! j = Some m →
             (dist n <= dist m)%Q.

(** The bodies of the list that are members of [c]. *)
Definition members_in (ss : list CelestialBody) (c : Constellation)
  : list CelestialBody :=
  filter (λ s, body_id s ∈ starIds c) ss.

(** The sums of the coordinates, in the order of the list. *)
Definition sum_x (l : list CelestialBody) : Q :=
  foldl (λ a s, a + x (coordinates s))%Q 0%Q l.

Definition sum_y (l : list CelestialBody) : Q :=
  foldl (λ a s, a + y (coordinates s))%Q 0%Q l.

(** What [constellationData] holds for [c] once the bodies [ss] have been
    added. *)
Definition data_of (ss : list CelestialBody) (c : Constellation) : LabelData :=
  {| xSum := sum_x (members_in ss c); ySum := sum_y (members_in ss c);
     count := length (members_in ss c); label_name := c_name c |}.

(** The label at the centroid of the members of [c]. *)
Definition centroid_label (ss : list CelestialBody) (c : Constellation)
  : Label :=
  {| label_id := c_id c;
     label_x := sum_x (members_in ss c) / number (length (starIds c));
     label_y := sum_y (members_in ss c) / number (length (starIds c));
     label_text := c_name c |}.

(** A place on the map, whose scales run from 0 to 1000. *)
Definition on_map (c : Coordinates) : Prop :=
  (0 <= x c)%Q ∧ (x c < 1000)%Q ∧ (0 <= y c)%Q ∧ (y c < 1000)%Q.

(** The coordinates that a pending scan has drawn are on the map. *)
Definition task_on_map (t : Task) : Prop :=
  match t with
  | ScanRequested _ coords => on_map coords
  | _ => True
  end.

(** All bodies, found and about to be found, are on the map. *)
Definition all_on_map (s : Session) : Prop :=
  Forall (λ b, on_map (coordinates b)) (stars (universe (game s))) ∧
  Forall task_on_map (tasks s).

(** The price of an analysis: 50 data, 5 less for each level of the
    quantum processor up to the fifth. *)
Definition analysisPrice (g : Game) : Z :=
  (50 - 5 * Z.of_nat (level_of (upgrades g) "quantum_processor" `min` 5))%Z.

(** ** Sample data *)

Definition mkBody (i : string) (px py : Q) : CelestialBody :=
  {| body_id := i; body_name := i; body_type := STAR; description := "";
     distanceLightYears := 0; spectralClass := None; temperatureK := None;
     coordinates := {| x := px; y := py |}; color := "#ffffff";
     discoveryDate := 0; analyzed := false |}.

(** A world in which the naming request always fails, identities are
    numbered and [Math.random] cycles through the eighths. *)
Definition env0 : Env :=
  {| uuid_at := λ t, "id-" +:+ pretty t;
     now_at := λ t, (1000 + Z.of_nat t)%Z;
     random_at := λ t, (inject_Z (Z.of_nat (t mod 8)) / 8)%Q;
     generateContent_at := λ t n, Throws |}.

(** [env0] with other outcomes of [Math.random]. *)
Definition env1 : Env :=
  {| uuid_at := uuid_at env0; now_at := now_at env0;
     random_at := λ _, 0%Q;
     generateContent_at := generateContent_at env0 |}.

(** The initial state ([INITIAL_RESOURCES]) with the given bodies. *)
Definition world0 (ss : list CelestialBody) : World :=
  {| resources := {| starlight := 0; data := 0; focus := 100 |};
     stars := ss; constellations := []; logs := []; clock := 0 |}.

Definition world_with (ss : list CelestialBody) (cs : list Constellation)
  : World :=
  {| resources := {| starlight := 0; data := 0; focus := 100 |};
     stars := ss; constellations := cs; logs := []; clock := 0 |}.

(** The scenarios of the specification. *)
Definition scenarioA : list CelestialBody :=
  [mkBody "A" 0 0; mkBody "B" 50 50; mkBody "C" 90 90].

Definition bodyD : CelestialBody := mkBody "D" 240 90.

Definition scenarioC : list CelestialBody := scenarioA ++ [bodyD].

Definition scenarioD : list CelestialBody :=
  scenarioA ++ [mkBody "D" 400 90; mkBody "E" 450 50; mkBody "F" 500 0;
                mkBody "G" 245 90].

Definition pairAndLoner : list CelestialBody :=
  [mkBody "A" 0 0; mkBody "B" 100 0; mkBody "C" 500 500].

Definition bodiesXYZ : list CelestialBody :=
  [mkBody "X" 900 900; mkBody "Y" 950 950; mkBody "Z" 990 990].

Definition constellationABC : Constellation :=
  {| c_id := "c-abc"; c_name := "Orion's Belt"; starIds := ["A"; "B"; "C"];
     discoveredAt := 10 |}.

Definition constellationDEF : Constellation :=
  {| c_id := "c-def"; c_name := "Cygnus Major"; starIds := ["D"; "E"; "F"];
     discoveredAt := 20 |}.

(** The double nearest to the square root of [s], ties to even, with no
    bound on the exponent: for [s > 0], [m] is the integer part of the root
    scaled by [2 ^ k] to 53 bits. *)
Definition round_sqrt (s : Q) : Q :=
  if Qle_bool s 0 then 0%Q else
  let l := (Z.log2 (Qnum s) - Z.log2 (Z.pos (Qden s)))%Z in
  let k0 := (52 - (l - 1) / 2)%Z in
  let k := if (Z.sqrt (Qfloor (s * (4 ^ k0))%Q) <? 2 ^ 53)%Z
           then k0 else (k0 - 1)%Z in
  let t := (s * (4 ^ k))%Q in
  let m := Z.sqrt (Qfloor t) in
  let h := inject_Z ((2 * m + 1) * (2 * m + 1)) in
  let up := if Qle_bool (4 * t) h
            then Qle_bool h (4 * t) && Z.odd m
            else true in
  Qred (inject_Z (if up then m + 1 else m) / 2 ^ k)%Q.

(** A sample of [Math.hypot]: the double nearest to the exact root of the
    sum of the squares. *)
Definition hypot64 (a b : Q) : Q := round_sqrt (a * a + b * b).

Definition math64 : Math := {| Math_hypot := hypot64 |}.

(** Two bodies less than 180 apart whose distance rounds to 180, and a
    third as far from the second as the first is: [2 ^ -46] is the step
    between the doubles below 108, [2 ^ -45] the step below 216. *)
Definition almost180 : list CelestialBody :=
  [mkBody "A" 0 0;
   mkBody "B" (108 - 1 / 2 ^ 46) 144;
   mkBody "C" (216 - 1 / 2 ^ 45) 288].

(** Three bodies 50, 50 and 100 apart. *)
Definition threeInLine : list CelestialBody :=
  [mkBody "A" 0 0; mkBody "B" 30 40; mkBody "C" 60 80].

(** A sample of services: time runs a second per reading, the discovery
    request always fails and the analysis always answers. *)
Definition services0 : Services :=
  {| oracles :=
       {| uuid_at := uuid_at env0;
          now_at := λ t, (1000 * Z.of_nat t)%Z;
          random_at := random_at env0;
          generateContent_at := generateContent_at env0 |};
     Math_pow := λ b n, Qpower b (Z.of_nat n);
     toFixed := λ q _, pretty (Qfloor q);
     discovery_at := λ _ _ _, DiscoveryThrows;
     analysis_at := λ _ _, AnalysisText "Mostly hydrogen." |}.

(** ** Proximity *)

Lemma hypot_lt_Qlt a b d : hypot_lt a b d = true ↔ (Math_hypot a b < d)%Q.
Proof.
  unfold hypot_lt. rewrite negb_true_iff, <- not_true_iff_false, Qle_bool_iff.
  split; [apply Qnot_le_lt | apply Qlt_not_le].
Qed.

(** The two differences of a pair are opposite, as fractions too. *)
Lemma Qminus_opp (a b : Q) : (a - b)%Q = (- (b - a))%Q.
Proof.
  destruct a as [an ad], b as [bn bd]. unfold Qminus, Qplus, Qopp. simpl.
  f_equal; [ring|apply Pos.mul_comm].
Qed.

Lemma near_sym s1 s2 : sign_blind → near s1 s2 = near s2 s1.
Proof.
  intros Hblind. unfold near, hypot_lt.
  rewrite (Qminus_opp (x (coordinates s1))), (Qminus_opp (y (coordinates s1))).
  by rewrite Hblind.
Qed.

Lemma distance_sym s1 s2 : distance s1 s2 = distance s2 s1.
Proof. unfold distance. f_equal. ring. Qed.

Lemma near_Rlt s1 s2 :
  near s1 s2 = true ↔
  (Q2R (Math_hypot (x (coordinates s1) - x (coordinates s2))
                   (y (coordinates s1) - y (coordinates s2))) < 180)%R.
Proof.
  unfold near. rewrite hypot_lt_Qlt. unfold MAX_DIST.
  replace 180%R with (Q2R 180) by (unfold Q2R; simpl; lra).
  split; [apply Qlt_Rlt|apply Rlt_Qlt].
Qed.

(** A body nearer than 180 by more than the error of [Math.hypot] passes
    the test, and a body that passes it is nearer than 180 and the error. *)
Lemma near_accurate ε s1 s2 :
  (Rabs (Q2R (Math_hypot (x (coordinates s1) - x (coordinates s2))
                         (y (coordinates s1) - y (coordinates s2)))
         - distance s1 s2) <= ε)%R →
  ((distance s1 s2 < 180 - ε)%R → near s1 s2 = true) ∧
  (near s1 s2 = true → (distance s1 s2 < 180 + ε)%R).
Proof.
  intros Herr. rewrite near_Rlt.
  unfold Rabs in Herr. destruct (Rcase_abs _); split; intros H; lra.
Qed.

(** The comparison of a distance with 180, on the squares. *)
Lemma distance_below s1 s2 :
  ((x (coordinates s1) - x (coordinates s2))
   * (x (coordinates s1) - x (coordinates s2))
   + (y (coordinates s1) - y (coordinates s2))
     * (y (coordinates s1) - y (coordinates s2)) < 180 * 180)%Q →
  (distance s1 s2 < 180)%R.
Proof.
  unfold distance.
  set (a := x (coordinates s1)). set (a' := x (coordinates s2)).
  set (b := y (coordinates s1)). set (b' := y (coordinates s2)).
  assert (Hsq : (0 <= (Q2R a - Q2R a') ^ 2 + (Q2R b - Q2R b') ^ 2)%R)
    by (apply Rplus_le_le_0_compat; apply pow2_ge_0).
  assert (H180 : sqrt (180 * 180) = 180%R) by (apply sqrt_square; lra).
  assert (HQ : Q2R ((a - a') * (a - a') + (b - b') * (b - b'))
               = ((Q2R a - Q2R a') ^ 2 + (Q2R b - Q2R b') ^ 2)%R).
  { rewrite Q2R_plus, !Q2R_mult, !Q2R_minus. ring. }
  assert (HD : Q2R (180 * 180) = (180 * 180)%R).
  { rewrite Q2R_mult. unfold Q2R. simpl. lra. }
  intros H. apply Qlt_Rlt in H. rewrite HQ, HD in H.
  rewrite <- H180. apply sqrt_lt_1_alt. split; [exact Hsq | exact H].
Qed.

(** The distance between two bodies whose differences are the sides of a
    right triangle with a rational hypotenuse. *)
Lemma distance_exact s1 s2 (d : Q) :
  (0 <= d)%Q →
  ((x (coordinates s1) - x (coordinates s2))
   * (x (coordinates s1) - x (coordinates s2))
   + (y (coordinates s1) - y (coordinates s2))
     * (y (coordinates s1) - y (coordinates s2)) == d * d)%Q →
  distance s1 s2 = Q2R d.
Proof.
  unfold distance.
  set (a := x (coordinates s1)). set (a' := x (coordinates s2)).
  set (b := y (coordinates s1)). set (b' := y (coordinates s2)).
  intros Hd H. apply Qeq_eqR in H.
  rewrite Q2R_plus, !Q2R_mult, !Q2R_minus in H.
  replace ((Q2R a - Q2R a') ^ 2 + (Q2R b - Q2R b') ^ 2)%R
    with (Q2R d * Q2R d)%R by (rewrite <- H; ring).
  apply sqrt_square. replace 0%R with (Q2R 0) by (unfold Q2R; simpl; lra).
  by apply Qle_Rle.
Qed.

(** Bounds of a distance, from bounds of its square. *)
Lemma distance_between s1 s2 (lo hi : Q) :
  (0 <= lo)%Q → (0 <= hi)%Q →
  (lo * lo
   <= (x (coordinates s1) - x (coordinates s2))
      * (x (coordinates s1) - x (coordinates s2))
      + (y (coordinates s1) - y (coordinates s2))
        * (y (coordinates s1) - y (coordinates s2)) <= hi * hi)%Q →
  (Q2R lo <= distance s1 s2 <= Q2R hi)%R.
Proof.
  unfold distance.
  set (a := x (coordinates s1)). set (a' := x (coordinates s2)).
  set (b := y (coordinates s1)). set (b' := y (coordinates s2)).
  intros Hlo Hhi [H1 H2].
  assert (HQ : Q2R ((a - a') * (a - a') + (b - b') * (b - b'))
               = ((Q2R a - Q2R a') ^ 2 + (Q2R b - Q2R b') ^ 2)%R).
  { rewrite Q2R_plus, !Q2R_mult, !Q2R_minus. ring. }
  assert (H0 : Q2R 0 = 0%R) by (unfold Q2R; simpl; lra).
  apply Qle_Rle in Hlo, Hhi, H1, H2. rewrite H0 in Hlo, Hhi.
  rewrite HQ in H1, H2. rewrite Q2R_mult in H1, H2. split.
  - rewrite <- (sqrt_square (Q2R lo)) by done. by apply sqrt_le_1_alt.
  - rewrite <- (sqrt_square (Q2R hi)) by done. by apply sqrt_le_1_alt.
Qed.

(** ** The adjacency map *)

Lemma adj_push_dom k v adj : dom (adj_push k v adj) = dom adj.
Proof.
  unfold adj_push. destruct (adj !! k) as [l|] eqn:E; [|done].
  rewrite dom_insert_L. apply elem_of_dom_2 in E. set_solver.
Qed.

Lemma neighbors_adj_push k v adj a b :
  b ∈ neighbors (adj_push k v adj) a ↔
  b ∈ neighbors adj a ∨ (a = k ∧ b = v ∧ k ∈ dom adj).
Proof.
  unfold neighbors, adj_push. destruct (adj !! k) as [l|] eqn:E.
  - destruct (decide (a = k)) as [->|Hne].
    + rewrite lookup_insert_eq, E. simpl. rewrite elem_of_app, list_elem_of_singleton.
      apply elem_of_dom_2 in E. naive_solver.
    + rewrite lookup_insert_ne by done. naive_solver.
  - apply not_elem_of_dom in E. naive_solver.
Qed.

Lemma adj_init_acc ss : ∀ adj,
  dom (foldl (λ adj s, <[body_id s := []]> adj) adj ss)
    = dom adj ∪ list_to_set (body_id <$> ss) ∧
  ((∀ a, neighbors adj a = []) →
   ∀ a, neighbors (foldl (λ adj s, <[body_id s := []]> adj) adj ss) a = []).
Proof.
  induction ss as [|s ss IH]; intros adj; simpl.
  - split; [set_solver | done].
  - destruct (IH (<[body_id s := []]> adj)) as [Hd Hn]. split.
    + rewrite Hd, dom_insert_L. set_solver.
    + intros Hadj. apply Hn. intros a. unfold neighbors.
      destruct (decide (a = body_id s)) as [->|Hne].
      * by rewrite lookup_insert_eq.
      * rewrite lookup_insert_ne by done. apply Hadj.
Qed.

Lemma adj_init_dom ss : dom (adj_init ss) = list_to_set (body_id <$> ss).
Proof.
  unfold adj_init. rewrite (proj1 (adj_init_acc ss ∅)), dom_empty_L. set_solver.
Qed.

Lemma adj_init_neighbors ss a : neighbors (adj_init ss) a = [].
Proof.
  unfold adj_init. apply (proj2 (adj_init_acc ss ∅)).
  intros a'. unfold neighbors. by rewrite lookup_empty.
Qed.

Lemma adj_row_spec s1 rest : ∀ adj,
  body_id s1 ∈ dom adj →
  (∀ s2, s2 ∈ rest → body_id s2 ∈ dom adj) →
  dom (adj_row s1 rest adj) = dom adj ∧
  ∀ a b, b ∈ neighbors (adj_row s1 rest adj) a ↔
         b ∈ neighbors adj a ∨ row_edge s1 rest a b.
Proof.
  unfold adj_row, row_edge.
  induction rest as [|s2 rest IH]; intros adj H1 Hrest; simpl.
  - split; [done|]. intros a b. split; [by left|].
    intros [?|(s2 & Hin & _)]; [done|]. by apply elem_of_nil in Hin.
  - assert (H2 : body_id s2 ∈ dom adj) by (apply Hrest; left).
    destruct (near s1 s2) eqn:Hn.
    + set (adj' := adj_push (body_id s2) (body_id s1)
                     (adj_push (body_id s1) (body_id s2) adj)).
      assert (Hd : dom adj' = dom adj)
        by (unfold adj'; by rewrite !adj_push_dom).
      destruct (IH adj') as [Hd' Hn'].
      { by rewrite Hd. }
      { intros s Hs. rewrite Hd. apply Hrest. by right. }
      split; [by rewrite Hd', Hd|].
      intros a b. rewrite Hn'. unfold adj'.
      rewrite !neighbors_adj_push, adj_push_dom. split.
      * intros [[[?|(-> & -> & _)]|(-> & -> & _)]|(s & Hs & Hns & Hab)].
        -- by left.
        -- right. exists s2. split; [left|]. by split; [|left].
        -- right. exists s2. split; [left|]. by split; [|right].
        -- right. exists s. split; [by right|done].
      * intros [?|(s & Hs & Hns & Hab)]; [by left; left; left|].
        apply elem_of_cons in Hs as [->|Hs].
        -- destruct Hab as [[-> ->]|[-> ->]]; [left; left; right|left; right]; done.
        -- right. by exists s.
    + destruct (IH adj H1) as [Hd' Hn'].
      { intros s Hs. apply Hrest. by right. }
      split; [done|]. intros a b. rewrite Hn'. split.
      * intros [?|(s & Hs & Hns & Hab)]; [by left|].
        right. exists s. split; [by right|done].
      * intros [?|(s & Hs & Hns & Hab)]; [by left|].
        apply elem_of_cons in Hs as [->|Hs]; [congruence|].
        right. by exists s.
Qed.

Lemma edge_cons s1 rest a b :
  edge (s1 :: rest) a b ↔ row_edge s1 rest a b ∨ edge rest a b.
Proof.
  unfold edge, row_edge. split.
  - intros (i & j & t1 & t2 & Hlt & Hi & Hj & Hn & Hab).
    destruct j as [|j]; [lia|]. simpl in Hj.
    destruct i as [|i]; simpl in Hi.
    + injection Hi as ->. left. exists t2.
      split; [by eapply list_elem_of_lookup_2|done].
    + right. exists i, j, t1, t2. split; [lia|done].
  - intros [(s2 & Hin & Hn & Hab)|(i & j & t1 & t2 & Hlt & Hi & Hj & Hn & Hab)].
    + apply list_elem_of_lookup_1 in Hin as [j Hj].
      exists 0, (S j), s1, s2. split; [lia|done].
    + exists (S i), (S j), t1, t2. split; [lia|done].
Qed.

Lemma adj_pairs_spec ss : ∀ adj,
  (∀ s, s ∈ ss → body_id s ∈ dom adj) →
  dom (adj_pairs ss adj) = dom adj ∧
  ∀ a b, b ∈ neighbors (adj_pairs ss adj) a ↔
         b ∈ neighbors adj a ∨ edge ss a b.
Proof.
  induction ss as [|s1 rest IH]; intros adj Hdom; simpl.
  - split; [done|]. intros a b. split; [by left|].
    intros [?|(i & j & t1 & t2 & _ & Hi & _)]; [done|].
    by rewrite lookup_nil in Hi.
  - destruct (adj_row_spec s1 rest adj) as [Hd Hn].
    { apply Hdom. left. }
    { intros s Hs. apply Hdom. by right. }
    destruct (IH (adj_row s1 rest adj)) as [Hd' Hn'].
    { intros s Hs. rewrite Hd. apply Hdom. by right. }
    split; [by rewrite Hd', Hd|].
    intros a b. rewrite Hn', Hn, edge_cons. tauto.
Qed.

Lemma buildAdjacency_dom ss :
  dom (buildAdjacency ss) = list_to_set (body_id <$> ss).
Proof.
  unfold buildAdjacency.
  destruct (adj_pairs_spec ss (adj_init ss)) as [Hd _].
  { intros s Hs. rewrite adj_init_dom, elem_of_list_to_set.
    by apply list_elem_of_fmap_2. }
  by rewrite Hd, adj_init_dom.
Qed.

Lemma buildAdjacency_edge ss a b :
  b ∈ neighbors (buildAdjacency ss) a ↔ edge ss a b.
Proof.
  unfold buildAdjacency.
  destruct (adj_pairs_spec ss (adj_init ss)) as [_ Hn].
  { intros s Hs. rewrite adj_init_dom, elem_of_list_to_set.
    by apply list_elem_of_fmap_2. }
  rewrite Hn, adj_init_neighbors. split; [|by right].
  intros [H|H]; [by apply elem_of_nil in H|done].
Qed.

Lemma edge_sym ss a b : edge ss a b → edge ss b a.
Proof.
  intros (i & j & s1 & s2 & Hlt & Hi & Hj & Hn & Hab).
  exists i, j, s1, s2. repeat split; try done. tauto.
Qed.

Lemma edge_ids ss a b : edge ss a b → b ∈ body_id <$> ss.
Proof.
  intros (i & j & s1 & s2 & Hlt & Hi & Hj & Hn & [[-> ->]|[-> ->]]);
    apply list_elem_of_fmap_2; by eapply list_elem_of_lookup_2.
Qed.

(** When [Math.hypot] takes no account of the signs, the order of the two
    bodies in the list does not matter. *)
Lemma edge_unordered ss a b :
  sign_blind →
  edge ss a b ↔
  ∃ i j s1 s2, i ≠ j ∧ ss !! i = Some s1 ∧ ss !! j = Some s2 ∧
               body_id s1 = a ∧ body_id s2 = b ∧ near s1 s2 = true.
Proof.
  intros Hblind. unfold edge. split.
  - intros (i & j & s1 & s2 & Hlt & Hi & Hj & Hn & [[-> ->]|[-> ->]]).
    + exists i, j, s1, s2. repeat split; try done. lia.
    + exists j, i, s2, s1. rewrite near_sym by done.
      repeat split; try done. lia.
  - intros (i & j & s1 & s2 & Hne & Hi & Hj & <- & <- & Hn).
    destruct (decide (i < j)).
    + exists i, j, s1, s2. repeat split; try done. by left.
    + exists j, i, s2, s1. rewrite near_sym by done.
      repeat split; try done; [lia|by right].
Qed.

Lemma connected_sym ss a b : connected ss a b → connected ss b a.
Proof.
  unfold connected. induction 1 as [|a b c Hab _ IH]; [done|].
  eapply rtc_r; [exact IH|]. by apply edge_sym.
Qed.

(** ** The component search *)

Lemma visit_neighbors_spec ns : ∀ visited stack,
  ∃ new, (visit_neighbors ns visited stack).2 = new ++ stack ∧
         NoDup new ∧
         (∀ n, n ∈ new → n ∈ ns ∧ n ∉ visited) ∧
         (∀ n, n ∈ (visit_neighbors ns visited stack).1 ↔
               n ∈ visited ∨ n ∈ new).
Proof.
  unfold visit_neighbors.
  induction ns as [|n ns IH]; intros visited stack; simpl.
  - exists []. split; [done|]. split; [constructor|].
    split; [intros ? H; by apply elem_of_nil in H|].
    intros m. rewrite elem_of_nil. tauto.
  - destruct (decide (n ∈ visited)) as [Hin|Hnin].
    + destruct (IH visited stack) as (new & Hst & Hnd & Hnew & Hvis).
      exists new. split; [done|]. split; [done|]. split; [|done].
      intros m Hm. destruct (Hnew m Hm). split; [by right|done].
    + destruct (IH ({[n]} ∪ visited) (n :: stack))
        as (new & Hst & Hnd & Hnew & Hvis).
      exists (new ++ [n]). split; [by rewrite Hst, <- app_assoc|].
      split.
      { apply NoDup_app. split; [done|]. split; [|apply NoDup_singleton].
        intros m Hm ->%list_elem_of_singleton.
        destruct (Hnew _ Hm) as [_ Hm']. set_solver. }
      split.
      { intros m [Hm| ->%list_elem_of_singleton]%elem_of_app.
        - destruct (Hnew m Hm) as [? Hm']. split; [by right|set_solver].
        - split; [left|done]. }
      intros m. rewrite Hvis, elem_of_app, list_elem_of_singleton. set_solver.
Qed.

Section Search.

Variable adj : gmap string (list string).
Variable universe : list string.
Variable R : relation string.
Hypothesis adj_sound : ∀ a b, b ∈ neighbors adj a → R a b ∧ b ∈ universe.

Lemma dfs_while_spec s0 V0 : ∀ fuel stack cluster visited,
  NoDup (stack ++ cluster) →
  (∀ v, v ∈ stack ++ cluster → found universe R s0 V0 visited v) →
  V0 ⊆ visited →
  length universe ≤ fuel + length cluster →
  ∃ cl vis, dfs_while fuel adj stack cluster visited = Some (cl, vis) ∧
            NoDup cl ∧ (∀ v, v ∈ cl → found universe R s0 V0 vis v) ∧ visited ⊆ vis.
Proof.
  induction fuel as [|fuel IH]; intros stack cluster visited Hnd Hf HV Hfuel.
  - destruct stack as [|cur st].
    + simpl in *. exists cluster, visited. split; [done|]. by split; [|split].
    + exfalso.
      assert (Hsub : (cur :: st) ++ cluster ⊆+ universe).
      { apply NoDup_submseteq; [done|]. intros v Hv. by apply Hf. }
      apply submseteq_length in Hsub. rewrite length_app in Hsub.
      simpl in *. lia.
  - destruct stack as [|cur st].
    + simpl in *. exists cluster, visited. split; [done|]. by split; [|split].
    + simpl.
      destruct (visit_neighbors_spec (default [] (adj !! cur)) visited st)
        as (new & Hst & Hndnew & Hnew & Hvis).
      set (vs := visit_neighbors (default [] (adj !! cur)) visited st) in *.
      rewrite Hst.
      assert (Hcur : found universe R s0 V0 visited cur) by (apply Hf; left).
      destruct (IH (new ++ st) (cluster ++ [cur]) vs.1)
        as (cl & vis & Heq & Hcl & Hfound & Hsub).
      * rewrite <- app_assoc. apply NoDup_app. split; [done|]. split.
        -- intros v Hv Hv'. destruct (Hnew v Hv) as [_ Hnv]. apply Hnv.
           assert (v ∈ (cur :: st) ++ cluster).
           { set_solver. }
           by apply Hf.
        -- simpl in Hnd. apply NoDup_cons in Hnd as [Hc Hnd].
           rewrite app_assoc. apply NoDup_app. split; [done|].
           split; [|apply NoDup_singleton].
           intros v Hv ->%list_elem_of_singleton. done.
      * intros v Hv.
        assert (Hcase : v ∈ new ∨ v ∈ (cur :: st) ++ cluster) by set_solver.
        destruct Hcase as [Hv'|Hv'].
        -- destruct (Hnew v Hv') as [Hin Hnv].
           destruct (adj_sound cur v Hin) as [HR HU].
           split; [apply Hvis; by right|]. split; [set_solver|].
           split; [done|]. destruct Hcur as (_ & _ & _ & Hrtc).
           eapply rtc_r; [exact Hrtc|exact HR].
        -- destruct (Hf v Hv') as (? & ? & ? & ?).
           split; [apply Hvis; by left|done].
      * intros v Hv. apply Hvis. left. by apply HV.
      * rewrite length_app. simpl. lia.
      * exists cl, vis. split; [done|]. split; [done|]. split; [done|].
        intros v Hv. apply Hsub, Hvis. by left.
Qed.

Lemma components_spec fuel : ∀ todo visited clusters,
  length universe ≤ fuel →
  (∀ s, s ∈ todo → body_id s ∈ universe) →
  (∀ K, K ∈ clusters → cluster_ok universe R visited K) →
  clusters_disjoint clusters →
  ∃ cs vis, components fuel adj todo visited clusters = Some cs ∧
            (∀ K, K ∈ cs → cluster_ok universe R vis K) ∧ clusters_disjoint cs.
Proof.
  induction todo as [|star rest IH]; intros visited clusters Hfuel HU Hok Hdisj.
  - simpl. by exists clusters, visited.
  - cbn [components]. destruct (decide (body_id star ∈ visited)) as [Hin|Hnin].
    + apply IH; try done. intros s Hs. apply HU. by right.
    + destruct (dfs_while_spec (body_id star) visited fuel [body_id star] []
                  ({[body_id star]} ∪ visited))
        as (cl & vis & Heq & Hnd & Hfound & Hsub).
      * simpl. apply NoDup_singleton.
      * intros v Hv. simpl in Hv. apply list_elem_of_singleton in Hv as ->.
        split; [set_solver|]. split; [done|]. split; [|done].
        apply HU. left.
      * set_solver.
      * simpl. lia.
      * rewrite Heq.
        assert (Hvis : visited ⊆ vis) by set_solver.
        assert (Hok' : ∀ K, K ∈ clusters → cluster_ok universe R vis K).
        { intros K HK. destruct (Hok K HK) as (? & ? & Hv & ?).
          split; [done|]. split; [done|]. split; [|done].
          intros v Hv'. destruct (Hv v Hv'). split; [set_solver|done]. }
        apply IH; try done.
        { intros s Hs. apply HU. by right. }
        { destruct (3 <=? length cl) eqn:Hlen; [|done].
          intros K [HK| ->%list_elem_of_singleton]%elem_of_app; [by apply Hok'|].
          apply Nat.leb_le in Hlen. split; [done|]. split; [done|]. split.
          - intros v Hv. by destruct (Hfound v Hv) as (? & ? & ? & ?).
          - intros a b Ha Hb. exists (body_id star).
            destruct (Hfound a Ha) as (_ & _ & _ & ?).
            destruct (Hfound b Hb) as (_ & _ & _ & ?). done. }
        { destruct (3 <=? length cl) eqn:Hlen; [|done].
          assert (Hnew : ∀ K, K ∈ clusters → K ## cl).
          { intros K HK v HvK Hvcl.
            destruct (Hok K HK) as (_ & _ & Hv & _). destruct (Hv v HvK).
            destruct (Hfound v Hvcl) as (_ & ? & _). done. }
          intros i j K1 K2 Hne Hi Hj.
          apply lookup_snoc_Some in Hi as [[Hil Hi]|[Hil <-]];
            apply lookup_snoc_Some in Hj as [[Hjl Hj]|[Hjl <-]].
          - by eapply Hdisj.
          - apply Hnew. by eapply list_elem_of_lookup_2.
          - intros v Hv1 Hv2. eapply (Hnew K2); [by eapply list_elem_of_lookup_2|done..].
          - lia. }
Qed.

End Search.

Lemma findClusters_spec ss :
  ∃ clusters, findClusters ss = Some clusters ∧
              (∀ K, K ∈ clusters → good_cluster ss K) ∧
              clusters_disjoint clusters.
Proof.
  unfold findClusters.
  destruct (components_spec (buildAdjacency ss) (body_id <$> ss) (edge ss))
    with (fuel := length ss) (todo := ss) (visited := (∅ : gset string))
         (clusters := @nil (list string))
    as (cs & vis & Heq & Hok & Hdisj).
  - intros a b Hab. apply buildAdjacency_edge in Hab.
    split; [done|]. by eapply edge_ids.
  - by rewrite length_fmap.
  - intros s Hs. by apply list_elem_of_fmap_2.
  - intros K HK. by apply elem_of_nil in HK.
  - intros i j K1 K2 _ Hi. by rewrite lookup_nil in Hi.
  - exists cs. split; [done|]. split; [|done].
    intros K HK. destruct (Hok K HK) as (Hlen & Hnd & Hv & Hconn).
    split; [done|]. split; [done|]. split.
    + intros v Hv'. by destruct (Hv v Hv').
    + intros a b Ha Hb. destruct (Hconn a b Ha Hb) as (s0 & Hsa & Hsb).
      unfold connected. etrans; [|exact Hsb].
      by apply connected_sym.
Qed.

(** ** Sets in insertion order *)

Lemma Set_add_elem s i v : v ∈ Set_add s i ↔ v ∈ s ∨ v = i.
Proof.
  unfold Set_add. destruct (decide (i ∈ s)).
  - naive_solver.
  - rewrite elem_of_app, list_elem_of_singleton. tauto.
Qed.

Lemma Set_add_NoDup s i : NoDup s → NoDup (Set_add s i).
Proof.
  intros Hs. unfold Set_add. destruct (decide (i ∈ s)); [done|].
  apply NoDup_app. split; [done|]. split; [|apply NoDup_singleton].
  by intros v Hv ->%list_elem_of_singleton.
Qed.

Lemma foldl_Set_add_elem l : ∀ s v, v ∈ foldl Set_add s l ↔ v ∈ s ∨ v ∈ l.
Proof.
  induction l as [|i l IH]; intros s v; simpl.
  - rewrite elem_of_nil. tauto.
  - rewrite IH, Set_add_elem, elem_of_cons. tauto.
Qed.

Lemma foldl_Set_add_NoDup l : ∀ s, NoDup s → NoDup (foldl Set_add s l).
Proof.
  induction l as [|i l IH]; intros s Hs; simpl; [done|].
  by apply IH, Set_add_NoDup.
Qed.

Lemma Set_from_elem l v : v ∈ Set_from l ↔ v ∈ l.
Proof.
  unfold Set_from. rewrite foldl_Set_add_elem, elem_of_nil. tauto.
Qed.

Lemma Set_from_NoDup l : NoDup (Set_from l).
Proof. apply foldl_Set_add_NoDup. constructor. Qed.

(** ** Merging *)

Lemma consume_spec others : ∀ m u,
  consume others (m, u)
  = (foldl Set_add m (others ≫= starIds),
     filter (λ c, c_id c ∉ c_id <$> others) u).
Proof.
  unfold consume.
  induction others as [|o others IH]; intros m u; simpl.
  - f_equal. induction u as [|c u IHu]; [done|].
    rewrite filter_cons_True by apply not_elem_of_nil. by f_equal.
  - rewrite IH, foldl_app. f_equal.
    rewrite list_filter_filter. apply list_filter_iff.
    intros c. rewrite not_elem_of_cons. tauto.
Qed.

Lemma merge_into_spec primaryC others cluster updated :
  merge_into primaryC others cluster updated
  = (λ c, if decide (c_id c = c_id primaryC)
          then with_starIds c (mergedIds primaryC others cluster) else c)
    <$> filter (λ c, c_id c ∉ c_id <$> others) updated.
Proof. unfold merge_into. by rewrite consume_spec. Qed.

Lemma mergedIds_elem primaryC others cluster v :
  v ∈ mergedIds primaryC others cluster ↔
  v ∈ starIds primaryC ∨ v ∈ cluster ∨ ∃ o, o ∈ others ∧ v ∈ starIds o.
Proof.
  unfold mergedIds.
  rewrite foldl_Set_add_elem, Set_from_elem, elem_of_app, list_elem_of_bind.
  naive_solver.
Qed.

Lemma mergedIds_NoDup primaryC others cluster :
  NoDup (mergedIds primaryC others cluster).
Proof. apply foldl_Set_add_NoDup, Set_from_NoDup. Qed.

Lemma mergedIds_length primaryC others cluster :
  NoDup cluster → length cluster ≤ length (mergedIds primaryC others cluster).
Proof.
  intros Hnd. apply submseteq_length, NoDup_submseteq; [done|].
  intros v Hv. apply mergedIds_elem. auto.
Qed.

Lemma overlapping_iff cluster c :
  overlapping cluster c ↔ ∃ v, v ∈ starIds c ∧ v ∈ cluster.
Proof. unfold overlapping. apply Exists_exists. Qed.

(** ** Well-formed constellation lists *)

Lemma list_filter_iff_in {A} (P1 P2 : A → Prop)
    `{!∀ x, Decision (P1 x), !∀ x, Decision (P2 x)} (l : list A) :
  (∀ x, x ∈ l → P1 x ↔ P2 x) → filter P1 l = filter P2 l.
Proof.
  induction l as [|a l IH]; intros Hiff; [done|].
  rewrite !filter_cons, IH by (intros; apply Hiff; by right).
  apply decide_ext, Hiff. left.
Qed.

Lemma filter_unique {A} (P : A → Prop) `{!∀ x, Decision (P x)} (l : list A) c :
  NoDup l → c ∈ l → P c → (∀ d, d ∈ l → P d → d = c) → filter P l = [c].
Proof.
  induction l as [|a l IH]; intros Hnd Hc HP Hall.
  - by apply elem_of_nil in Hc.
  - apply NoDup_cons in Hnd as [Ha Hnd].
    apply elem_of_cons in Hc as [->|Hc].
    + rewrite filter_cons_True by done. f_equal.
      assert (Hnone : ∀ d, d ∈ l → ¬ P d).
      { intros d Hd HPd. apply Ha. rewrite <- (Hall d); [done|by right|done]. }
      clear -Hnone. induction l as [|b l IH]; [done|].
      rewrite filter_cons_False by (apply Hnone; left).
      apply IH. intros d Hd. apply Hnone. by right.
    + rewrite filter_cons_False.
      * apply IH; try done. intros d Hd. apply Hall. by right.
      * intros HPa. apply Ha. rewrite (Hall a); [done|left|done].
Qed.

Lemma ids_unique_eq cs c d :
  ids_unique cs → c ∈ cs → d ∈ cs → c_id c = c_id d → c = d.
Proof.
  unfold ids_unique. intros Hnd [i Hi]%list_elem_of_lookup [j Hj]%list_elem_of_lookup Heq.
  assert (i = j) as ->.
  { eapply NoDup_lookup; [exact Hnd| |].
    - rewrite list_lookup_fmap, Hi. done.
    - rewrite list_lookup_fmap, Hj. simpl. by rewrite Heq. }
  congruence.
Qed.

Lemma ids_unique_NoDup cs : ids_unique cs → NoDup cs.
Proof. apply NoDup_fmap_1. Qed.

(** *** The shape of the list after a merge *)

Section Merge.

Variable cs : list Constellation.
Variable K : list string.
Variable primaryC : Constellation.
Variable others : list Constellation.
Hypothesis Huniq : ids_unique cs.
Hypothesis Hover : filter (overlapping K) cs = primaryC :: others.

Lemma overlaps_elem c :
  c ∈ primaryC :: others ↔ overlapping K c ∧ c ∈ cs.
Proof. rewrite <- Hover. apply list_elem_of_filter. Qed.

Lemma primary_elem : primaryC ∈ cs ∧ overlapping K primaryC.
Proof. destruct (proj1 (overlaps_elem primaryC)); [left|done]. Qed.

Lemma others_elem o : o ∈ others → o ∈ cs ∧ overlapping K o.
Proof. intros Ho. destruct (proj1 (overlaps_elem o)); [by right|done]. Qed.

Lemma overlaps_ids_NoDup : NoDup (c_id <$> primaryC :: others).
Proof.
  assert (Hsub : c_id <$> primaryC :: others `sublist_of` c_id <$> cs).
  { apply fmap_sublist. rewrite <- Hover. apply sublist_filter. }
  exact (sublist_NoDup _ _ Huniq Hsub).
Qed.

Lemma primary_not_other : c_id primaryC ∉ c_id <$> others.
Proof.
  pose proof overlaps_ids_NoDup as H. rewrite fmap_cons in H.
  by apply NoDup_cons in H as [? _].
Qed.

Lemma id_primary c : c ∈ cs → c_id c = c_id primaryC ↔ c = primaryC.
Proof.
  intros Hc. split; [|by intros ->].
  apply ids_unique_eq with cs; [done..|apply primary_elem].
Qed.

Lemma id_others c : c ∈ cs → c_id c ∈ c_id <$> others ↔ c ∈ others.
Proof.
  intros Hc. split; [|apply list_elem_of_fmap_2].
  intros (o & Heq & Ho)%list_elem_of_fmap.
  rewrite (ids_unique_eq cs c o); [done..| |done]. by apply others_elem.
Qed.

(** Dropping the consumed constellations and replacing the primary one, by
    identity as the code does or by value: the same list. *)
Lemma merge_into_by_value :
  merge_into primaryC others K cs
  = (λ c, if decide (c = primaryC)
          then with_starIds primaryC (mergedIds primaryC others K) else c)
    <$> filter (λ c, c ∉ others) cs.
Proof.
  rewrite merge_into_spec.
  rewrite (list_filter_iff_in (λ c, c_id c ∉ c_id <$> others) (λ c, c ∉ others)).
  2:{ intros c Hc. by rewrite id_others. }
  apply list_fmap_ext. intros i c Hi.
  assert (Hc : c ∈ cs).
  { apply list_elem_of_lookup_2 in Hi. by apply list_elem_of_filter in Hi as [_ ?]. }
  destruct (decide (c_id c = c_id primaryC)) as [Heq|Hne].
  - apply id_primary in Heq as ->; [|done]. by rewrite decide_True.
  - rewrite decide_False; [done|]. by intros ->.
Qed.

Lemma merge_into_elem c' :
  c' ∈ merge_into primaryC others K cs ↔
  c' = with_starIds primaryC (mergedIds primaryC others K) ∨
  (c' ∈ cs ∧ ¬ overlapping K c').
Proof.
  rewrite merge_into_by_value, list_elem_of_fmap. split.
  - intros (c & -> & [Hno Hc]%list_elem_of_filter).
    destruct (decide (c = primaryC)) as [->|Hne]; [by left|].
    right. split; [done|]. intros Hov.
    assert (Hin : c ∈ primaryC :: others) by by apply overlaps_elem.
    apply elem_of_cons in Hin as [?|?]; done.
  - intros [->|[Hc Hno]].
    + exists primaryC. rewrite decide_True by done. split; [done|].
      apply list_elem_of_filter. split; [|apply primary_elem].
      intros Hin. apply primary_not_other. by apply list_elem_of_fmap_2.
    + exists c'. rewrite decide_False.
      * split; [done|]. apply list_elem_of_filter. split; [|done].
        intros Hin. apply Hno. by apply others_elem.
      * intros ->. apply Hno, primary_elem.
Qed.

Lemma merge_into_ids_sub :
  c_id <$> merge_into primaryC others K cs `sublist_of` c_id <$> cs.
Proof.
  rewrite merge_into_spec, <- list_fmap_compose.
  erewrite (list_fmap_ext _ c_id).
  - apply fmap_sublist, sublist_filter.
  - intros i c _. simpl. by destruct (decide _).
Qed.

Lemma merge_into_unique : ids_unique (merge_into primaryC others K cs).
Proof.
  exact (sublist_NoDup _ _ Huniq merge_into_ids_sub).
Qed.

Lemma merge_into_fresh env t :
  ids_fresh env t cs → ids_fresh env t (merge_into primaryC others K cs).
Proof.
  intros Hf t' Ht Hin. apply (Hf t' Ht).
  eapply sublist_subseteq; [apply merge_into_ids_sub|exact Hin].
Qed.

Lemma merge_into_disjoint :
  members_disjoint cs → members_disjoint (merge_into primaryC others K cs).
Proof.
  intros Hd.
  assert (Hmerged : ∀ d, d ∈ cs → ¬ overlapping K d →
                         mergedIds primaryC others K ## starIds d).
  { intros d Hd' Hno v Hv Hvd.
    assert (Hdp : c_id d ≠ c_id primaryC).
    { intros Heq. apply id_primary in Heq; [|done]. subst. apply Hno, primary_elem. }
    apply mergedIds_elem in Hv as [Hv|[Hv|(o & Ho & Hv)]].
    - apply (Hd primaryC d) with v; try done. apply primary_elem.
    - apply Hno, overlapping_iff. by exists v.
    - destruct (others_elem o Ho) as [Hoc Hov].
      apply (Hd o d) with v; try done.
      intros Heq. apply Hno.
      by rewrite <- (ids_unique_eq cs o d Huniq Hoc Hd' Heq). }
  intros c d [->|[Hc Hnc]]%merge_into_elem [->|[Hd' Hnd]]%merge_into_elem Hne.
  - done.
  - simpl. by apply Hmerged.
  - simpl. intros v Hv1 Hv2. by apply (Hmerged c Hc Hnc v).
  - by apply Hd.
Qed.

Lemma merge_into_enough :
  3 ≤ length K → NoDup K →
  members_enough cs → members_enough (merge_into primaryC others K cs).
Proof.
  intros HK HndK He c [->|[Hc _]]%merge_into_elem; [|by apply He].
  simpl. split; [|apply mergedIds_NoDup].
  etrans; [exact HK|]. by apply mergedIds_length.
Qed.

(** After the merge the cluster is settled in the primary constellation. *)
Lemma merge_into_settles :
  settled (merge_into primaryC others K cs) K.
Proof.
  exists (with_starIds primaryC (mergedIds primaryC others K)).
  split; [apply merge_into_elem; by left|]. split.
  - intros v Hv. simpl. apply mergedIds_elem. auto.
  - by intros d [->|[_ Hno]]%merge_into_elem Hov.
Qed.

(** A cluster settled before, and disjoint from [K], stays settled. *)
Lemma merge_into_keeps_settled K1 :
  K1 ## K → settled cs K1 → settled (merge_into primaryC others K cs) K1.
Proof.
  intros Hdisj (c1 & Hc1 & Hsub & Honly).
  destruct (decide (overlapping K c1)) as [Hov|Hno].
  - exists (with_starIds primaryC (mergedIds primaryC others K)).
    split; [apply merge_into_elem; by left|]. split.
    + intros v Hv. simpl. apply mergedIds_elem.
      assert (Hin : c1 ∈ primaryC :: others) by by apply overlaps_elem.
      apply elem_of_cons in Hin as [->|Hin]; [left; by apply Hsub|].
      right; right. exists c1. split; [done|by apply Hsub].
    + intros d [->|[Hd Hnd]]%merge_into_elem Hovd; [done|].
      by rewrite (Honly d Hd Hovd) in Hnd.
  - exists c1. split; [apply merge_into_elem; by right|]. split; [done|].
    intros d [->|[Hd Hnd]]%merge_into_elem Hovd; [|by apply Honly].
    exfalso. apply overlapping_iff in Hovd as (v & Hv & HvK1). simpl in Hv.
    apply mergedIds_elem in Hv as [Hv|[Hv|(o & Ho & Hv)]].
    + apply Hno. rewrite <- (Honly primaryC); [apply primary_elem..|].
      apply overlapping_iff. by exists v.
    + by apply (Hdisj v).
    + destruct (others_elem o Ho) as [Hoc Hov].
      apply Hno. rewrite <- (Honly o); [done..|].
      apply overlapping_iff. by exists v.
Qed.

End Merge.

(** ** One reconciliation step *)

Section Step.

Variable env : Env.

Lemma generateConstellationName_clock n w :
  clock w < clock (generateConstellationName env n w).2 ∧
  resources (generateConstellationName env n w).2 = resources w ∧
  stars (generateConstellationName env n w).2 = stars w ∧
  constellations (generateConstellationName env n w).2 = constellations w ∧
  logs (generateConstellationName env n w).2 = logs w.
Proof.
  unfold generateConstellationName, generateContent, Math_random, bind, tick, ret.
  simpl. destruct (generateContent_at env (clock w) n) as [|name]; simpl.
  - repeat split; lia.
  - destruct (decide (name = "")); simpl; repeat split; lia.
Qed.

Lemma create_constellation_spec K loc w :
  ∃ t, clock w < t ∧ t + 4 = clock (create_constellation env K loc w).2 ∧
       (create_constellation env K loc w).1
       = {| updatedConstellations :=
              updatedConstellations loc ++ [created env (name_in env (length K) w) K t];
            hasChanges := true |} ∧
       resources (create_constellation env K loc w).2
       = add_reward K (resources w) ∧
       stars (create_constellation env K loc w).2 = stars w ∧
       constellations (create_constellation env K loc w).2 = constellations w ∧
       logs (create_constellation env K loc w).2
       = take 50 (charted_entry env (name_in env (length K) w) K (t + 2) :: logs w).
Proof.
  destruct (generateConstellationName_clock (length K) w)
    as (Hc & Hr & Hs & Hcs & Hl).
  unfold create_constellation, name_in, bind.
  set (r := generateConstellationName env (length K) w) in *.
  exists (clock r.2). split; [done|].
  unfold uuidv4, Date_now, addLog, bind, tick, ret, setResources, setLogs,
    created, charted_entry; simpl.
  rewrite Hr, Hs, Hcs, Hl, !Nat.add_succ_r, !Nat.add_0_r. done.
Qed.

(** The three ways an iteration of the loop over the clusters can go. *)
Lemma reconcile_cases K loc w :
  (filter (overlapping K) (updatedConstellations loc) = [] ∧
   reconcile env K loc w = create_constellation env K loc w) ∨
  (∃ p, filter (overlapping K) (updatedConstellations loc) = [p] ∧
        (∀ v, v ∈ K → v ∈ starIds p) ∧
        reconcile env K loc w = (loc, w)) ∨
  (∃ p others,
      filter (overlapping K) (updatedConstellations loc) = p :: others ∧
      (others ≠ [] ∨ ∃ v, v ∈ K ∧ v ∉ starIds p) ∧
      reconcile env K loc w
      = ({| updatedConstellations :=
              merge_into p others K (updatedConstellations loc);
            hasChanges := true |}, w)).
Proof.
  unfold reconcile.
  destruct (filter (overlapping K) (updatedConstellations loc))
    as [|p others] eqn:Hf; [by left|].
  right. unfold update_existing, ret.
  destruct (bool_decide (Exists (λ i, i ∉ starIds p) K)) eqn:Hnew.
  - right. exists p, others. split; [done|]. split; [|done].
    right. apply bool_decide_eq_true, Exists_exists in Hnew. done.
  - apply bool_decide_eq_false in Hnew. rewrite Exists_exists in Hnew.
    destruct others as [|o others]; simpl.
    + left. exists p. split; [done|]. split; [|done].
      intros v Hv. destruct (decide (v ∈ starIds p)); [done|].
      exfalso. apply Hnew. by exists v.
    + right. exists p, (o :: others). split; [done|]. split; [by left|done].
Qed.

End Step.

(** ** Invariants of the loop over the clusters *)

Section Loop.

Variable env : Env.
Hypothesis uuid_inj : Inj (=) (=) (uuid_at env).

Lemma ids_fresh_mono t t' cs : t ≤ t' → ids_fresh env t cs → ids_fresh env t' cs.
Proof. intros Hle Hf u Hu. apply Hf. lia. Qed.

Lemma created_fresh name K t cs :
  ids_fresh env t cs → c_id (created env name K t) ∉ c_id <$> cs.
Proof. intros Hf. simpl. by apply Hf. Qed.

Lemma append_created_ids_ok name K t t0 cs :
  t0 ≤ t → ids_ok env t0 cs → ids_ok env (t + 4) (cs ++ [created env name K t]).
Proof.
  intros Hle [Hu Hf]. split.
  - unfold ids_unique. rewrite fmap_app. apply NoDup_app.
    split; [done|]. split; [|apply NoDup_singleton].
    intros i Hi ->%list_elem_of_singleton. by apply (Hf t).
  - intros t' Ht'. rewrite fmap_app, not_elem_of_app. split.
    + apply Hf. lia.
    + simpl. rewrite list_elem_of_singleton. intros Heq%uuid_inj. lia.
Qed.

Lemma reconcile_ids_ok K loc w :
  ids_ok env (clock w) (updatedConstellations loc) →
  clock w ≤ clock (reconcile env K loc w).2 ∧
  ids_ok env (clock (reconcile env K loc w).2)
         (updatedConstellations (reconcile env K loc w).1).
Proof.
  intros Hok.
  destruct (reconcile_cases env K loc w)
    as [[Hf ->]|[(p & Hf & Hsub & ->)|(p & others & Hf & _ & ->)]].
  - destruct (create_constellation_spec env K loc w)
      as (t & Ht & Hclock & -> & _).
    rewrite <- Hclock. split; [lia|]. simpl.
    apply append_created_ids_ok with (clock w); [lia|done].
  - done.
  - destruct Hok as [Hu Hfr]. split; [done|]. split.
    + by apply merge_into_unique.
    + by apply merge_into_fresh.
Qed.

Lemma append_created_members_ok name K t cs :
  filter (overlapping K) cs = [] → ids_fresh env t cs →
  3 ≤ length K → NoDup K →
  members_ok cs → members_ok (cs ++ [created env name K t]).
Proof.
  intros Hnone Hfr HK Hnd [Hd He].
  assert (Hno : ∀ c, c ∈ cs → starIds c ## K).
  { intros c Hc v Hv HvK.
    eapply (filter_nil_not_elem_of (overlapping K)); [exact Hnone| |exact Hc].
    apply overlapping_iff. by exists v. }
  split.
  - intros c d [Hc| ->%list_elem_of_singleton]%elem_of_app
             [Hd'| ->%list_elem_of_singleton]%elem_of_app Hne.
    + by apply Hd.
    + simpl. by apply Hno.
    + simpl. intros v Hv1 Hv2. by apply (Hno d Hd' v).
    + done.
  - intros c [Hc| ->%list_elem_of_singleton]%elem_of_app; [by apply He|done].
Qed.

Lemma reconcile_members_ok K loc w :
  3 ≤ length K → NoDup K →
  ids_ok env (clock w) (updatedConstellations loc) →
  members_ok (updatedConstellations loc) →
  members_ok (updatedConstellations (reconcile env K loc w).1).
Proof.
  intros HK Hnd [Hu Hfr] Hm.
  destruct (reconcile_cases env K loc w)
    as [[Hf ->]|[(p & Hf & Hsub & ->)|(p & others & Hf & _ & ->)]].
  - destruct (create_constellation_spec env K loc w)
      as (t & Ht & Hclock & -> & _). simpl.
    apply append_created_members_ok; try done.
    apply ids_fresh_mono with (clock w); [lia|done].
  - done.
  - destruct Hm as [Hd He]. split.
    + by apply merge_into_disjoint.
    + by apply merge_into_enough.
Qed.

Lemma reconcile_settles K loc w :
  K ≠ [] →
  ids_ok env (clock w) (updatedConstellations loc) →
  settled (updatedConstellations (reconcile env K loc w).1) K.
Proof.
  intros HK [Hu Hfr].
  destruct (reconcile_cases env K loc w)
    as [[Hf ->]|[(p & Hf & Hsub & ->)|(p & others & Hf & _ & ->)]].
  - destruct (create_constellation_spec env K loc w)
      as (t & Ht & Hclock & -> & _). simpl.
    eexists. split; [apply elem_of_app; right; left|]. split; [done|].
    intros d [Hd| ->%list_elem_of_singleton]%elem_of_app Hov; [|done].
    exfalso. by eapply (filter_nil_not_elem_of (overlapping K)).
  - exists p. split.
    { assert (Hin : p ∈ filter (overlapping K) (updatedConstellations loc))
        by (rewrite Hf; left).
      by apply list_elem_of_filter in Hin as [_ ?]. }
    split; [done|]. intros d Hd Hov.
    assert (Hin : d ∈ filter (overlapping K) (updatedConstellations loc))
      by by apply list_elem_of_filter.
    rewrite Hf in Hin. by apply list_elem_of_singleton in Hin.
  - by apply merge_into_settles.
Qed.

Lemma reconcile_keeps_settled K1 K loc w :
  K1 ## K →
  ids_ok env (clock w) (updatedConstellations loc) →
  settled (updatedConstellations loc) K1 →
  settled (updatedConstellations (reconcile env K loc w).1) K1.
Proof.
  intros Hdisj [Hu Hfr] Hs.
  destruct (reconcile_cases env K loc w)
    as [[Hf ->]|[(p & Hf & Hsub & ->)|(p & others & Hf & _ & ->)]].
  - destruct (create_constellation_spec env K loc w)
      as (t & Ht & Hclock & -> & _). simpl.
    destruct Hs as (c1 & Hc1 & Hsub & Honly).
    exists c1. split; [apply elem_of_app; by left|]. split; [done|].
    intros d [Hd| ->%list_elem_of_singleton]%elem_of_app Hov; [by apply Honly|].
    exfalso. apply overlapping_iff in Hov as (v & Hv & HvK1).
    by apply (Hdisj v).
  - done.
  - by apply merge_into_keeps_settled.
Qed.

(** What one run of the loop establishes. *)
Lemma foldM_reconcile_spec clusters : ∀ loc w finished,
  ids_ok env (clock w) (updatedConstellations loc) →
  (∀ K, K ∈ clusters → K ≠ []) →
  clusters_disjoint clusters →
  (∀ K1 K, K1 ∈ finished → K ∈ clusters → K1 ## K) →
  (∀ K1, K1 ∈ finished → settled (updatedConstellations loc) K1) →
  clock w ≤ clock (foldM (reconcile env) clusters loc w).2 ∧
  ids_ok env (clock (foldM (reconcile env) clusters loc w).2)
         (updatedConstellations (foldM (reconcile env) clusters loc w).1) ∧
  ∀ K, K ∈ finished ++ clusters →
       settled (updatedConstellations (foldM (reconcile env) clusters loc w).1) K.
Proof.
  induction clusters as [|K clusters IH]; intros loc w finished Hok Hne Hdisj Hfin Hset.
  - simpl. split; [done|]. split; [done|]. intros K. rewrite app_nil_r. apply Hset.
  - cbn [foldM]. unfold bind at 1 2 3 4.
    destruct (reconcile_ids_ok K loc w Hok) as [Hclock Hok'].
    set (r := reconcile env K loc w) in *.
    destruct (IH r.1 r.2 (finished ++ [K])) as (Hc & Hids & Hsettled); try done.
    + intros K' HK'. apply Hne. by right.
    + intros i j K1 K2 Hij Hi Hj. by apply (Hdisj (S i) (S j) K1 K2); [lia|..].
    + intros K1 K' [HK1| ->%list_elem_of_singleton]%elem_of_app HK'.
      * apply Hfin; [done|by right].
      * apply list_elem_of_lookup in HK' as [j Hj].
        by apply (Hdisj 0 (S j) K K').
    + intros K1 [HK1| ->%list_elem_of_singleton]%elem_of_app.
      * apply reconcile_keeps_settled; [|done|by apply Hset].
        apply Hfin; [done|left].
      * apply reconcile_settles; [|done]. apply Hne. left.
    + split; [lia|]. split; [done|].
      intros K' HK'. apply Hsettled. rewrite <- app_assoc. done.
Qed.

Lemma foldM_reconcile_members clusters : ∀ loc w,
  (∀ K, K ∈ clusters → 3 ≤ length K ∧ NoDup K) →
  ids_ok env (clock w) (updatedConstellations loc) →
  members_ok (updatedConstellations loc) →
  members_ok (updatedConstellations (foldM (reconcile env) clusters loc w).1).
Proof.
  induction clusters as [|K clusters IH]; intros loc w Hgood Hok Hm; [done|].
  cbn [foldM]. unfold bind.
  destruct (Hgood K) as [HK Hnd]; [left|].
  apply IH.
  - intros K' HK'. apply Hgood. by right.
  - by apply reconcile_ids_ok.
  - by apply reconcile_members_ok.
Qed.

End Loop.

(** ** Effects of the loop on the world *)

Lemma Qle_add_nat (q : Q) (n : nat) : (q <= q + inject_Z (Z.of_nat n))%Q.
Proof.
  rewrite <- (Qplus_0_r q) at 1. apply Qplus_le_r.
  change 0%Q with (inject_Z 0). rewrite <- Zle_Qle. lia.
Qed.

Section Frame.

Variable env : Env.

Lemma reconcile_hasChanges K loc w :
  reconcile env K loc w = (loc, w) ∨
  hasChanges (reconcile env K loc w).1 = true.
Proof.
  destruct (reconcile_cases env K loc w)
    as [[Hf ->]|[(p & Hf & Hsub & ->)|(p & others & Hf & _ & ->)]].
  - right. by destruct (create_constellation_spec env K loc w)
      as (t & Ht & Hclock & -> & _).
  - by left.
  - by right.
Qed.

Lemma reconcile_hasChanges_mono K loc w :
  hasChanges loc = true → hasChanges (reconcile env K loc w).1 = true.
Proof.
  intros H. destruct (reconcile_hasChanges K loc w) as [->|?]; done.
Qed.

Lemma foldM_hasChanges_mono clusters : ∀ loc w,
  hasChanges loc = true →
  hasChanges (foldM (reconcile env) clusters loc w).1 = true.
Proof.
  induction clusters as [|K clusters IH]; intros loc w H; [done|].
  cbn [foldM]. unfold bind. by apply IH, reconcile_hasChanges_mono.
Qed.

(** A run that reports no change has left the list and the world alone. *)
Lemma foldM_unchanged clusters : ∀ loc w,
  hasChanges (foldM (reconcile env) clusters loc w).1 = false →
  foldM (reconcile env) clusters loc w = (loc, w).
Proof.
  induction clusters as [|K clusters IH]; intros loc w H; [done|].
  cbn [foldM] in *. unfold bind in *.
  destruct (reconcile_hasChanges K loc w) as [Heq|Htrue].
  - rewrite Heq in *. simpl in *. by apply IH.
  - rewrite foldM_hasChanges_mono in H; done.
Qed.

(** Settled clusters make the loop a no-op. *)
Lemma reconcile_settled K loc w :
  K ≠ [] → ids_unique (updatedConstellations loc) →
  settled (updatedConstellations loc) K →
  reconcile env K loc w = (loc, w).
Proof.
  intros HK Hu (c & Hc & Hsub & Honly).
  assert (Hov : overlapping K c).
  { destruct K as [|v K]; [done|]. apply overlapping_iff. exists v.
    split; [apply Hsub|]; left. }
  pose proof (filter_unique (overlapping K) _ c (ids_unique_NoDup _ Hu) Hc Hov Honly)
    as Hf.
  unfold reconcile. rewrite Hf. unfold update_existing, ret. simpl.
  rewrite bool_decide_eq_false_2; [done|].
  rewrite Exists_exists. intros (v & Hv & Hnv). by apply Hnv, Hsub.
Qed.

Lemma foldM_settled clusters : ∀ loc w,
  (∀ K, K ∈ clusters → K ≠ []) → ids_unique (updatedConstellations loc) →
  (∀ K, K ∈ clusters → settled (updatedConstellations loc) K) →
  foldM (reconcile env) clusters loc w = (loc, w).
Proof.
  induction clusters as [|K clusters IH]; intros loc w Hne Hu Hs; [done|].
  cbn [foldM]. unfold bind.
  rewrite reconcile_settled; [|apply Hne; left|done|apply Hs; left]. simpl.
  apply IH; [|done|]; intros K' HK'; [apply Hne|apply Hs]; by right.
Qed.

(** The loop touches neither the bodies, nor the committed list, nor the
    focus. *)
Lemma reconcile_frame K loc w :
  stars (reconcile env K loc w).2 = stars w ∧
  constellations (reconcile env K loc w).2 = constellations w ∧
  focus (resources (reconcile env K loc w).2) = focus (resources w).
Proof.
  destruct (reconcile_cases env K loc w)
    as [[Hf ->]|[(p & Hf & Hsub & ->)|(p & others & Hf & _ & ->)]]; [|done..].
  destruct (create_constellation_spec env K loc w)
    as (t & Ht & Hclock & _ & -> & -> & -> & _). done.
Qed.

Lemma foldM_frame clusters : ∀ loc w,
  stars (foldM (reconcile env) clusters loc w).2 = stars w ∧
  constellations (foldM (reconcile env) clusters loc w).2 = constellations w ∧
  focus (resources (foldM (reconcile env) clusters loc w).2) = focus (resources w).
Proof.
  induction clusters as [|K clusters IH]; intros loc w; [done|].
  cbn [foldM]. unfold bind.
  destruct (reconcile_frame K loc w) as (Hs & Hc & Hf).
  destruct (IH (reconcile env K loc w).1 (reconcile env K loc w).2)
    as (-> & -> & ->). done.
Qed.

Lemma reconcile_resources_mono K loc w :
  (starlight (resources w) <= starlight (resources (reconcile env K loc w).2))%Q ∧
  (data (resources w) <= data (resources (reconcile env K loc w).2))%Q.
Proof.
  destruct (reconcile_cases env K loc w)
    as [[Hf ->]|[(p & Hf & Hsub & ->)|(p & others & Hf & _ & ->)]];
    [|split; apply Qle_refl..].
  destruct (create_constellation_spec env K loc w)
    as (t & Ht & Hclock & _ & -> & _).
  split; apply Qle_add_nat.
Qed.

Lemma foldM_resources_mono clusters : ∀ loc w,
  (starlight (resources w)
   <= starlight (resources (foldM (reconcile env) clusters loc w).2))%Q ∧
  (data (resources w)
   <= data (resources (foldM (reconcile env) clusters loc w).2))%Q.
Proof.
  induction clusters as [|K clusters IH]; intros loc w.
  - split; apply Qle_refl.
  - cbn [foldM]. unfold bind.
    destruct (reconcile_resources_mono K loc w) as [Hs Hd].
    destruct (IH (reconcile env K loc w).1 (reconcile env K loc w).2)
      as [Hs' Hd'].
    split; eapply Qle_trans; eauto.
Qed.

(** A pass always returns; it leaves the bodies and the focus as they are
    and takes nothing from the starlight and the data. *)
Lemma checkForConstellations_frame ss cs w :
  ∃ w', checkForConstellations env ss cs w = Some w' ∧
        stars w' = stars w ∧
        focus (resources w') = focus (resources w) ∧
        (starlight (resources w) <= starlight (resources w'))%Q ∧
        (data (resources w) <= data (resources w'))%Q.
Proof.
  unfold checkForConstellations. destruct (length ss <? 3).
  - exists w. repeat split; apply Qle_refl.
  - destruct (findClusters_spec ss) as (clusters & -> & _).
    set (loc := {| updatedConstellations := cs; hasChanges := false |}).
    destruct (foldM_frame clusters loc w) as (Hs & _ & Hf).
    destruct (foldM_resources_mono clusters loc w) as [Hsl Hd].
    eexists. split; [done|]. by destruct (hasChanges _).
Qed.

End Frame.

(** ** A whole reconciliation pass *)

Section Pass.

Variable env : Env.

Lemma checkForConstellations_few ss cs w :
  length ss < 3 → checkForConstellations env ss cs w = Some w.
Proof.
  intros H. unfold checkForConstellations.
  by rewrite (proj2 (Nat.ltb_lt _ _) H).
Qed.

(** A pass over three bodies or more: the clusters are found and the loop
    over them decides the new state. *)
Lemma checkForConstellations_run ss w :
  3 ≤ length ss →
  ∃ clusters w',
    findClusters ss = Some clusters ∧
    (∀ K, K ∈ clusters → good_cluster ss K) ∧
    clusters_disjoint clusters ∧
    checkForConstellations env ss (constellations w) w = Some w' ∧
    constellations w'
    = updatedConstellations (foldM (reconcile env) clusters (loc_of w) w).1 ∧
    resources w' = resources (foldM (reconcile env) clusters (loc_of w) w).2 ∧
    logs w' = logs (foldM (reconcile env) clusters (loc_of w) w).2 ∧
    clock w' = clock (foldM (reconcile env) clusters (loc_of w) w).2 ∧
    stars w' = stars w.
Proof.
  intros Hlen.
  destruct (findClusters_spec ss) as (clusters & Hfind & Hgood & Hdisj).
  exists clusters. unfold checkForConstellations.
  rewrite (proj2 (Nat.ltb_ge _ _) Hlen), Hfind. fold (loc_of w).
  destruct (foldM_frame env clusters (loc_of w) w) as (Hs & Hc & _).
  set (r := foldM (reconcile env) clusters (loc_of w) w) in *.
  destruct (hasChanges r.1) eqn:Hch.
  - eexists. split; [done|]. split; [done|]. split; [done|].
    split; [done|]. simpl. by rewrite Hs.
  - exists r.2. split; [done|]. split; [done|]. split; [done|].
    split; [done|]. pose proof (foldM_unchanged env clusters (loc_of w) w Hch) as Hr.
    fold r in Hr. by rewrite Hr.
Qed.

Lemma good_cluster_nonempty ss K : good_cluster ss K → K ≠ [].
Proof. intros (Hlen & _) ->. simpl in Hlen. lia. Qed.

Hypothesis uuid_inj : Inj (=) (=) (uuid_at env).

Lemma checkForConstellations_ok ss w :
  world_ok env w →
  ∃ w', checkForConstellations env ss (constellations w) w = Some w' ∧
        world_ok env w'.
Proof.
  intros [Hids Hmem].
  destruct (decide (length ss < 3)) as [Hlt|Hge].
  - exists w. split; [by apply checkForConstellations_few|done].
  - destruct (checkForConstellations_run ss w)
      as (clusters & w' & Hfind & Hgood & Hdisj & Hrun & Hcs & _ & _ & Hclock & _);
      [lia|].
    exists w'. split; [done|]. unfold world_ok. rewrite Hcs, Hclock.
    destruct (foldM_reconcile_spec env uuid_inj clusters (loc_of w) w [])
      as (_ & Hids' & _); try done.
    { intros K HK. eapply good_cluster_nonempty. by apply Hgood. }
    { intros K1 K HK1. by apply elem_of_nil in HK1. }
    { intros K1 HK1. by apply elem_of_nil in HK1. }
    split; [done|].
    apply foldM_reconcile_members; try done.
    intros K HK. destruct (Hgood K HK) as (? & ? & _). done.
Qed.

Lemma run_calls_ok calls : ∀ w,
  world_ok env w →
  ∃ w', run_calls env calls w = Some w' ∧ world_ok env w'.
Proof.
  induction calls as [|ss calls IH]; intros w Hok.
  - by exists w.
  - simpl. destruct (checkForConstellations_ok ss w Hok) as (w1 & -> & Hok1).
    by apply IH.
Qed.

Lemma world_ok_empty w : constellations w = [] → world_ok env w.
Proof.
  intros Hnil. unfold world_ok, ids_ok, ids_unique, ids_fresh, members_ok,
    members_disjoint, members_enough. rewrite Hnil. simpl.
  split; [split; [constructor|]|split].
  - intros t' _. apply not_elem_of_nil.
  - intros c d Hc. by apply elem_of_nil in Hc.
  - intros c Hc. by apply elem_of_nil in Hc.
Qed.

Lemma ids_unique_lookup cs i j c d :
  ids_unique cs → i ≠ j → cs !! i = Some c → cs !! j = Some d →
  c_id c ≠ c_id d.
Proof.
  intros Hu Hne Hi Hj Heq. apply Hne.
  eapply NoDup_lookup; [exact Hu| |].
  - by rewrite list_lookup_fmap, Hi.
  - rewrite list_lookup_fmap, Hj. simpl. by rewrite Heq.
Qed.

End Pass.

(** ** The sample environment *)

Lemma env0_uuid_inj : Inj (=) (=) (uuid_at env0).
Proof.
  intros t t' H. simpl in H. injection H as H. by apply pretty_nat_inj in H.
Qed.

Lemma env0_fresh t cs :
  Forall (λ c, ∀ s, c_id c ≠ "id-" +:+ s) cs → ids_fresh env0 t cs.
Proof.
  intros Hall t' _ (c & Heq & Hc)%list_elem_of_fmap.
  rewrite Forall_forall in Hall. by apply (Hall c Hc (pretty t')).
Qed.

(** ** Components and distances *)

(** A list of ids closed under the adjacency lists holds the whole
    component of each of its ids. *)
Lemma component_closed ss l a :
  a ∈ l →
  Forall (λ u, Forall (λ v, v ∈ l) (neighbors (buildAdjacency ss) u)) l →
  ∀ b, connected ss a b → b ∈ l.
Proof.
  intros Ha Hclosed b Hab. induction Hab as [|a c b Hac _ IH]; [done|].
  apply IH. apply buildAdjacency_edge in Hac.
  rewrite Forall_forall in Hclosed.
  specialize (Hclosed a Ha). rewrite Forall_forall in Hclosed. by apply Hclosed.
Qed.

(** An edge joins two bodies nearer than 180 and the error of
    [Math.hypot]. *)
Lemma edge_adjacent ε ss a b :
  accurate ε ss → edge ss a b → adjacent (180 + ε) ss a b.
Proof.
  intros Hacc (i & j & s1 & s2 & Hlt & Hi & Hj & Hn & Hab).
  apply (near_accurate ε s1 s2 (Hacc i j s1 s2 Hlt Hi Hj)) in Hn.
  destruct Hab as [[-> ->]|[-> ->]].
  - exists i, j, s1, s2. repeat split; try done. lia.
  - exists j, i, s2, s1. rewrite distance_sym. repeat split; try done. lia.
Qed.

(** Two bodies nearer than 180 by more than the error of [Math.hypot] are
    joined by an edge. *)
Lemma adjacent_edge ε ss a b :
  accurate ε ss → adjacent (180 - ε) ss a b → edge ss a b.
Proof.
  intros Hacc (i & j & s1 & s2 & Hne & Hi & Hj & <- & <- & Hd).
  destruct (decide (i < j)) as [Hlt|Hge].
  - exists i, j, s1, s2. repeat split; try done; [|by left].
    by apply (near_accurate ε s1 s2 (Hacc i j s1 s2 Hlt Hi Hj)).
  - assert (Hlt : j < i) by lia. rewrite distance_sym in Hd.
    exists j, i, s2, s1. repeat split; try done; [|by right].
    by apply (near_accurate ε s2 s1 (Hacc j i s2 s1 Hlt Hj Hi)).
Qed.

Lemma body_at_unique ss i j s1 s2 :
  NoDup (body_id <$> ss) → ss !! i = Some s1 → ss !! j = Some s2 →
  body_id s1 = body_id s2 → i = j ∧ s1 = s2.
Proof.
  intros Hnd Hi Hj Heq.
  assert (i = j) as ->.
  { eapply NoDup_lookup; [exact Hnd| |].
    - by rewrite list_lookup_fmap, Hi.
    - rewrite list_lookup_fmap, Hj. simpl. by rewrite Heq. }
  split; [done|congruence].
Qed.

(** ** The fallback name *)

Lemma pick_in_pool arr r : arr ≠ [] → (0 <= r)%Q → (r < 1)%Q → pick arr r ∈ arr.
Proof.
  intros Hne H0 H1. unfold pick.
  set (n := inject_Z (Z.of_nat (length arr))).
  assert (Hn : (0 < n)%Q).
  { unfold n. change (inject_Z 0 < inject_Z (Z.of_nat (length arr)))%Q.
    rewrite <- Zlt_Qlt. destruct arr; [done|]. simpl. lia. }
  assert (Hlo : (0 <= Qfloor (r * n))%Z).
  { change 0%Z with (Qfloor 0). apply Qfloor_resp_le.
    apply Qmult_le_0_compat; [done|]. by apply Qlt_le_weak. }
  assert (Hhi : (Qfloor (r * n) < Z.of_nat (length arr))%Z).
  { rewrite Zlt_Qlt. fold n.
    eapply Qle_lt_trans; [apply Qfloor_le|].
    rewrite <- (Qmult_1_l n) at 2. by apply Qmult_lt_compat_r. }
  rewrite (proj2 (Z.ltb_ge _ _) Hlo).
  destruct (arr !! Z.to_nat (Qfloor (r * n))) as [s|] eqn:Hs.
  - simpl. by eapply list_elem_of_lookup_2.
  - apply lookup_ge_None in Hs. lia.
Qed.

Lemma fallback_name env n w :
  generateContent_at env (clock w) n = Throws →
  name_in env n w
  = pick prefixes (random_at env (S (clock w))) +:+ " "
      +:+ pick roots (random_at env (S (S (clock w)))).
Proof.
  intros Hthrow.
  unfold name_in, generateConstellationName, generateContent, Math_random,
    bind, tick, ret. simpl. by rewrite Hthrow.
Qed.

Lemma append_nonempty (s1 s2 : string) : s2 ≠ "" → s1 +:+ s2 ≠ "".
Proof. intros H. destruct s1; simpl; [done|discriminate]. Qed.

(** ** Rewards *)

Lemma filter_fmap_filter {A} (Q P : A → Prop)
    `{!∀ x, Decision (Q x), !∀ x, Decision (P x)} (f : A → A) (l : list A) :
  (∀ c, c ∈ l → Q c → P c ∧ f c = c) →
  (∀ c, c ∈ l → ¬ Q c → ¬ Q (f c)) →
  filter Q (f <$> filter P l) = filter Q l.
Proof.
  induction l as [|c l IH]; intros H1 H2; [done|].
  assert (IH' : filter Q (f <$> filter P l) = filter Q l).
  { apply IH; intros d Hd; [apply H1|apply H2]; by right. }
  destruct (decide (Q c)) as [HQ|HQ].
  - destruct (H1 c) as [HP Hfc]; [left|done|].
    rewrite (filter_cons_True P), fmap_cons, Hfc, !(filter_cons_True Q) by done.
    by rewrite IH'.
  - rewrite (filter_cons_False Q c l) by done.
    destruct (decide (P c)) as [HP|HP].
    + rewrite (filter_cons_True P), fmap_cons, (filter_cons_False Q) by
        (done || (apply H2; [left|done])).
      done.
    + by rewrite (filter_cons_False P) by done.
Qed.

Lemma inject_nat_plus (a b : nat) :
  (inject_Z (Z.of_nat (a + b)) == inject_Z (Z.of_nat a) + inject_Z (Z.of_nat b))%Q.
Proof. by rewrite Nat2Z.inj_add, inject_Z_plus. Qed.

Lemma total_starlight_app l k :
  total_starlight (l ++ k) = total_starlight l + total_starlight k.
Proof. apply sum_list_with_app. Qed.

Lemma total_data_app l k : total_data (l ++ k) = total_data l + total_data k.
Proof. apply sum_list_with_app. Qed.

Section Rewards.

Variable env : Env.
Hypothesis uuid_inj : Inj (=) (=) (uuid_at env).
Variable cs0 : list Constellation.

Lemma reconcile_adds K loc w :
  ids_unique (updatedConstellations loc) →
  ids_fresh env (clock w) cs0 →
  (∀ c, c ∈ created_since cs0 (updatedConstellations loc) →
        ¬ overlapping K c) →
  ∃ extra, adds cs0 K loc (reconcile env K loc w).1 w (reconcile env K loc w).2 extra ∧
           ∀ c, c ∈ extra → starIds c = K.
Proof.
  intros Hu Hfresh Hnew. unfold adds.
  destruct (reconcile_cases env K loc w)
    as [[Hf ->]|[(p & Hf & Hsub & ->)|(p & others & Hf & _ & ->)]].
  - destruct (create_constellation_spec env K loc w)
      as (t & Ht & Hclock & -> & -> & _).
    exists [created env (name_in env (length K) w) K t]. split.
    + split; [|split].
      * unfold created_since. cbn [updatedConstellations fst].
        rewrite filter_app. f_equal.
        rewrite filter_cons_True; [done|]. simpl. apply Hfresh. lia.
      * unfold total_starlight, add_reward. simpl. by rewrite Nat.add_0_r.
      * unfold total_data, add_reward. simpl. by rewrite Nat.add_0_r.
    + by intros c ->%list_elem_of_singleton.
  - exists []. split; [|by intros c Hc%elem_of_nil].
    split; [by rewrite app_nil_r|]. simpl. split; ring.
  - exists []. split; [|by intros c Hc%elem_of_nil].
    split; [|simpl; split; ring].
    rewrite app_nil_r. cbn [updatedConstellations fst]. unfold created_since.
    rewrite (merge_into_by_value _ K p others Hu Hf).
    apply filter_fmap_filter.
    + intros c Hc HQ.
      assert (Hno : ¬ overlapping K c).
      { apply Hnew. by apply list_elem_of_filter. }
      split.
      * intros Hin. by apply Hno, (others_elem _ K p others Hf).
      * rewrite decide_False; [done|]. intros ->.
        by apply Hno, (primary_elem _ K p others Hf).
    + intros c Hc HQ. by destruct (decide (c = p)) as [->|].
Qed.

Lemma foldM_reconcile_adds clusters : ∀ loc w,
  ids_ok env (clock w) (updatedConstellations loc) →
  ids_fresh env (clock w) cs0 →
  clusters_disjoint clusters →
  (∀ c K, c ∈ created_since cs0 (updatedConstellations loc) →
          K ∈ clusters → ¬ overlapping K c) →
  ∃ extra, adds cs0 [] loc (foldM (reconcile env) clusters loc w).1
                w (foldM (reconcile env) clusters loc w).2 extra.
Proof.
  induction clusters as [|K clusters IH]; intros loc w Hok Hfresh Hdisj Hnew.
  - exists []. split; [by rewrite app_nil_r|]. simpl. split; ring.
  - cbn [foldM]. unfold bind.
    destruct (reconcile_ids_ok env uuid_inj K loc w Hok) as [Hclock Hok'].
    assert (Hstep : ∃ extra, adds cs0 K loc (reconcile env K loc w).1 w
                               (reconcile env K loc w).2 extra ∧
                             ∀ c, c ∈ extra → starIds c = K).
    { apply reconcile_adds; [apply Hok|done|].
      intros c Hc. apply Hnew; [done|left]. }
    destruct Hstep as (extra1 & (Hc1 & Hs1 & Hd1) & Hstar).
    set (r := reconcile env K loc w) in *.
    destruct (IH r.1 r.2) as (extra2 & Hc2 & Hs2 & Hd2); [done| | | |].
    + by apply ids_fresh_mono with (clock w).
    + intros i j K1 K2 Hij Hi Hj. by apply (Hdisj (S i) (S j) K1 K2); [lia|..].
    + intros c K' Hc HK'. rewrite Hc1 in Hc.
      apply elem_of_app in Hc as [Hc|Hc]; [apply Hnew; [done|by right]|].
      intros (v & Hv & HvK')%overlapping_iff. rewrite (Hstar c Hc) in Hv.
      apply list_elem_of_lookup in HK' as [j Hj].
      by apply (Hdisj 0 (S j) K K') with v.
    + exists (extra1 ++ extra2). split; [by rewrite Hc2, Hc1, app_assoc|].
      rewrite total_starlight_app, total_data_app, !inject_nat_plus.
      rewrite Hs2, Hs1, Hd2, Hd1. split; ring.
Qed.

End Rewards.

Lemma created_since_self cs : created_since cs cs = [].
Proof.
  unfold created_since.
  assert (H : ∀ l, (∀ c, c ∈ l → c ∈ cs) →
                   filter (λ c, c_id c ∉ c_id <$> cs) l = []).
  { induction l as [|c l IH]; intros Hl; [done|].
    rewrite filter_cons_False.
    - apply IH. intros d Hd. apply Hl. by right.
    - intros Hc. apply Hc, list_elem_of_fmap_2, Hl. left. }
  by apply H.
Qed.

(** ** Passes in the event loop *)

(** *** Run without interruption, a pass is [checkForConstellations] *)

Section Uninterrupted.

Variable env : Env.

Lemma complete_Finished n w : complete env n Finished w = (Finished, w).
Proof. induction n as [|n IH]; [done|]. simpl. unfold bind. simpl. apply IH. Qed.

Lemma complete_S_Finished n p w :
  (complete env n p w).1 = Finished →
  complete env (S n) p w = complete env n p w.
Proof.
  revert p w. induction n as [|n IH]; intros p w H.
  - simpl in H. subst. by rewrite complete_Finished.
  - change (complete env (S (S n)) p w)
      with (complete env (S n) (resume env p w).1 (resume env p w).2).
    change (complete env (S n) p w)
      with (complete env n (resume env p w).1 (resume env p w).2) in *.
    by apply IH.
Qed.

Lemma advance_complete clusters : ∀ loc w,
  complete env (length clusters) (advance clusters loc w).1
                                 (advance clusters loc w).2
  = (Finished,
     (commit (foldM (reconcile env) clusters loc w).1
             (foldM (reconcile env) clusters loc w).2).2).
Proof.
  induction clusters as [|K clusters IH]; intros loc w.
  - simpl. unfold bind, ret. simpl. done.
  - cbn [advance foldM length].
    change ((do a' <- reconcile env K loc; foldM (reconcile env) clusters a') w)
      with (foldM (reconcile env) clusters (reconcile env K loc w).1
                                           (reconcile env K loc w).2).
    unfold reconcile.
    destruct (filter (overlapping K) (updatedConstellations loc))
      as [|p others] eqn:Hf.
    + change (complete env (S (length clusters))
                (ret (Awaiting K clusters loc) w).1
                (ret (Awaiting K clusters loc) w).2)
        with (complete env (length clusters)
                (advance clusters (create_constellation env K loc w).1
                                  (create_constellation env K loc w).2).1
                (advance clusters (create_constellation env K loc w).1
                                  (create_constellation env K loc w).2).2).
      apply IH.
    + unfold ret. cbn [fst snd].
      rewrite complete_S_Finished; [apply IH|]. by rewrite IH.
Qed.

(** Started and resumed until it returns, no other event intervening, a
    pass ends in the world that [checkForConstellations] returns. *)
Lemma start_complete ss cs w :
  match start ss cs w with
  | Some r =>
      ∃ n w', complete env n r.1 r.2 = (Finished, w') ∧
              checkForConstellations env ss cs w = Some w'
  | None => checkForConstellations env ss cs w = None
  end.
Proof.
  unfold start, checkForConstellations.
  destruct (length ss <? 3).
  - exists 0, w. done.
  - destruct (findClusters ss) as [clusters|]; [|done].
    eexists (length clusters), _. split; [apply advance_complete|].
    unfold commit. by destruct (hasChanges _).
Qed.

End Uninterrupted.

(** *** Invariants of the event loop *)

Section Interleaving.

Variable env : Env.
Hypothesis uuid_inj : Inj (=) (=) (uuid_at env).

Lemma pass_ok_mono t t' p : t ≤ t' → pass_ok env t p → pass_ok env t' p.
Proof.
  intros Hle. destruct p as [K rest loc|]; [|done].
  intros ([Hu Hf] & Hm & Hnone & Hgood).
  split; [split; [done|by apply ids_fresh_mono with t]|done].
Qed.

Lemma world_ok_same_list w w' :
  constellations w' = constellations w → clock w ≤ clock w' →
  world_ok env w → world_ok env w'.
Proof.
  intros Hcs Hclock [[Hu Hf] Hm]. unfold world_ok. rewrite Hcs.
  split; [split; [done|by apply ids_fresh_mono with (clock w)]|done].
Qed.

Lemma update_existing_ok K p others loc t :
  filter (overlapping K) (updatedConstellations loc) = p :: others →
  3 ≤ length K → NoDup K →
  ids_ok env t (updatedConstellations loc) →
  members_ok (updatedConstellations loc) →
  ids_ok env t (updatedConstellations (update_existing p others K loc)) ∧
  members_ok (updatedConstellations (update_existing p others K loc)).
Proof.
  intros Hf HK Hnd [Hu Hfr] [Hd He]. unfold update_existing.
  destruct (_ || _); [|done]. simpl. split; split.
  - by apply merge_into_unique.
  - by apply merge_into_fresh.
  - by apply merge_into_disjoint.
  - by apply merge_into_enough.
Qed.

(** A pass changes the world only by committing when it returns. *)
Lemma advance_world clusters : ∀ loc w,
  (advance clusters loc w).1 ≠ Finished → (advance clusters loc w).2 = w.
Proof.
  induction clusters as [|K clusters IH]; intros loc w H; [done|].
  cbn [advance] in *.
  destruct (filter (overlapping K) (updatedConstellations loc)); [done|].
  by apply IH.
Qed.

Lemma advance_ok clusters : ∀ loc w,
  (∀ K, K ∈ clusters → 3 ≤ length K ∧ NoDup K) →
  ids_ok env (clock w) (updatedConstellations loc) →
  members_ok (updatedConstellations loc) →
  world_ok env w →
  clock (advance clusters loc w).2 = clock w ∧
  world_ok env (advance clusters loc w).2 ∧
  pass_ok env (clock w) (advance clusters loc w).1.
Proof.
  induction clusters as [|K clusters IH]; intros loc w Hgood Hids Hm Hw.
  - simpl. unfold bind, commit, ret.
    destruct (hasChanges loc); simpl; done.
  - cbn [advance].
    destruct (filter (overlapping K) (updatedConstellations loc))
      as [|p others] eqn:Hf.
    + unfold ret. simpl. split; [done|]. split; [done|]. done.
    + destruct (Hgood K) as [HK Hnd]; [left|].
      destruct (update_existing_ok K p others loc (clock w)) as [Hids' Hm'];
        try done.
      apply IH; try done. intros K' HK'. apply Hgood. by right.
Qed.

Lemma resume_ok p w :
  pass_ok env (clock w) p → world_ok env w →
  clock w ≤ clock (resume env p w).2 ∧
  world_ok env (resume env p w).2 ∧
  pass_ok env (clock (resume env p w).2) (resume env p w).1.
Proof.
  destruct p as [K rest loc|]; [|done].
  intros (Hids & Hm & Hnone & Hgood) Hw.
  cbn [resume]. unfold bind.
  destruct (create_constellation_spec env K loc w)
    as (t & Ht & Hclock & Hloc & _ & _ & Hcs & _).
  set (r := create_constellation env K loc w) in *.
  destruct (Hgood K) as [HK Hnd]; [left|].
  assert (Hw' : world_ok env r.2).
  { apply world_ok_same_list with w; [done|lia|done]. }
  destruct (advance_ok rest r.1 r.2) as (Hc & Hwok & Hp); try done.
  - intros K' HK'. apply Hgood. by right.
  - rewrite Hloc, <- Hclock. simpl.
    apply append_created_ids_ok with (clock w); [done|lia|done].
  - rewrite Hloc. simpl. apply append_created_members_ok; try done.
    apply ids_fresh_mono with (clock w); [lia|apply Hids].
  - rewrite Hc. split; [lia|]. done.
Qed.

Lemma deliver_ok e c :
  config_ok env c → ∃ c', deliver env e c = Some c' ∧ config_ok env c'.
Proof.
  intros [Hw Hps]. destruct e as [ss|i]; cbn [deliver].
  - unfold start. destruct (length ss <? 3).
    + eexists. split; [done|]. split; [done|]. simpl.
      intros p [Hp| ->%list_elem_of_singleton]%elem_of_app; [by apply Hps|done].
    + destruct (findClusters_spec ss) as (clusters & -> & Hgood & _).
      destruct (advance_ok clusters (loc_of (world c)) (world c))
        as (Hc & Hwok & Hp); try done.
      { intros K HK. destruct (Hgood K HK) as (? & ? & _). done. }
      { apply Hw. }
      { apply Hw. }
      eexists. split; [done|]. split; [done|]. cbn [world passes].
      fold (loc_of (world c)). rewrite Hc.
      intros p [Hp'| ->%list_elem_of_singleton]%elem_of_app; [by apply Hps|done].
  - destruct (passes c !! i) as [p|] eqn:Hi; [|by exists c].
    destruct (resume_ok p (world c)) as (Hc & Hwok & Hp); [|done|].
    { apply Hps. by eapply list_elem_of_lookup_2. }
    eexists. split; [done|]. split; [done|]. cbn [world passes].
    intros q [j Hj]%list_elem_of_lookup.
    apply list_lookup_insert_Some in Hj as [(_ & <- & _)|[_ Hj]]; [done|].
    apply pass_ok_mono with (clock (world c)); [done|].
    apply Hps. by eapply list_elem_of_lookup_2.
Qed.

Lemma run_events_ok es : ∀ c,
  config_ok env c → ∃ c', run_events env es c = Some c' ∧ config_ok env c'.
Proof.
  induction es as [|e es IH]; intros c Hc.
  - by exists c.
  - simpl. destruct (deliver_ok e c Hc) as (c1 & -> & Hc1). by apply IH.
Qed.

(** Until it returns, a resumed pass leaves the committed list alone. *)
Lemma resume_constellations p w :
  (resume env p w).1 ≠ Finished →
  constellations (resume env p w).2 = constellations w.
Proof.
  destruct p as [K rest loc|]; [|done]. cbn [resume]. unfold bind.
  intros H. rewrite advance_world by done.
  by destruct (create_constellation_spec env K loc w)
    as (t & _ & _ & _ & _ & _ & -> & _).
Qed.

End Interleaving.

Lemma ok_disjoint_and_large cs :
  ids_unique cs → members_ok cs → disjoint_and_large cs.
Proof.
  intros Hu [Hd He]. split; [|done].
  intros i j c d Hne Hi Hj v Hv1 Hv2.
  apply (Hd c d) with v; [by eapply list_elem_of_lookup_2..| |done|done].
  by eapply ids_unique_lookup.
Qed.

(** ** The component search is complete *)

(** Once the loop over the neighbours has run, every neighbour is visited. *)
Lemma visit_neighbors_covers ns : ∀ visited stack n,
  n ∈ ns → n ∈ (visit_neighbors ns visited stack).1.
Proof.
  unfold visit_neighbors.
  induction ns as [|m ns IH]; intros visited stack n Hn.
  - by apply elem_of_nil in Hn.
  - simpl. destruct (decide (m ∈ visited)) as [Hin|Hnin].
    + apply elem_of_cons in Hn as [->|Hn]; [|by apply IH].
      destruct (visit_neighbors_spec ns visited stack) as (new & _ & _ & _ & Hvis).
      apply Hvis. by left.
    + apply elem_of_cons in Hn as [->|Hn]; [|by apply IH].
      destruct (visit_neighbors_spec ns ({[m]} ∪ visited) (m :: stack))
        as (new & _ & _ & _ & Hvis).
      apply Hvis. left. set_solver.
Qed.

Section Complete.

Variable adj : gmap string (list string).
Hypothesis adj_sym : ∀ a b, b ∈ neighbors adj a → a ∈ neighbors adj b.

(** The search from one start returns a cluster that is closed under the
    adjacency lists: the neighbours of its ids are ids of the cluster. *)
Lemma dfs_while_closed (V0 : gset string) : ∀ fuel stack cluster visited cl vis,
  dfs_while fuel adj stack cluster visited = Some (cl, vis) →
  (∀ v u, v ∈ cluster → u ∈ neighbors adj v → u ∈ visited) →
  (∀ v, v ∈ visited ↔ v ∈ V0 ∨ v ∈ stack ++ cluster) →
  (∀ v, v ∈ stack ++ cluster → v ∉ V0) →
  (∀ v u, v ∈ cl → u ∈ neighbors adj v → u ∈ vis) ∧
  (∀ v, v ∈ vis ↔ v ∈ V0 ∨ v ∈ cl) ∧
  (∀ v, v ∈ cl → v ∉ V0) ∧
  (∀ v, v ∈ stack ++ cluster → v ∈ cl).
Proof.
  induction fuel as [|fuel IH];
    intros stack cluster visited cl vis Heq Hnb Hvis Hout.
  - destruct stack as [|cur st]; [|done]. simpl in *.
    injection Heq as <- <-. done.
  - destruct stack as [|cur st].
    + simpl in *. injection Heq as <- <-. done.
    + simpl in Heq.
      destruct (visit_neighbors_spec (default [] (adj !! cur)) visited st)
        as (new & Hst & _ & Hnew & Hvs).
      pose proof (visit_neighbors_covers (default [] (adj !! cur)) visited st)
        as Hcov.
      set (vs := visit_neighbors (default [] (adj !! cur)) visited st) in *.
      rewrite Hst in Heq.
      destruct (IH _ _ _ _ _ Heq) as (Hcl & Hv & Hno & Hsub).
      * intros v u [Hv| ->%list_elem_of_singleton]%elem_of_app Hu.
        -- apply Hvs. left. by eapply Hnb.
        -- by apply Hcov.
      * intros v. rewrite Hvs, Hvis. set_solver.
      * intros v Hv HV0.
        assert (Hcase : v ∈ new ∨ v ∈ (cur :: st) ++ cluster) by set_solver.
        destruct Hcase as [Hv'|Hv']; [|by apply (Hout v)].
        destruct (Hnew v Hv') as [_ Hnv]. apply Hnv, Hvis. by left.
      * split; [done|]. split; [done|]. split; [done|].
        intros v Hv'. apply Hsub. set_solver.
Qed.

(** A closed list holds all that can be reached from it. *)
Lemma closed_reach (K : list string) a b :
  (∀ v u, v ∈ K → u ∈ neighbors adj v → u ∈ K) →
  a ∈ K → rtc (λ u v, v ∈ neighbors adj u) a b → b ∈ K.
Proof.
  intros Hclosed Ha Hab. induction Hab as [|a c b Hac _ IH]; [done|].
  apply IH. by eapply Hclosed.
Qed.

(** The outer loop keeps [search_closed] and visits every id it is given. *)
Lemma components_closed fuel : ∀ todo visited clusters cs,
  components fuel adj todo visited clusters = Some cs →
  search_closed adj visited clusters →
  ∃ vis, search_closed adj vis cs ∧ visited ⊆ vis ∧
         ∀ s, s ∈ todo → body_id s ∈ vis.
Proof.
  induction todo as [|star rest IH]; intros visited clusters cs Heq Hinv.
  - simpl in Heq. injection Heq as <-. exists visited.
    split; [done|]. split; [done|]. intros s Hs. by apply elem_of_nil in Hs.
  - cbn [components] in Heq.
    destruct (decide (body_id star ∈ visited)) as [Hin|Hnin].
    + destruct (IH _ _ _ Heq Hinv) as (vis & Hc & Hsub & Hall).
      exists vis. split; [done|]. split; [done|].
      intros s [->|Hs]%elem_of_cons; [by apply Hsub|by apply Hall].
    + destruct (dfs_while fuel adj [body_id star] [] ({[body_id star]} ∪ visited))
        as [[cl vis0]|] eqn:Hdfs; [|done].
      destruct (dfs_while_closed visited _ _ _ _ _ _ Hdfs)
        as (Hcl & Hv & Hno & Hstart).
      { intros v u Hv. by apply elem_of_nil in Hv. }
      { intros v. simpl. set_solver. }
      { intros v Hv. simpl in Hv. by apply list_elem_of_singleton in Hv as ->. }
      destruct Hinv as (Hclosed & Hwhere & Hclusters).
      assert (Hclcl : ∀ v u, v ∈ cl → u ∈ neighbors adj v → u ∈ cl).
      { intros v u Hvcl Hu.
        destruct (proj1 (Hv u) (Hcl v u Hvcl Hu)) as [HuV|?]; [|done].
        exfalso. apply (Hno v Hvcl). apply (Hclosed u v HuV). by apply adj_sym. }
      destruct (IH _ _ _ Heq) as (vis & Hc & Hsub & Hall).
      { split; [|split].
        - intros v u [HvV|Hvcl]%Hv Hu; apply Hv.
          + left. by eapply Hclosed.
          + right. by eapply Hclcl.
        - intros v [HvV|Hvcl]%Hv.
          + destruct (Hwhere v HvV) as [(K & HK & HvK)|Hsmall]; [|by right].
            left. exists K. split; [|done].
            destruct (3 <=? length cl); [apply elem_of_app; by left|done].
          + destruct (3 <=? length cl) eqn:Hlen.
            * left. exists cl. split; [|done]. apply elem_of_app. right. left.
            * right. exists cl. apply Nat.leb_gt in Hlen. split; [lia|].
              intros b Hb. by apply (closed_reach cl v b).
        - intros K v u HK HvK Hu.
          destruct (3 <=? length cl); [|by eapply Hclusters].
          apply elem_of_app in HK as [HK| ->%list_elem_of_singleton];
            [by eapply Hclusters|by eapply Hclcl]. }
      exists vis. split; [done|]. split; [set_solver|].
      intros s [->|Hs]%elem_of_cons; [|by apply Hall].
      apply Hsub, Hv. right. apply Hstart. simpl. left.
Qed.

End Complete.

Lemma buildAdjacency_sym ss a b :
  b ∈ neighbors (buildAdjacency ss) a → a ∈ neighbors (buildAdjacency ss) b.
Proof. rewrite !buildAdjacency_edge. apply edge_sym. Qed.

Lemma connected_neighbors ss a b :
  connected ss a b ↔ rtc (λ u v, v ∈ neighbors (buildAdjacency ss) u) a b.
Proof.
  unfold connected. split; apply rtc_subrel; intros u v; apply buildAdjacency_edge.
Qed.

Lemma small_in_component ss a :
  small_in (buildAdjacency ss) a ↔ component_at_most 2 ss a.
Proof.
  unfold small_in, component_at_most.
  split; intros (l & Hl & Hall); exists l; (split; [done|]); intros b Hb;
    apply Hall; by apply connected_neighbors.
Qed.

(** A cluster is not a small component. *)
Lemma good_cluster_large ss K a :
  good_cluster ss K → a ∈ K → ¬ component_at_most 2 ss a.
Proof.
  intros (Hlen & Hnd & _ & Hconn) Ha (l & Hl & Hall).
  assert (Hsub : K ⊆+ l).
  { apply NoDup_submseteq; [done|]. intros b Hb. by apply Hall, Hconn. }
  apply submseteq_length in Hsub. lia.
Qed.

(** What [findClusters] returns, all facts together. *)
Lemma findClusters_components ss :
  ∃ clusters,
    findClusters ss = Some clusters ∧
    (∀ K, K ∈ clusters → good_cluster ss K) ∧
    clusters_disjoint clusters ∧
    (∀ K a b, K ∈ clusters → a ∈ K → connected ss a b → b ∈ K) ∧
    (∀ a, a ∈ body_id <$> ss → ¬ component_at_most 2 ss a →
          ∃ K, K ∈ clusters ∧ a ∈ K).
Proof.
  destruct (findClusters_spec ss) as (clusters & Hfind & Hgood & Hdisj).
  exists clusters. split; [done|]. split; [done|]. split; [done|].
  unfold findClusters in Hfind.
  destruct (components_closed (buildAdjacency ss) (buildAdjacency_sym ss)
              (length ss) ss ∅ [] clusters Hfind)
    as (vis & (Hclosed & Hwhere & Hclusters) & _ & Hall).
  { split; [|split].
    - intros v u Hv. by apply elem_of_empty in Hv.
    - intros v Hv. by apply elem_of_empty in Hv.
    - intros K v u HK. by apply elem_of_nil in HK. }
  split.
  - intros K a b HK Ha Hab. apply connected_neighbors in Hab.
    apply (closed_reach (buildAdjacency ss) K a b); [|done..].
    intros v u. by apply Hclusters.
  - intros a (s & -> & Hs)%list_elem_of_fmap Hlarge.
    destruct (Hwhere (body_id s) (Hall s Hs)) as [?|Hsmall]; [done|].
    exfalso. by apply Hlarge, small_in_component.
Qed.

(** ** The clusters and the order of the bodies *)

Lemma edge_Permutation ss ss' a b :
  sign_blind → ss ≡ₚ ss' → edge ss a b → edge ss' a b.
Proof.
  intros Hblind (_ & f & Hinj & Hf)%Permutation_inj.
  rewrite !edge_unordered by done.
  intros (i & j & s1 & s2 & Hij & Hi & Hj & Ha & Hb & Hnear).
  exists (f i), (f j), s1, s2. rewrite <- !Hf.
  repeat split; try done. intros Heq. by apply Hij, Hinj.
Qed.

Lemma connected_Permutation ss ss' a b :
  sign_blind → ss ≡ₚ ss' → connected ss a b → connected ss' a b.
Proof.
  intros Hblind Hp. unfold connected. apply rtc_subrel. intros u v.
  by apply edge_Permutation.
Qed.

Lemma component_at_most_Permutation n ss ss' a :
  sign_blind → ss ≡ₚ ss' →
  component_at_most n ss' a → component_at_most n ss a.
Proof.
  intros Hblind Hp (l & Hl & Hall). exists l. split; [done|].
  intros b Hb. by apply Hall, (connected_Permutation ss ss').
Qed.

(** ** The clusters and the other fields of the bodies *)

Lemma near_same_place s1 s1' s2 s2' :
  same_place s1 s1' → same_place s2 s2' → near s1 s2 = near s1' s2'.
Proof. intros [_ H1] [_ H2]. unfold near. by rewrite H1, H2. Qed.

Lemma adj_init_same_place ss ss' :
  Forall2 same_place ss ss' → adj_init ss = adj_init ss'.
Proof.
  unfold adj_init. generalize (∅ : gmap string (list string)).
  intros adj H. revert adj.
  induction H as [|s s' ss ss' [Hid _] _ IH]; intros adj; [done|].
  cbn [foldl]. rewrite Hid. apply IH.
Qed.

Lemma adj_row_same_place s1 s1' rest rest' adj :
  same_place s1 s1' → Forall2 same_place rest rest' →
  adj_row s1 rest adj = adj_row s1' rest' adj.
Proof.
  intros H1 H. unfold adj_row. revert adj.
  induction H as [|s s' ss ss' Hs _ IH]; intros adj; [done|].
  cbn [foldl]. rewrite IH. f_equal.
  rewrite (near_same_place s1 s1' s s' H1 Hs).
  destruct H1 as [Hid1 _], Hs as [Hid _]. by rewrite Hid1, Hid.
Qed.

Lemma adj_pairs_same_place ss ss' adj :
  Forall2 same_place ss ss' → adj_pairs ss adj = adj_pairs ss' adj.
Proof.
  intros H. revert adj.
  induction H as [|s s' ss ss' Hs Hrest IH]; intros adj; [done|].
  cbn [adj_pairs]. rewrite (adj_row_same_place s s' ss ss' adj Hs Hrest).
  apply IH.
Qed.

Lemma components_same_place fuel adj todo todo' visited clusters :
  Forall2 same_place todo todo' →
  components fuel adj todo visited clusters
  = components fuel adj todo' visited clusters.
Proof.
  intros H. revert visited clusters.
  induction H as [|s s' ss ss' [Hid _] _ IH]; intros visited clusters; [done|].
  cbn [components]. rewrite Hid.
  destruct (decide (body_id s' ∈ visited)); [apply IH|].
  destruct (dfs_while _ _ _ _ _) as [[cl vis]|]; [apply IH|done].
Qed.

Lemma findClusters_same_place ss ss' :
  Forall2 same_place ss ss' → findClusters ss = findClusters ss'.
Proof.
  intros H. unfold findClusters, buildAdjacency.
  rewrite (Forall2_length _ _ _ H), (adj_init_same_place ss ss' H),
    (adj_pairs_same_place ss ss' _ H).
  by apply components_same_place.
Qed.

(** One half of the comparison of the clusters of two permuted lists. *)
Lemma findClusters_Permutation_sub l l' cl cl' :
  sign_blind → l ≡ₚ l' →
  findClusters l = Some cl → findClusters l' = Some cl' →
  ∀ K, K ∈ cl → ∃ K', K' ∈ cl' ∧ K ≡ₚ K'.
Proof.
  intros Hblind Hp Hcl Hcl' K HK.
  destruct (findClusters_components l) as (c1 & E1 & Hgood & _ & Hmax & _).
  destruct (findClusters_components l') as (c2 & E2 & Hgood' & _ & Hmax' & Hin').
  rewrite Hcl in E1. rewrite Hcl' in E2.
  injection E1 as <-. injection E2 as <-.
  pose proof (Hgood K HK) as HgK.
  destruct HgK as (Hlen & Hnd & Hids & Hconn).
  destruct K as [|a K0] eqn:EK; [simpl in Hlen; lia|]. rewrite <- EK in *.
  assert (Ha : a ∈ K) by (rewrite EK; apply list_elem_of_here).
  destruct (Hin' a) as (K' & HK' & HaK').
  { rewrite <- Hp. by apply Hids. }
  { intros Hsmall. apply (good_cluster_large l K a (Hgood K HK) Ha).
    by apply (component_at_most_Permutation 2 l l'). }
  exists K'. split; [done|].
  destruct (Hgood' K' HK') as (_ & Hnd' & _ & Hconn').
  apply NoDup_Permutation; [done..|]. intros b. split; intros Hb.
  - apply (Hmax' K' a b HK' HaK').
    apply (connected_Permutation l l'); [done..|]. by apply Hconn.
  - apply (Hmax K a b HK Ha).
    apply (connected_Permutation l' l); [done..|]. by apply Hconn'.
Qed.

(** ** What a pass does to the constellations it starts from *)

Lemma grown_from_refl c : grown_from c c.
Proof. by repeat split. Qed.

Lemma grown_from_trans c1 c2 c3 :
  grown_from c1 c2 → grown_from c2 c3 → grown_from c1 c3.
Proof.
  intros (? & ? & ? & H12) (? & ? & ? & H23).
  repeat split; try congruence. intros v Hv. by apply H23, H12.
Qed.

Lemma keeps_members_refl cs : keeps_members cs cs.
Proof. intros c v Hc Hv. by exists c. Qed.

Lemma keeps_members_trans cs1 cs2 cs3 :
  keeps_members cs1 cs2 → keeps_members cs2 cs3 → keeps_members cs1 cs3.
Proof.
  intros H12 H23 c v Hc Hv.
  destruct (H12 c v Hc Hv) as (c2 & Hc2 & Hv2). by apply (H23 c2).
Qed.

Lemma descends_refl env t cs : descends env t cs cs.
Proof. intros c Hc. left. exists c. split; [done|apply grown_from_refl]. Qed.

Lemma descends_trans env t1 t2 cs1 cs2 cs3 :
  t1 ≤ t2 → descends env t1 cs1 cs2 → descends env t2 cs2 cs3 →
  descends env t1 cs1 cs3.
Proof.
  intros Hle H12 H23 c3 Hc3.
  destruct (H23 c3 Hc3) as [(c2 & Hc2 & Hg23)|(t' & Ht' & Hid)].
  - destruct (H12 c2 Hc2) as [(c1 & Hc1 & Hg12)|(t' & Ht' & Hid)].
    + left. exists c1. split; [done|]. by apply grown_from_trans with c2.
    + right. exists t'. split; [done|]. destruct Hg23 as (<- & _). done.
  - right. exists t'. split; [lia|done].
Qed.

Section History.

Variable env : Env.

Lemma reconcile_history K loc w :
  ids_unique (updatedConstellations loc) →
  keeps_members (updatedConstellations loc)
                (updatedConstellations (reconcile env K loc w).1) ∧
  descends env (clock w) (updatedConstellations loc)
           (updatedConstellations (reconcile env K loc w).1).
Proof.
  intros Huniq.
  destruct (reconcile_cases env K loc w)
    as [[Hnone ->]|[(p & Hone & Hsub & ->)|(p & others & Hover & _ & ->)]].
  - destruct (create_constellation_spec env K loc w)
      as (t & Ht & _ & -> & _). simpl. split.
    + intros c v Hc Hv. exists c. split; [|done]. apply elem_of_app. by left.
    + intros c' [Hc'| ->%list_elem_of_singleton]%elem_of_app.
      * left. exists c'. split; [done|apply grown_from_refl].
      * right. exists t. split; [lia|done].
  - split; [apply keeps_members_refl|apply descends_refl].
  - simpl. split.
    + intros c v Hc Hv.
      destruct (overlapping_dec K c) as [Hov|Hno].
      * exists (with_starIds p (mergedIds p others K)). split.
        { apply (merge_into_elem _ K p others Huniq Hover). by left. }
        simpl. apply mergedIds_elem.
        assert (Hin : c ∈ p :: others)
          by by apply (overlaps_elem (updatedConstellations loc) K p others Hover).
        apply elem_of_cons in Hin as [->|Hin]; [by left|].
        right. right. by exists c.
      * exists c. split; [|done].
        apply (merge_into_elem _ K p others Huniq Hover). by right.
    + intros c' [->|[Hc' _]]%(merge_into_elem _ K p others Huniq Hover).
      * left. exists p. split.
        { apply (primary_elem (updatedConstellations loc) K p others Hover). }
        repeat split; try done. intros v Hv. simpl. apply mergedIds_elem. by left.
      * left. exists c'. split; [done|apply grown_from_refl].
Qed.

Hypothesis uuid_inj : Inj (=) (=) (uuid_at env).

Lemma foldM_reconcile_history clusters : ∀ loc w,
  ids_ok env (clock w) (updatedConstellations loc) →
  keeps_members (updatedConstellations loc)
                (updatedConstellations (foldM (reconcile env) clusters loc w).1) ∧
  descends env (clock w) (updatedConstellations loc)
           (updatedConstellations (foldM (reconcile env) clusters loc w).1).
Proof.
  induction clusters as [|K clusters IH]; intros loc w Hok.
  - simpl. split; [apply keeps_members_refl|apply descends_refl].
  - cbn [foldM]. unfold bind at 1 2.
    destruct (reconcile_ids_ok env uuid_inj K loc w Hok) as [Hclock Hok'].
    destruct (reconcile_history K loc w (proj1 Hok)) as [Hk Hd].
    set (r := reconcile env K loc w) in *.
    destruct (IH r.1 r.2 Hok') as [Hk' Hd']. split.
    + by apply keeps_members_trans with (updatedConstellations r.1).
    + by apply descends_trans with (clock r.2) (updatedConstellations r.1).
Qed.

(** One pass: the state stays well formed, the clock does not go back, no
    member is lost and the constellations descend from those before. *)
Lemma checkForConstellations_history ss w :
  world_ok env w →
  ∃ w', checkForConstellations env ss (constellations w) w = Some w' ∧
        world_ok env w' ∧ clock w ≤ clock w' ∧
        keeps_members (constellations w) (constellations w') ∧
        descends env (clock w) (constellations w) (constellations w').
Proof.
  intros Hok.
  destruct (checkForConstellations_ok env uuid_inj ss w Hok) as (w' & Hrun & Hok').
  exists w'. split; [done|]. split; [done|].
  destruct (decide (length ss < 3)) as [Hlt|Hge].
  - rewrite checkForConstellations_few in Hrun by done. injection Hrun as <-.
    split; [done|]. split; [apply keeps_members_refl|apply descends_refl].
  - destruct (checkForConstellations_run env ss w)
      as (clusters & w1 & _ & Hgood & Hdisj & Hrun1 & Hcs & _ & _ & Hclock & _);
      [lia|].
    rewrite Hrun in Hrun1. injection Hrun1 as <-. rewrite Hcs, Hclock.
    destruct Hok as [Hids _].
    destruct (foldM_reconcile_spec env uuid_inj clusters (loc_of w) w [])
      as (Hc & _ & _); try done.
    { intros K HK. eapply good_cluster_nonempty. by apply Hgood. }
    { intros K1 K HK1. by apply elem_of_nil in HK1. }
    { intros K1 HK1. by apply elem_of_nil in HK1. }
    split; [done|].
    by apply (foldM_reconcile_history clusters (loc_of w) w).
Qed.

Lemma run_calls_history calls : ∀ w,
  world_ok env w →
  ∃ w', run_calls env calls w = Some w' ∧
        world_ok env w' ∧ clock w ≤ clock w' ∧
        keeps_members (constellations w) (constellations w') ∧
        descends env (clock w) (constellations w) (constellations w').
Proof.
  induction calls as [|ss calls IH]; intros w Hok.
  - exists w. split; [done|]. split; [done|]. split; [done|].
    split; [apply keeps_members_refl|apply descends_refl].
  - simpl.
    destruct (checkForConstellations_history ss w Hok)
      as (w1 & -> & Hok1 & Hc1 & Hk1 & Hd1).
    destruct (IH w1 Hok1) as (w' & Hrun & Hok' & Hc' & Hk' & Hd').
    exists w'. split; [done|]. split; [done|]. split; [lia|]. split.
    + by apply keeps_members_trans with (constellations w1).
    + by apply descends_trans with (clock w1) (constellations w1).
Qed.

End History.

(** After a pass every large component lies in one constellation. *)
Lemma checkForConstellations_covers env ss w :
  Inj (=) (=) (uuid_at env) →
  ids_ok env (clock w) (constellations w) →
  ∃ w', checkForConstellations env ss (constellations w) w = Some w' ∧
        ∀ a, a ∈ body_id <$> ss → ¬ component_at_most 2 ss a →
             ∃ c, c ∈ constellations w' ∧
                  (∀ b, connected ss a b → b ∈ starIds c) ∧
                  ∀ d, d ∈ constellations w' → a ∈ starIds d → d = c.
Proof.
  intros uuid_inj Hids.
  destruct (findClusters_components ss)
    as (clusters & Hfind & Hgood & Hdisj & Hmax & Hin).
  destruct (decide (length ss < 3)) as [Hlt|Hge].
  { exists w. split; [by apply checkForConstellations_few|].
    intros a Ha Hlarge. exfalso.
    destruct (Hin a Ha Hlarge) as (K & HK & _).
    destruct (Hgood K HK) as (Hlen & Hnd & Hsub & _).
    assert (Hle : K ⊆+ body_id <$> ss) by by apply NoDup_submseteq.
    apply submseteq_length in Hle. rewrite length_fmap in Hle. lia. }
  destruct (checkForConstellations_run env ss w)
    as (clusters1 & w' & Hfind1 & _ & _ & Hrun & Hcs & _); [lia|].
  rewrite Hfind in Hfind1. injection Hfind1 as <-.
  exists w'. split; [done|]. intros a Ha Hlarge.
  destruct (Hin a Ha Hlarge) as (K & HK & HaK).
  destruct (foldM_reconcile_spec env uuid_inj clusters (loc_of w) w [])
    as (_ & _ & Hsettled); try done.
  { intros K1 HK1. eapply good_cluster_nonempty. by apply Hgood. }
  { intros K1 K2 HK1. by apply elem_of_nil in HK1. }
  { intros K1 HK1. by apply elem_of_nil in HK1. }
  destruct (Hsettled K HK) as (c & Hc & Hsub & Honly).
  rewrite <- Hcs in Hc, Honly.
  exists c. split; [done|]. split.
  - intros b Hab. by apply Hsub, (Hmax K a b).
  - intros d Hd Had. apply Honly; [done|].
    apply overlapping_iff. by exists a.
Qed.

(** A well-formed sample state: one charted constellation. *)
Lemma world_with_ABC_ok ss : world_ok env0 (world_with ss [constellationABC]).
Proof.
  split; [split|split].
  - apply NoDup_singleton.
  - apply env0_fresh. repeat constructor. intros s. discriminate.
  - intros c d ->%list_elem_of_singleton ->%list_elem_of_singleton. done.
  - intros c ->%list_elem_of_singleton. split; [simpl; lia|].
    simpl. apply (bool_decide_unpack _). by vm_compute.
Qed.

(** ** The log of a pass *)



Section Log.

Variable env : Env.
Hypothesis uuid_inj : Inj (=) (=) (uuid_at env).
Variable cs0 : list Constellation.



End Log.

(** ** Names *)

Section Names.

Variable env : Env.

Lemma append_nonempty_r (s t : string) : t ≠ "" → s +:+ t ≠ "".
Proof. intros Ht. destruct s; [done|]. discriminate. Qed.

Lemma generateConstellationName_nonempty n w : name_in env n w ≠ "".
Proof.
  unfold name_in, generateConstellationName, generateContent, Math_random,
    bind, tick, ret. simpl.
  destruct (generateContent_at env (clock w) n) as [|name]; simpl.
  - apply append_nonempty_r. discriminate.
  - destruct (decide (name = "")); simpl; [discriminate|done].
Qed.

Lemma reconcile_named K loc w :
  all_named (updatedConstellations loc) →
  all_named (updatedConstellations (reconcile env K loc w).1).
Proof.
  intros Hnamed.
  destruct (reconcile_cases env K loc w)
    as [[Hnone ->]|[(p & Hone & Hsub & ->)|(p & others & Hover & _ & ->)]].
  - destruct (create_constellation_spec env K loc w) as (t & _ & _ & -> & _).
    intros c [Hc| ->%list_elem_of_singleton]%elem_of_app; [by apply Hnamed|].
    apply generateConstellationName_nonempty.
  - done.
  - simpl. rewrite merge_into_spec.
    intros c' (c & -> & [_ Hc]%list_elem_of_filter)%list_elem_of_fmap.
    destruct (decide (c_id c = c_id p)); simpl; by apply Hnamed.
Qed.

Lemma foldM_reconcile_named clusters : ∀ loc w,
  all_named (updatedConstellations loc) →
  all_named (updatedConstellations (foldM (reconcile env) clusters loc w).1).
Proof.
  induction clusters as [|K clusters IH]; intros loc w Hnamed; [done|].
  cbn [foldM]. unfold bind. by apply IH, reconcile_named.
Qed.

Lemma checkForConstellations_named ss w :
  all_named (constellations w) →
  ∃ w', checkForConstellations env ss (constellations w) w = Some w' ∧
        all_named (constellations w').
Proof.
  intros Hnamed.
  destruct (decide (length ss < 3)) as [Hlt|Hge].
  - exists w. split; [by apply checkForConstellations_few|done].
  - destruct (checkForConstellations_run env ss w)
      as (clusters & w' & _ & _ & _ & Hrun & Hcs & _); [lia|].
    exists w'. split; [done|]. rewrite Hcs.
    by apply foldM_reconcile_named.
Qed.

End Names.

(** ** The game: numbers *)

Lemma number_nonneg n : (0 <= number n)%Q.
Proof.
  unfold number. change 0%Q with (inject_Z 0). rewrite <- Zle_Qle. lia.
Qed.

Lemma number_S n : (number (S n) == number n + 1)%Q.
Proof.
  unfold number. rewrite Nat2Z.inj_succ, <- Z.add_1_r, inject_Z_plus. reflexivity.
Qed.

Lemma Qlt_bool_false a b : Qlt_bool a b = false ↔ (b <= a)%Q.
Proof.
  unfold Qlt_bool. by rewrite negb_false_iff, Qle_bool_iff.
Qed.

(** ** The game loop *)

Lemma gameLoop_resources g :
  resources (universe (gameLoop g))
  = {| starlight := (starlight (resources (universe g)) + passiveStarlight g)%Q;
       data := data (resources (universe g));
       focus := Qmin (maxFocus g)
                  (focus (resources (universe g)) + focusRegen g)%Q |}.
Proof. done. Qed.

Lemma focusRegen_pos g : (0 < focusRegen g)%Q.
Proof.
  unfold focusRegen, FOCUS_REGEN_BASE.
  pose proof (number_nonneg (level_of (upgrades g) "stabilizers")). Lqa.lra.
Qed.

Lemma maxFocus_ge g : (100 <= maxFocus g)%Q.
Proof.
  unfold maxFocus, MAX_FOCUS_BASE.
  pose proof (number_nonneg (level_of (upgrades g) "focus_condenser")). Lqa.lra.
Qed.

Lemma Qmin_Qmin_add m f r :
  (0 <= r)%Q → (Qmin m (Qmin m f + r) == Qmin m (f + r))%Q.
Proof.
  intros Hr.
  destruct (Q.min_spec m f) as [[H1 ->]|[H1 ->]]; [|reflexivity].
  rewrite !Q.min_l; [reflexivity| |]; Lqa.lra.
Qed.

(** ** Gazing *)

Lemma getGazeCooldown_ge sv g : (50 <= getGazeCooldown sv g)%Q.
Proof. unfold getGazeCooldown. apply Q.le_max_l. Qed.

(** A call of [triggerGaze] reads the time and is refused, or it is at
    least fifty milliseconds after the last accepted one and pays. *)
Lemma triggerGaze_cases sv g :
  let now := now_at (oracles sv) (clock (universe g)) in
  upgrades (triggerGaze sv g) = upgrades g ∧
  clock (universe (triggerGaze sv g)) = S (clock (universe g)) ∧
  ((lastGazeTime (triggerGaze sv g) = lastGazeTime g ∧
    resources (universe (triggerGaze sv g)) = resources (universe g)) ∨
   ((lastGazeTime g + 50 ≤ now)%Z ∧
    lastGazeTime (triggerGaze sv g) = now ∧
    resources (universe (triggerGaze sv g))
    = {| starlight := (starlight (resources (universe g)) + gazeGain g)%Q;
         data := data (resources (universe g));
         focus := focus (resources (universe g)) |})).
Proof.
  intros now. unfold triggerGaze.
  change (run (Date_now (oracles sv)) g).1 with now.
  destruct (Qlt_bool (inject_Z (now - lastGazeTime g)) (getGazeCooldown sv g))
    eqn:Hcool.
  - split; [done|]. split; [done|]. by left.
  - split; [done|]. split; [done|]. right. split; [|done].
    apply Qlt_bool_false in Hcool.
    pose proof (getGazeCooldown_ge sv g) as Hge.
    assert (H50 : (inject_Z 50 <= inject_Z (now - lastGazeTime g))%Q)
      by (by apply Qle_trans with (getGazeCooldown sv g)).
    rewrite <- Zle_Qle in H50. lia.
Qed.

(** ** Reading the state after a handler *)

(** Reduce the projections of a state that setters and oracle reads have
    built, and nothing else. *)
Ltac state_simpl :=
  cbn [game tasks universe upgrades selectedStar isScanning isAnalyzing
       lastGazeTime resources stars constellations logs clock
       starlight data focus purse on_game exec run
       set_universe setUpgrades setSelectedStar setIsScanning setIsAnalyzing
       setLastGazeTime setResources setLogs setStars setConstellations
       addLog uuidv4 Date_now Math_random bind ret tick fst snd orb andb].

Tactic Notation "state_simpl" "in" hyp(H) :=
  cbn [game tasks universe upgrades selectedStar isScanning isAnalyzing
       lastGazeTime resources stars constellations logs clock
       starlight data focus purse on_game exec run
       set_universe setUpgrades setSelectedStar setIsScanning setIsAnalyzing
       setLastGazeTime setResources setLogs setStars setConstellations
       addLog uuidv4 Date_now Math_random bind ret tick fst snd orb andb] in H.

(** ** No action overdraws the resources *)

Section Solvent.

Variable sv : Services.

Lemma gameLoop_solvent g :
  solvent (resources (universe g)) → solvent (resources (universe (gameLoop g))).
Proof.
  intros (Hs & Hd & Hf). rewrite gameLoop_resources.
  pose proof (maxFocus_ge g). pose proof (focusRegen_pos g).
  assert (0 <= passiveStarlight g)%Q.
  { unfold passiveStarlight.
    pose proof (number_nonneg (level_of (upgrades g) "sensor_array")). Lqa.lra. }
  split; [simpl; Lqa.lra|]. split; [done|]. simpl.
  apply Q.min_glb; Lqa.lra.
Qed.

Lemma triggerGaze_solvent g :
  solvent (resources (universe g)) →
  solvent (resources (universe (triggerGaze sv g))).
Proof.
  intros (Hs & Hd & Hf).
  destruct (triggerGaze_cases sv g) as (_ & _ & [[_ ->]|(_ & _ & ->)]); [done|].
  split; [|done]. simpl. unfold gazeGain.
  pose proof (number_nonneg (level_of (upgrades g) "lens_polishing")). Lqa.lra.
Qed.

Lemma handleScan_solvent s :
  solvent (purse s) → solvent (purse (handleScan sv s)).
Proof.
  intros (Hs & Hd & Hf). unfold handleScan.
  destruct (Qlt_bool (focus _) _) eqn:Hfocus; [done|].
  destruct (Qlt_bool (starlight _) _) eqn:Hlight; [done|].
  destruct (isScanning (game s)); [done|].
  apply Qlt_bool_false in Hfocus, Hlight.
  unfold solvent, purse in *. state_simpl. repeat split; Lqa.lra.
Qed.

Lemma handleAnalyze_solvent s :
  solvent (purse s) → solvent (purse (handleAnalyze sv s)).
Proof.
  intros (Hs & Hd & Hf). unfold handleAnalyze.
  destruct (selectedStar (game s)) as [sel|]; [|done].
  destruct (analyzed sel || isAnalyzing (game s)); [done|].
  destruct (Qlt_bool _ _) eqn:Hdata; [done|].
  apply Qlt_bool_false in Hdata.
  unfold solvent, purse in *. state_simpl. repeat split; Lqa.lra.
Qed.

Lemma buyUpgrade_solvent i g :
  solvent (resources (universe g)) →
  solvent (resources (universe (buyUpgrade sv i g))).
Proof.
  intros (Hs & Hd & Hf). unfold buyUpgrade.
  destruct (list_find _ _) as [[idx u]|]; [|done].
  destruct (Qle_bool _ _) eqn:Hcost; [|done].
  destruct (level u <? maxLevel u); [|done].
  apply Qle_bool_iff in Hcost.
  unfold solvent in *. state_simpl. repeat split; Lqa.lra.
Qed.

Lemma generateCelestialDiscovery_frame coords n w :
  resources (generateCelestialDiscovery sv coords n w).2 = resources w ∧
  stars (generateCelestialDiscovery sv coords n w).2 = stars w ∧
  constellations (generateCelestialDiscovery sv coords n w).2 = constellations w ∧
  logs (generateCelestialDiscovery sv coords n w).2 = logs w ∧
  clock w < clock (generateCelestialDiscovery sv coords n w).2.
Proof.
  unfold generateCelestialDiscovery, Math_random, bind, tick, ret.
  cbn [fst snd clock].
  destruct (discovery_at sv (clock w) coords n);
    cbn [fst snd resources stars constellations logs clock];
    repeat split; lia.
Qed.

Lemma analyzeCelestialBody_frame body w :
  resources (analyzeCelestialBody sv body w).2 = resources w ∧
  stars (analyzeCelestialBody sv body w).2 = stars w ∧
  constellations (analyzeCelestialBody sv body w).2 = constellations w ∧
  logs (analyzeCelestialBody sv body w).2 = logs w ∧
  clock w < clock (analyzeCelestialBody sv body w).2.
Proof.
  unfold analyzeCelestialBody, bind, tick, ret. cbn [fst snd clock].
  destruct (analysis_at sv (clock w) body);
    cbn [fst snd resources stars constellations logs clock];
    repeat split; lia.
Qed.

Lemma scanned_solvent depth coords g :
  solvent (resources (universe g)) →
  solvent (resources (universe (scanned sv depth coords g))).
Proof.
  intros (Hs & Hd & Hf). unfold scanned.
  destruct (generateCelestialDiscovery_frame coords depth (universe g))
    as (Hr & _).
  state_simpl. destruct (generateCelestialDiscovery sv coords depth (universe g)).1;
    unfold solvent; state_simpl; rewrite Hr; repeat split; Lqa.lra.
Qed.

Lemma analysed_solvent sel g :
  solvent (resources (universe g)) →
  solvent (resources (universe (analysed sv sel g))).
Proof.
  intros H. unfold analysed. state_simpl.
  by destruct (analyzeCelestialBody_frame sel (universe g)) as (-> & _).
Qed.

Lemma settle_solvent t g :
  solvent (resources (universe g)) →
  solvent (resources (universe (settle sv t g).2)).
Proof.
  intros H. destruct t as [depth|depth coords|sel|]; cbn [settle snd].
  - done.
  - by apply scanned_solvent.
  - by apply analysed_solvent.
  - done.
Qed.

Lemma chart_solvent g :
  solvent (resources (universe g)) →
  ∃ g', chart sv g = Some g' ∧ solvent (resources (universe g')).
Proof.
  intros (Hs & Hd & Hf). unfold chart.
  destruct (decide (0 < length (stars (universe g)))); [|by exists g].
  destruct (checkForConstellations_frame (oracles sv) (stars (universe g))
              (constellations (universe g)) (universe g))
    as (w' & -> & _ & Hfocus & Hsl & Hdl).
  eexists. split; [done|]. unfold solvent. state_simpl.
  rewrite Hfocus. repeat split; [Lqa.lra|Lqa.lra|done].
Qed.

Lemma act_solvent a s :
  solvent (purse s) → ∃ s', act sv a s = Some s' ∧ solvent (purse s').
Proof.
  intros H. destruct a as [| | |i| | |i| | |i]; cbn [act].
  - eexists. split; [done|]. by apply gameLoop_solvent.
  - eexists. split; [done|]. by apply triggerGaze_solvent.
  - eexists. split; [done|]. by apply handleScan_solvent.
  - destruct (stars (universe (game s)) !! i); by eexists.
  - by eexists.
  - eexists. split; [done|]. by apply handleAnalyze_solvent.
  - eexists. split; [done|]. by apply buyUpgrade_solvent.
  - eexists. split; [done|]. unfold purse, solvent. by state_simpl.
  - destruct (chart_solvent (game s) H) as (g' & -> & Hg'). by eexists.
  - destruct (tasks s !! i) as [t|]; [|by eexists].
    eexists. split; [done|]. by apply settle_solvent.
Qed.

End Solvent.

(** ** Invariants of a session *)

(** A property that every allowed action keeps holds after any sequence
    of allowed actions, and the sequence runs to its end. *)
Lemma play_invariant sv (allowed : Action → Prop) (P : Session → Prop) :
  (∀ a s, allowed a → P s → ∃ s', act sv a s = Some s' ∧ P s') →
  ∀ actions s, Forall allowed actions → P s →
               ∃ s', play sv actions s = Some s' ∧ P s'.
Proof.
  intros Hstep actions. induction actions as [|a actions IH]; intros s Hall HP.
  - by exists s.
  - apply Forall_cons in Hall as [Ha Hall]. cbn [play].
    destruct (Hstep a s Ha HP) as (s1 & -> & HP1). by apply IH.
Qed.

Lemma Forall_any_action (actions : list Action) : Forall (λ _, True) actions.
Proof. by apply Forall_forall. Qed.

(** ** The upgrades *)

Section Upgrades.

Variable sv : Services.

Lemma handleScan_upgrades s :
  upgrades (game (handleScan sv s)) = upgrades (game s).
Proof.
  unfold handleScan. by destruct (_ || _ || _).
Qed.

Lemma handleAnalyze_upgrades s :
  upgrades (game (handleAnalyze sv s)) = upgrades (game s).
Proof.
  unfold handleAnalyze. destruct (selectedStar (game s)); [|done].
  destruct (_ || _); [done|]. by destruct (Qlt_bool _ _).
Qed.

Lemma scanned_upgrades depth coords g :
  upgrades (scanned sv depth coords g) = upgrades g.
Proof.
  unfold scanned. by destruct (run (generateCelestialDiscovery _ _ _) g).1.
Qed.

Lemma settle_upgrades t g : upgrades (settle sv t g).2 = upgrades g.
Proof.
  destruct t; cbn [settle snd]; [done| |done|done]. apply scanned_upgrades.
Qed.

Lemma chart_upgrades g g' : chart sv g = Some g' → upgrades g' = upgrades g.
Proof.
  unfold chart. destruct (decide _); [|by intros [= <-]].
  destruct (checkForConstellations _ _ _ _); [|done]. by intros [= <-].
Qed.

(** Every action but buying and the reset leaves the upgrades alone. *)
Lemma act_upgrades a s s' :
  act sv a s = Some s' →
  (∀ i, a ≠ Buy i) → a ≠ Reset →
  upgrades (game s') = upgrades (game s).
Proof.
  intros Hact Hbuy Hreset.
  destruct a as [| | |i| | |i| | |i]; cbn [act] in Hact.
  - by injection Hact as <-.
  - injection Hact as <-. apply triggerGaze_cases.
  - injection Hact as <-. apply handleScan_upgrades.
  - destruct (stars _ !! i); by injection Hact as <-.
  - by injection Hact as <-.
  - injection Hact as <-. apply handleAnalyze_upgrades.
  - by destruct (Hbuy i).
  - done.
  - destruct (chart sv (game s)) as [g'|] eqn:Hchart; [|done].
    injection Hact as <-. by apply chart_upgrades.
  - destruct (tasks s !! i); injection Hact as <-; [|done].
    apply settle_upgrades.
Qed.

Lemma UPGRADES_ok : upgrades_ok UPGRADES.
Proof.
  unfold upgrades_ok, UPGRADES.
  repeat (constructor; [split; [reflexivity|simpl; lia]|]). constructor.
Qed.

Lemma buyUpgrade_ok i g :
  upgrades_ok (upgrades g) → upgrades_ok (upgrades (buyUpgrade sv i g)).
Proof.
  intros Hok. unfold buyUpgrade.
  destruct (list_find _ _) as [[idx u]|] eqn:Hfind; [|done].
  destruct (Qle_bool _ _); [|done].
  destruct (level u <? maxLevel u) eqn:Hlevel; [|done].
  apply Nat.ltb_lt in Hlevel. state_simpl.
  apply list_find_Some in Hfind as (Hidx & _).
  destruct (Forall2_lookup_l _ _ _ _ _ Hok Hidx) as (def & Hdef & Hu & Hle).
  unfold upgrades_ok. rewrite <- (list_insert_id UPGRADES idx def Hdef).
  apply Forall2_insert; [done|].
  rewrite Hu. cbn [with_level level maxLevel]. split; [done|].
  rewrite Hu in Hlevel. cbn [with_level level maxLevel] in Hlevel. lia.
Qed.

Lemma chart_total g : ∃ g', chart sv g = Some g'.
Proof.
  unfold chart. destruct (decide _); [|by eexists].
  destruct (checkForConstellations_frame (oracles sv) (stars (universe g))
              (constellations (universe g)) (universe g)) as (w' & -> & _).
  by eexists.
Qed.

Lemma act_total a s : ∃ s', act sv a s = Some s'.
Proof.
  destruct a as [| | |i| | |i| | |i]; cbn [act]; try by eexists.
  - destruct (stars _ !! i); by eexists.
  - destruct (chart_total (game s)) as (g' & ->). by eexists.
  - destruct (tasks s !! i); by eexists.
Qed.

Lemma act_upgrades_ok a s :
  upgrades_ok (upgrades (game s)) →
  ∃ s', act sv a s = Some s' ∧ upgrades_ok (upgrades (game s')).
Proof.
  intros Hok. destruct (act_total a s) as (s' & Hact).
  exists s'. split; [done|].
  destruct (decide (a = Reset)) as [->|Hreset].
  { injection Hact as <-. apply UPGRADES_ok. }
  destruct a as [| | |i| | |i| | |i];
    try (by rewrite (act_upgrades _ s s' Hact)).
  injection Hact as <-. by apply buyUpgrade_ok.
Qed.

End Upgrades.

(** ** The cap on the focus *)

Lemma level_of_cons u us i :
  level_of (u :: us) i
  = if decide (upgrade_id u = i) then level u else level_of us i.
Proof.
  unfold level_of. cbn [list_find].
  destruct (decide (upgrade_id u = i)); [done|].
  by destruct (list_find _ us) as [[? ?]|].
Qed.

Lemma level_of_insert_mono us idx u l i :
  us !! idx = Some u → level u ≤ l →
  level_of us i ≤ level_of (<[idx := with_level u l]> us) i.
Proof.
  revert idx. induction us as [|v us IH]; intros idx Hidx Hl; [done|].
  destruct idx as [|idx]; cbn [insert list_insert]; rewrite !level_of_cons.
  - injection Hidx as ->. cbn [with_level upgrade_id level].
    by destruct (decide _).
  - destruct (decide _); [done|]. by apply IH.
Qed.

Lemma upgrades_ok_inv us :
  upgrades_ok us →
  ∃ l0 l1 l2 l3 l4 l5 l6,
    us = zip_with with_level UPGRADES [l0; l1; l2; l3; l4; l5; l6] ∧
    l0 ≤ 50 ∧ l1 ≤ 30 ∧ l2 ≤ 20 ∧ l3 ≤ 10 ∧ l4 ≤ 10 ∧ l5 ≤ 5 ∧ l6 ≤ 5.
Proof.
  unfold upgrades_ok, UPGRADES. intros H.
  repeat match goal with
         | H : Forall2 _ _ (_ :: _) |- _ =>
             apply Forall2_cons_inv_r in H as (? & ? & [? ?] & ? & ->)
         | H : Forall2 _ _ [] |- _ => apply Forall2_nil_inv_r in H as ->
         end.
  do 7 eexists. split; [cbn [zip_with]; repeat f_equal; eassumption|].
  cbn [maxLevel] in *. repeat split; assumption.
Qed.

Lemma in_catalogue_inv us :
  in_catalogue us →
  ∃ l0 l1 l2 l3 l4 l5 l6,
    us = zip_with with_level UPGRADES [l0; l1; l2; l3; l4; l5; l6].
Proof.
  unfold in_catalogue, UPGRADES. intros H.
  repeat match goal with
         | H : Forall2 _ _ (_ :: _) |- _ =>
             apply Forall2_cons_inv_r in H as (? & ? & ? & ? & ->)
         | H : Forall2 _ _ [] |- _ => apply Forall2_nil_inv_r in H as ->
         end.
  do 7 eexists. cbn [zip_with]. repeat f_equal; eassumption.
Qed.

Lemma zip_in_catalogue l0 l1 l2 l3 l4 l5 l6 :
  in_catalogue (zip_with with_level UPGRADES [l0; l1; l2; l3; l4; l5; l6]).
Proof.
  unfold in_catalogue, UPGRADES. cbn [zip_with].
  repeat (constructor; [reflexivity|]). constructor.
Qed.

(** The restore is the catalogue at the saved levels. *)
Lemma restoreUpgrades_levels saved :
  restoreUpgrades saved
  = zip_with with_level UPGRADES
      ((λ def, level_of saved (upgrade_id def)) <$> UPGRADES).
Proof.
  transitivity ((λ def, with_level def (level_of saved (upgrade_id def)))
                  <$> UPGRADES); [|reflexivity].
  unfold restoreUpgrades. apply list_fmap_ext. intros i def Hdef.
  unfold level_of.
  destruct (list_find _ saved) as [[? ?]|]; [done|].
  apply list_elem_of_lookup_2 in Hdef. unfold UPGRADES in Hdef.
  repeat (apply elem_of_cons in Hdef as [->|Hdef]; [reflexivity|]).
  by apply elem_of_nil in Hdef.
Qed.

Lemma maxFocus_le g : upgrades_ok (upgrades g) → (maxFocus g <= 600)%Q.
Proof.
  intros (l0 & l1 & l2 & l3 & l4 & l5 & l6 & Hus & _ & _ & _ & H3 & _)%upgrades_ok_inv.
  unfold maxFocus, MAX_FOCUS_BASE. rewrite Hus.
  change (level_of _ "focus_condenser") with l3.
  assert (number l3 <= 10)%Q.
  { unfold number. change 10%Q with (inject_Z 10). rewrite <- Zle_Qle. lia. }
  Lqa.lra.
Qed.

Lemma Qfloor_nonneg q : (0 <= q)%Q → (0 ≤ Qfloor q)%Z.
Proof. intros H. apply (Qfloor_resp_le 0 q) in H. exact H. Qed.

Lemma calculateScanCost_nonneg g :
  (0 <= inject_Z (calculateScanCost g).1)%Q ∧
  (0 <= inject_Z (calculateScanCost g).2)%Q.
Proof.
  unfold calculateScanCost. cbn [fst snd].
  pose proof (number_nonneg (length (stars (universe g)))) as Hn.
  change 0%Q with (inject_Z 0). rewrite <- !Zle_Qle.
  assert (0 ≤ Qfloor (number (length (stars (universe g))) * 1.5))%Z
    by (apply Qfloor_nonneg; Lqa.lra).
  assert (0 ≤ Qfloor (number (length (stars (universe g))) * 0.5))%Z
    by (apply Qfloor_nonneg; Lqa.lra).
  lia.
Qed.

(** A scan that 600 focus can pay for is a scan among 387 bodies or fewer. *)
Lemma affordable_depth g :
  (inject_Z (calculateScanCost g).1 <= 600)%Q →
  length (stars (universe g)) ≤ 387.
Proof.
  unfold calculateScanCost. cbn [fst]. intros H.
  set (d := length (stars (universe g))) in *.
  change 600%Q with (inject_Z 600) in H. rewrite <- Zle_Qle in H.
  pose proof (Qlt_floor (number d * 1.5)) as Hfl.
  assert (Hq : (inject_Z (Qfloor (number d * 1.5) + 1) <= inject_Z 581)%Q)
    by (rewrite <- Zle_Qle; lia).
  assert (Hd : (number d < inject_Z 388)%Q).
  { change (inject_Z 388) with 388%Q. change (inject_Z 581) with 581%Q in Hq.
    Lqa.lra. }
  unfold number in Hd. rewrite <- Zlt_Qlt in Hd. lia.
Qed.

(** ** At most 388 bodies *)

Lemma in_flight_app ts us : in_flight (ts ++ us) = in_flight ts + in_flight us.
Proof. apply sum_list_with_app. Qed.

Lemma in_flight_insert ts i t t' :
  ts !! i = Some t →
  in_flight (<[i := t']> ts) + (if is_scan t then 1 else 0)
  = in_flight ts + (if is_scan t' then 1 else 0).
Proof.
  intros Hi.
  rewrite <- (take_drop_middle ts i t Hi) at 2.
  rewrite insert_take_drop by (by apply lookup_lt_Some in Hi).
  rewrite !in_flight_app. unfold in_flight at 2 4. cbn [sum_list_with].
  fold (in_flight (drop (S i) ts)). lia.
Qed.

Section Bounded.

Variable sv : Services.

Lemma gameLoop_capped g : capped (gameLoop g).
Proof.
  unfold capped. rewrite gameLoop_resources. cbn [focus].
  change (maxFocus (gameLoop g)) with (maxFocus g). apply Q.le_min_l.
Qed.

Lemma triggerGaze_frame g :
  stars (universe (triggerGaze sv g)) = stars (universe g) ∧
  constellations (universe (triggerGaze sv g)) = constellations (universe g) ∧
  logs (universe (triggerGaze sv g)) = logs (universe g) ∧
  selectedStar (triggerGaze sv g) = selectedStar g ∧
  isScanning (triggerGaze sv g) = isScanning g ∧
  isAnalyzing (triggerGaze sv g) = isAnalyzing g.
Proof. unfold triggerGaze. by destruct (Qlt_bool _ _). Qed.

Lemma triggerGaze_capped g : capped g → capped (triggerGaze sv g).
Proof.
  unfold capped, maxFocus.
  destruct (triggerGaze_cases sv g) as (-> & _ & [[_ ->]|(_ & _ & ->)]); done.
Qed.

(** What an accepted scan does. *)
Lemma handleScan_cases s :
  handleScan sv s = s ∨
  (isScanning (game s) = false ∧
   (inject_Z (calculateScanCost (game s)).1
    <= focus (resources (universe (game s))))%Q ∧
   tasks (handleScan sv s)
   = tasks s ++ [ScanWaiting (length (stars (universe (game s))))] ∧
   isScanning (game (handleScan sv s)) = true ∧
   stars (universe (game (handleScan sv s))) = stars (universe (game s)) ∧
   focus (resources (universe (game (handleScan sv s))))
   = (focus (resources (universe (game s)))
      - inject_Z (calculateScanCost (game s)).1)%Q).
Proof.
  unfold handleScan.
  destruct (Qlt_bool (focus _) _) eqn:Hfocus; [by left|].
  destruct (Qlt_bool (starlight _) _) eqn:Hlight; [by left|].
  destruct (isScanning (game s)) eqn:Hscanning; [by left|].
  right. apply Qlt_bool_false in Hfocus. by state_simpl.
Qed.

Lemma handleScan_bounded s : bounded s → bounded (handleScan sv s).
Proof.
  intros (Hcap & Hups & Hlen & Hoff & Hone).
  destruct (handleScan_cases s)
    as [->|(Hscanning & Hfocus & Htasks & Hon & Hstars & Hf)]; [done|].
  pose proof (handleScan_upgrades sv s) as Hsame.
  split; [|split; [by rewrite Hsame|]].
  - unfold capped, maxFocus in *. rewrite Hsame, Hf.
    pose proof (calculateScanCost_nonneg (game s)) as [Hc _]. Lqa.lra.
  - unfold scan_budget. rewrite Htasks, Hon, Hstars, in_flight_app, (Hoff Hscanning).
    cbn [in_flight sum_list_with is_scan].
    assert (length (stars (universe (game s))) ≤ 387).
    { apply affordable_depth. pose proof (maxFocus_le (game s) Hups).
      unfold capped in Hcap. Lqa.lra. }
    split; [lia|]. split; [done|lia].
Qed.

Lemma handleAnalyze_frame s :
  stars (universe (game (handleAnalyze sv s))) = stars (universe (game s)) ∧
  constellations (universe (game (handleAnalyze sv s)))
  = constellations (universe (game s)) ∧
  focus (resources (universe (game (handleAnalyze sv s))))
  = focus (resources (universe (game s))) ∧
  isScanning (game (handleAnalyze sv s)) = isScanning (game s) ∧
  in_flight (tasks (handleAnalyze sv s)) = in_flight (tasks s).
Proof.
  unfold handleAnalyze. destruct (selectedStar (game s)); [|done].
  destruct (_ || _); [done|]. destruct (Qlt_bool _ _); [done|].
  state_simpl. rewrite in_flight_app. cbn [in_flight sum_list_with is_scan].
  repeat split; lia.
Qed.

Lemma handleAnalyze_bounded s : bounded s → bounded (handleAnalyze sv s).
Proof.
  intros (Hcap & Hups & Hlen & Hoff & Hone).
  destruct (handleAnalyze_frame s) as (Hstars & _ & Hf & Hscanning & Hfl).
  pose proof (handleAnalyze_upgrades sv s) as Hsame.
  split; [|split; [by rewrite Hsame|]].
  - unfold capped, maxFocus in *. by rewrite Hsame, Hf.
  - unfold scan_budget. by rewrite Hstars, Hscanning, Hfl.
Qed.

Lemma buyUpgrade_frame i g :
  stars (universe (buyUpgrade sv i g)) = stars (universe g) ∧
  constellations (universe (buyUpgrade sv i g)) = constellations (universe g) ∧
  focus (resources (universe (buyUpgrade sv i g)))
  = focus (resources (universe g)) ∧
  data (resources (universe (buyUpgrade sv i g)))
  = data (resources (universe g)) ∧
  selectedStar (buyUpgrade sv i g) = selectedStar g ∧
  isScanning (buyUpgrade sv i g) = isScanning g ∧
  isAnalyzing (buyUpgrade sv i g) = isAnalyzing g ∧
  lastGazeTime (buyUpgrade sv i g) = lastGazeTime g.
Proof.
  unfold buyUpgrade. destruct (list_find _ _) as [[idx u]|]; [|done].
  by destruct (_ && _).
Qed.

Lemma buyUpgrade_levels i g j :
  level_of (upgrades g) j ≤ level_of (upgrades (buyUpgrade sv i g)) j.
Proof.
  unfold buyUpgrade. destruct (list_find _ _) as [[idx u]|] eqn:Hfind; [|done].
  destruct (_ && _); [|done]. state_simpl.
  apply list_find_Some in Hfind as (Hidx & _).
  apply level_of_insert_mono; [done|lia].
Qed.

Lemma buyUpgrade_capped i g : capped g → capped (buyUpgrade sv i g).
Proof.
  unfold capped, maxFocus, MAX_FOCUS_BASE. intros Hcap.
  destruct (buyUpgrade_frame i g) as (_ & _ & -> & _).
  pose proof (buyUpgrade_levels i g "focus_condenser") as Hle.
  assert (number (level_of (upgrades g) "focus_condenser")
          <= number (level_of (upgrades (buyUpgrade sv i g)) "focus_condenser"))%Q.
  { unfold number. rewrite <- Zle_Qle. lia. }
  Lqa.lra.
Qed.

(** What the end of a scan does: the body list is the same or has one
    more body at its end. *)
Lemma scanned_frame depth coords g :
  (stars (universe (scanned sv depth coords g)) = stars (universe g) ∨
   ∃ body, body_id body = uuid_at (oracles sv)
                            (clock (run (generateCelestialDiscovery sv coords depth) g).2.(universe)) ∧
           coordinates body = coords ∧ analyzed body = false ∧
           stars (universe (scanned sv depth coords g))
           = stars (universe g) ++ [body]) ∧
  constellations (universe (scanned sv depth coords g))
  = constellations (universe g) ∧
  focus (resources (universe (scanned sv depth coords g)))
  = focus (resources (universe g)) ∧
  selectedStar (scanned sv depth coords g) = selectedStar g ∧
  isScanning (scanned sv depth coords g) = false ∧
  isAnalyzing (scanned sv depth coords g) = isAnalyzing g ∧
  lastGazeTime (scanned sv depth coords g) = lastGazeTime g.
Proof.
  unfold scanned.
  destruct (generateCelestialDiscovery_frame sv coords depth (universe g))
    as (Hr & Hs & Hc & _).
  destruct (run (generateCelestialDiscovery sv coords depth) g).1 as [d|] eqn:Hd;
    state_simpl; rewrite ?Hr, ?Hs, ?Hc.
  - split; [|done]. right. eexists. by repeat split.
  - split; [by left|done].
Qed.

Lemma analysed_frame sel g :
  stars (universe (analysed sv sel g))
  = (λ s, if decide (body_id s = body_id sel)
          then with_analysis s (run (analyzeCelestialBody sv sel) g).1 else s)
    <$> stars (universe g) ∧
  constellations (universe (analysed sv sel g)) = constellations (universe g) ∧
  resources (universe (analysed sv sel g)) = resources (universe g) ∧
  upgrades (analysed sv sel g) = upgrades g ∧
  isScanning (analysed sv sel g) = isScanning g ∧
  isAnalyzing (analysed sv sel g) = false ∧
  lastGazeTime (analysed sv sel g) = lastGazeTime g.
Proof.
  unfold analysed.
  destruct (analyzeCelestialBody_frame sv sel (universe g)) as (Hr & Hs & Hc & _).
  state_simpl. by rewrite Hr, Hs, Hc.
Qed.

Lemma settle_bounded i t s :
  tasks s !! i = Some t → bounded s →
  bounded {| game := (settle sv t (game s)).2;
             tasks := <[i := (settle sv t (game s)).1]> (tasks s) |}.
Proof.
  intros Hi (Hcap & Hups & Hlen & Hoff & Hone).
  pose proof (in_flight_insert (tasks s) i t (settle sv t (game s)).1 Hi) as Hfl.
  unfold bounded, scan_budget, capped, maxFocus in *. cbn [game tasks].
  rewrite settle_upgrades.
  destruct t as [depth|depth coords|sel|]; cbn [settle fst snd is_scan] in *.
  - state_simpl. state_simpl in Hfl.
    split; [done|]. split; [done|]. split; [lia|]. split; [|lia].
    intros Hs. specialize (Hoff Hs). lia.
  - destruct (scanned_frame depth coords (game s))
      as (Hstars & _ & -> & _ & -> & _).
    split; [done|]. split; [done|].
    assert (length (stars (universe (scanned sv depth coords (game s))))
            ≤ S (length (stars (universe (game s))))).
    { destruct Hstars as [->|(body & _ & _ & _ & ->)]; [lia|].
      rewrite length_app. simpl. lia. }
    repeat split; lia.
  - destruct (analysed_frame sel (game s)) as (-> & _ & -> & _ & -> & _).
    rewrite length_fmap.
    split; [done|]. split; [done|]. split; [lia|]. split; [|lia].
    intros Hs. specialize (Hoff Hs). lia.
  - rewrite list_insert_id by done. done.
Qed.

Lemma chart_frame g g' :
  chart sv g = Some g' →
  stars (universe g') = stars (universe g) ∧
  focus (resources (universe g')) = focus (resources (universe g)) ∧
  upgrades g' = upgrades g ∧
  selectedStar g' = selectedStar g ∧
  isScanning g' = isScanning g ∧
  isAnalyzing g' = isAnalyzing g ∧
  lastGazeTime g' = lastGazeTime g.
Proof.
  unfold chart. destruct (decide _); [|by intros [= <-]].
  destruct (checkForConstellations_frame (oracles sv) (stars (universe g))
              (constellations (universe g)) (universe g))
    as (w' & -> & Hs & Hf & _).
  intros [= <-]. by state_simpl.
Qed.

Lemma act_bounded a s :
  a ≠ Reset → bounded s → ∃ s', act sv a s = Some s' ∧ bounded s'.
Proof.
  intros Hreset Hb. destruct (act_total sv a s) as (s' & Hact).
  exists s'. split; [done|].
  destruct a as [| | |i| | |i| | |i]; cbn [act] in Hact.
  - injection Hact as <-. destruct Hb as (Hcap & Hups & Hbudget).
    split; [apply gameLoop_capped|done].
  - injection Hact as <-. destruct Hb as (Hcap & Hups & Hbudget).
    destruct (triggerGaze_frame (game s)) as (Hs & _ & _ & _ & Hsc & _).
    destruct (triggerGaze_cases sv (game s)) as (Hu & _).
    unfold bounded, scan_budget. cbn [on_game game tasks].
    split; [by apply triggerGaze_capped|]. split; [by rewrite Hu|].
    by rewrite Hs, Hsc.
  - injection Hact as <-. by apply handleScan_bounded.
  - destruct (stars _ !! i); by injection Hact as <-.
  - by injection Hact as <-.
  - injection Hact as <-. by apply handleAnalyze_bounded.
  - injection Hact as <-. destruct Hb as (Hcap & Hups & Hbudget).
    destruct (buyUpgrade_frame i (game s)) as (Hs & _ & _ & _ & _ & Hsc & _).
    unfold bounded, scan_budget. cbn [on_game game tasks].
    split; [by apply buyUpgrade_capped|]. split; [by apply buyUpgrade_ok|].
    by rewrite Hs, Hsc.
  - done.
  - destruct (chart sv (game s)) as [g'|] eqn:Hchart; [|done].
    injection Hact as <-. destruct Hb as (Hcap & Hups & Hbudget).
    destruct (chart_frame _ _ Hchart) as (Hs & Hf & Hu & _ & Hsc & _).
    unfold bounded, capped, maxFocus, scan_budget in *. cbn [game tasks].
    by rewrite Hs, Hf, Hu, Hsc.
  - destruct (tasks s !! i) as [t|] eqn:Hi; injection Hact as <-; [|done].
    by apply settle_bounded.
Qed.

End Bounded.

Lemma newGame_bounded : bounded newGame.
Proof.
  split; [|split; [exact UPGRADES_ok|]].
  - unfold capped. by vm_compute.
  - unfold scan_budget. cbn. repeat split; lia.
Qed.

Lemma act_capped sv a s :
  capped (game s) → ∃ s', act sv a s = Some s' ∧ capped (game s').
Proof.
  intros Hcap. destruct (act_total sv a s) as (s' & Hact).
  exists s'. split; [done|].
  destruct a as [| | |i| | |i| | |i]; cbn [act] in Hact.
  - injection Hact as <-. apply gameLoop_capped.
  - injection Hact as <-. by apply triggerGaze_capped.
  - injection Hact as <-.
    destruct (handleScan_cases sv s) as [->|(_ & _ & _ & _ & _ & Hf)]; [done|].
    unfold capped, maxFocus in *. rewrite handleScan_upgrades, Hf.
    pose proof (calculateScanCost_nonneg (game s)) as [Hc _]. Lqa.lra.
  - destruct (stars _ !! i); by injection Hact as <-.
  - by injection Hact as <-.
  - injection Hact as <-.
    destruct (handleAnalyze_frame sv s) as (_ & _ & Hf & _).
    unfold capped, maxFocus in *. by rewrite handleAnalyze_upgrades, Hf.
  - injection Hact as <-. by apply buyUpgrade_capped.
  - injection Hact as <-. unfold capped, maxFocus. state_simpl. by vm_compute.
  - destruct (chart sv (game s)) as [g'|] eqn:Hchart; [|done].
    injection Hact as <-.
    destruct (chart_frame sv _ _ Hchart) as (_ & Hf & Hu & _).
    unfold capped, maxFocus in *. cbn [game]. by rewrite Hf, Hu.
  - destruct (tasks s !! i) as [t|] eqn:Hi; injection Hact as <-; [|done].
    unfold capped, maxFocus in *. cbn [game]. rewrite settle_upgrades.
    destruct t as [depth|depth coords|sel|]; cbn [settle snd]; [done| | |done].
    + by destruct (scanned_frame sv depth coords (game s)) as (_ & _ & -> & _).
    + by destruct (analysed_frame sv sel (game s)) as (_ & _ & -> & _).
Qed.

(** ** The log stays short *)

Section LogBound.

Variable sv : Services.

Lemma take_50_bounded {A} (l : list A) : length (take 50 l) ≤ 50.
Proof. rewrite length_take. lia. Qed.

Lemma reconcile_log_bounded K loc w :
  log_bounded w → log_bounded (reconcile (oracles sv) K loc w).2.
Proof.
  intros Hb.
  destruct (reconcile_cases (oracles sv) K loc w)
    as [[_ ->]|[(p & _ & _ & ->)|(p & others & _ & _ & ->)]]; [|done|done].
  destruct (create_constellation_spec (oracles sv) K loc w)
    as (t & _ & _ & _ & _ & _ & _ & Hlogs).
  unfold log_bounded. rewrite Hlogs. apply take_50_bounded.
Qed.

Lemma foldM_reconcile_log_bounded clusters : ∀ loc w,
  log_bounded w → log_bounded (foldM (reconcile (oracles sv)) clusters loc w).2.
Proof.
  induction clusters as [|K clusters IH]; intros loc w Hb; [done|].
  cbn [foldM]. unfold bind. by apply IH, reconcile_log_bounded.
Qed.

Lemma checkForConstellations_log_bounded ss w w' :
  checkForConstellations (oracles sv) ss (constellations w) w = Some w' →
  log_bounded w → log_bounded w'.
Proof.
  intros Hrun Hb. destruct (decide (length ss < 3)) as [Hlt|Hge].
  - rewrite checkForConstellations_few in Hrun by done. by injection Hrun as <-.
  - destruct (checkForConstellations_run (oracles sv) ss w)
      as (clusters & w1 & _ & _ & _ & Hrun1 & _ & _ & Hlogs & _); [lia|].
    rewrite Hrun in Hrun1. injection Hrun1 as <-.
    unfold log_bounded. rewrite Hlogs. by apply foldM_reconcile_log_bounded.
Qed.

Lemma act_log_bounded a s :
  log_bounded (universe (game s)) →
  ∃ s', act sv a s = Some s' ∧ log_bounded (universe (game s')).
Proof.
  intros Hb. destruct (act_total sv a s) as (s' & Hact).
  exists s'. split; [done|]. unfold log_bounded in *.
  destruct a as [| | |i| | |i| | |i]; cbn [act] in Hact.
  - by injection Hact as <-.
  - injection Hact as <-. cbn [on_game game].
    by destruct (triggerGaze_frame sv (game s)) as (_ & _ & -> & _).
  - injection Hact as <-. unfold handleScan.
    destruct (_ || _ || _); [done|]. state_simpl. apply take_50_bounded.
  - destruct (stars _ !! i); by injection Hact as <-.
  - by injection Hact as <-.
  - injection Hact as <-. unfold handleAnalyze.
    destruct (selectedStar (game s)); [|done].
    destruct (_ || _); [done|].
    destruct (Qlt_bool _ _); state_simpl; apply take_50_bounded.
  - injection Hact as <-. unfold buyUpgrade. cbn [on_game game].
    destruct (list_find _ _) as [[idx u]|]; [|done].
    destruct (_ && _); [|done]. state_simpl. apply take_50_bounded.
  - injection Hact as <-. unfold performReset. state_simpl. apply take_50_bounded.
  - unfold chart in Hact. destruct (decide _); [|by injection Hact as <-].
    destruct (checkForConstellations _ _ _ _) as [w'|] eqn:Hrun; [|done].
    injection Hact as <-. state_simpl.
    by apply (checkForConstellations_log_bounded _ _ _ Hrun).
  - destruct (tasks s !! i) as [t|] eqn:Hi; injection Hact as <-; [|done].
    cbn [game]. destruct t as [depth|depth coords|sel|]; cbn [settle snd].
    + by state_simpl.
    + unfold scanned.
      destruct (run (generateCelestialDiscovery sv coords depth) (game s)).1;
        state_simpl; apply take_50_bounded.
    + unfold analysed. state_simpl. apply take_50_bounded.
    + done.
Qed.

End LogBound.

(** ** The clock *)

Section Clock.

Variable sv : Services.

Lemma reconcile_clock K loc w :
  clock w ≤ clock (reconcile (oracles sv) K loc w).2.
Proof.
  destruct (reconcile_cases (oracles sv) K loc w)
    as [[_ ->]|[(p & _ & _ & ->)|(p & others & _ & _ & ->)]]; [|done|done].
  destruct (create_constellation_spec (oracles sv) K loc w)
    as (t & Ht & Hclock & _). lia.
Qed.

Lemma foldM_reconcile_clock clusters : ∀ loc w,
  clock w ≤ clock (foldM (reconcile (oracles sv)) clusters loc w).2.
Proof.
  induction clusters as [|K clusters IH]; intros loc w; [done|].
  cbn [foldM]. unfold bind.
  pose proof (reconcile_clock K loc w).
  pose proof (IH (reconcile (oracles sv) K loc w).1
                 (reconcile (oracles sv) K loc w).2). lia.
Qed.

Lemma checkForConstellations_clock ss w w' :
  checkForConstellations (oracles sv) ss (constellations w) w = Some w' →
  clock w ≤ clock w'.
Proof.
  intros Hrun. destruct (decide (length ss < 3)) as [Hlt|Hge].
  - rewrite checkForConstellations_few in Hrun by done. by injection Hrun as <-.
  - destruct (checkForConstellations_run (oracles sv) ss w)
      as (clusters & w1 & _ & _ & _ & Hrun1 & _ & _ & _ & Hclock & _); [lia|].
    rewrite Hrun in Hrun1. injection Hrun1 as <-.
    rewrite Hclock. apply foldM_reconcile_clock.
Qed.

Lemma scanned_clock depth coords g :
  clock (universe g)
  < clock (universe (run (generateCelestialDiscovery sv coords depth) g).2) ∧
  clock (universe (run (generateCelestialDiscovery sv coords depth) g).2)
  < clock (universe (scanned sv depth coords g)).
Proof.
  destruct (generateCelestialDiscovery_frame sv coords depth (universe g))
    as (_ & _ & _ & _ & Hc).
  split; [done|]. unfold scanned.
  destruct (run (generateCelestialDiscovery sv coords depth) g).1;
    state_simpl; lia.
Qed.

Lemma analysed_clock sel g :
  clock (universe g) ≤ clock (universe (analysed sv sel g)).
Proof.
  destruct (analyzeCelestialBody_frame sv sel (universe g))
    as (_ & _ & _ & _ & Hc).
  unfold analysed. state_simpl. lia.
Qed.

Lemma act_clock a s s' :
  act sv a s = Some s' →
  clock (universe (game s)) ≤ clock (universe (game s')).
Proof.
  intros Hact. destruct a as [| | |i| | |i| | |i]; cbn [act] in Hact.
  - by injection Hact as <-.
  - injection Hact as <-. cbn [on_game game].
    destruct (triggerGaze_cases sv (game s)) as (_ & -> & _). lia.
  - injection Hact as <-. unfold handleScan.
    destruct (_ || _ || _); [done|]. state_simpl. lia.
  - destruct (stars _ !! i); by injection Hact as <-.
  - by injection Hact as <-.
  - injection Hact as <-. unfold handleAnalyze.
    destruct (selectedStar (game s)); [|done].
    destruct (_ || _); [done|].
    destruct (Qlt_bool _ _); state_simpl; lia.
  - injection Hact as <-. unfold buyUpgrade. cbn [on_game game].
    destruct (list_find _ _) as [[idx u]|]; [|done].
    destruct (_ && _); [|done]. state_simpl. lia.
  - injection Hact as <-. unfold performReset. state_simpl. lia.
  - unfold chart in Hact. destruct (decide _); [|by injection Hact as <-].
    destruct (checkForConstellations _ _ _ _) as [w'|] eqn:Hrun; [|done].
    injection Hact as <-. state_simpl.
    by apply (checkForConstellations_clock _ _ _ Hrun).
  - destruct (tasks s !! i) as [t|] eqn:Hi; injection Hact as <-; [|done].
    cbn [game]. destruct t as [depth|depth coords|sel|]; cbn [settle snd].
    + state_simpl. lia.
    + destruct (scanned_clock depth coords (game s)). lia.
    + apply analysed_clock.
    + done.
Qed.

End Clock.

(** ** The bodies *)

Lemma body_kept_refl s : body_kept s s.
Proof. by repeat split. Qed.

Lemma body_kept_trans s1 s2 s3 :
  body_kept s1 s2 → body_kept s2 s3 → body_kept s1 s3.
Proof.
  intros ([? ?] & ? & ?) ([? ?] & ? & ?).
  repeat split; try congruence. auto.
Qed.

#[local] Instance body_kept_preorder : PreOrder body_kept.
Proof.
  split; [exact body_kept_refl|]. intros s1 s2 s3. apply body_kept_trans.
Qed.

Lemma sky_extends_refl ss : sky_extends ss ss.
Proof. exists ss, []. split; [by rewrite app_nil_r|reflexivity]. Qed.

Lemma sky_extends_trans ss1 ss2 ss3 :
  sky_extends ss1 ss2 → sky_extends ss2 ss3 → sky_extends ss1 ss3.
Proof.
  intros (k1 & m1 & -> & H1) (k2 & m2 & -> & H2).
  apply Forall2_app_inv_l in H2 as (k2a & k2b & Ha & Hb & ->).
  exists k2a, (k2b ++ m2). split; [by rewrite app_assoc|].
  by etrans.
Qed.

Lemma sky_extends_app ss more : sky_extends ss (ss ++ more).
Proof. exists ss, more. split; [done|reflexivity]. Qed.

Lemma sky_extends_analysis ss sel text :
  sky_extends ss
    ((λ s, if decide (body_id s = body_id sel)
           then with_analysis s text else s) <$> ss).
Proof.
  eexists _, []. split; [by rewrite app_nil_r|].
  apply Forall2_fmap_r, Forall2_same_length_lookup. split; [done|].
  intros i s s' Hs Hs'. rewrite Hs in Hs'. injection Hs' as <-.
  change (body_kept s (if decide (body_id s = body_id sel)
                       then with_analysis s text else s)).
  destruct (decide (body_id s = body_id sel)); [|apply body_kept_refl].
  by repeat split.
Qed.

Section Sky.

Variable sv : Services.

Lemma handleScan_frame s :
  stars (universe (game (handleScan sv s))) = stars (universe (game s)) ∧
  constellations (universe (game (handleScan sv s)))
  = constellations (universe (game s)).
Proof. unfold handleScan. by destruct (_ || _ || _). Qed.

(** What an action does to the body list: nothing, an analysis written
    into the bodies with the identity of the analysed one, or one new
    body at the end, with an identity handed out during the action. *)
Lemma act_stars a s s' :
  act sv a s = Some s' → a ≠ Reset →
  stars (universe (game s')) = stars (universe (game s)) ∨
  (∃ sel text,
      stars (universe (game s'))
      = (λ b, if decide (body_id b = body_id sel)
              then with_analysis b text else b) <$> stars (universe (game s))) ∨
  (∃ body t,
      clock (universe (game s)) ≤ t < clock (universe (game s')) ∧
      body_id body = uuid_at (oracles sv) t ∧ analyzed body = false ∧
      stars (universe (game s')) = stars (universe (game s)) ++ [body]).
Proof.
  intros Hact Hreset. destruct a as [| | |i| | |i| | |i]; cbn [act] in Hact.
  - injection Hact as <-. by left.
  - injection Hact as <-. left. apply triggerGaze_frame.
  - injection Hact as <-. left. apply handleScan_frame.
  - left. destruct (stars _ !! i); by injection Hact as <-.
  - injection Hact as <-. by left.
  - injection Hact as <-. left. apply handleAnalyze_frame.
  - injection Hact as <-. left. apply buyUpgrade_frame.
  - done.
  - destruct (chart sv (game s)) as [g'|] eqn:Hchart; [|done].
    injection Hact as <-. left. by apply (chart_frame sv).
  - destruct (tasks s !! i) as [t|] eqn:Hi; injection Hact as <-; [|by left].
    cbn [game]. destruct t as [depth|depth coords|sel|]; cbn [settle snd].
    + by left.
    + destruct (scanned_frame sv depth coords (game s))
        as ([Hsame|(body & Hid & _ & Han & Happ)] & _); [by left|].
      right. right. exists body. eexists. split; [|done].
      destruct (scanned_clock sv depth coords (game s)). lia.
    + right. left. eexists _, _. apply analysed_frame.
    + by left.
Qed.

Lemma act_constellations a s s' :
  act sv a s = Some s' → a ≠ Reset → a ≠ Chart →
  constellations (universe (game s')) = constellations (universe (game s)).
Proof.
  intros Hact Hreset Hchart.
  destruct a as [| | |i| | |i| | |i]; cbn [act] in Hact; try done.
  - by injection Hact as <-.
  - injection Hact as <-. apply triggerGaze_frame.
  - injection Hact as <-. apply handleScan_frame.
  - destruct (stars _ !! i); by injection Hact as <-.
  - by injection Hact as <-.
  - injection Hact as <-. apply handleAnalyze_frame.
  - injection Hact as <-. apply buyUpgrade_frame.
  - destruct (tasks s !! i) as [t|] eqn:Hi; injection Hact as <-; [|done].
    cbn [game]. destruct t as [depth|depth coords|sel|]; cbn [settle snd].
    + done.
    + apply scanned_frame.
    + apply analysed_frame.
    + done.
Qed.

Lemma act_sky_extends a s :
  a ≠ Reset →
  ∃ s', act sv a s = Some s' ∧
        sky_extends (stars (universe (game s))) (stars (universe (game s'))).
Proof.
  intros Hreset. destruct (act_total sv a s) as (s' & Hact).
  exists s'. split; [done|].
  destruct (act_stars a s s' Hact Hreset)
    as [->|[(sel & text & ->)|(body & t & _ & _ & _ & ->)]].
  - apply sky_extends_refl.
  - apply sky_extends_analysis.
  - apply sky_extends_app.
Qed.

Hypothesis uuid_inj : Inj (=) (=) (uuid_at (oracles sv)).

Lemma bodies_ok_mono t t' ss :
  t ≤ t' → bodies_ok (oracles sv) t ss → bodies_ok (oracles sv) t' ss.
Proof. intros Hle [Hnd Hf]. split; [done|]. intros u Hu. apply Hf. lia. Qed.

Lemma act_bodies_ok a s :
  bodies_ok (oracles sv) (clock (universe (game s))) (stars (universe (game s))) →
  ∃ s', act sv a s = Some s' ∧
        bodies_ok (oracles sv) (clock (universe (game s')))
                  (stars (universe (game s'))).
Proof.
  intros Hok. destruct (act_total sv a s) as (s' & Hact).
  exists s'. split; [done|].
  pose proof (act_clock sv a s s' Hact) as Hclock.
  destruct (decide (a = Reset)) as [->|Hreset].
  { injection Hact as <-. split; [constructor|].
    intros t' _. apply not_elem_of_nil. }
  destruct (act_stars a s s' Hact Hreset)
    as [->|[(sel & text & ->)|(body & t & Ht & Hid & _ & ->)]].
  - by apply bodies_ok_mono with (clock (universe (game s))).
  - apply (bodies_ok_mono _ _ _ Hclock) in Hok.
    unfold bodies_ok in *. rewrite <- list_fmap_compose.
    erewrite (list_fmap_ext (body_id ∘ _) body_id); [exact Hok|].
    intros i b _. simpl. by destruct (decide _).
  - destruct Hok as [Hnd Hfresh]. unfold bodies_ok.
    rewrite fmap_app. cbn [fmap list_fmap]. rewrite Hid. split.
    + apply NoDup_app. split; [done|]. split; [|apply NoDup_singleton].
      intros i Hi ->%list_elem_of_singleton. apply (Hfresh t); [lia|done].
    + intros t' Ht'. rewrite not_elem_of_app. split; [apply Hfresh; lia|].
      rewrite list_elem_of_singleton. intros Heq%uuid_inj. lia.
Qed.

Lemma act_world_ok a s :
  world_ok (oracles sv) (universe (game s)) →
  ∃ s', act sv a s = Some s' ∧ world_ok (oracles sv) (universe (game s')).
Proof.
  intros Hok. destruct (act_total sv a s) as (s' & Hact).
  exists s'. split; [done|].
  pose proof (act_clock sv a s s' Hact) as Hclock.
  destruct (decide (a = Reset)) as [->|Hreset].
  { injection Hact as <-. by apply world_ok_empty. }
  destruct (decide (a = Chart)) as [->|Hchart].
  { cbn [act] in Hact. unfold chart in Hact.
    destruct (decide _); [|by injection Hact as <-].
    destruct (checkForConstellations_ok (oracles sv) uuid_inj
                (stars (universe (game s))) (universe (game s)) Hok)
      as (w' & Hrun & Hok').
    rewrite Hrun in Hact. by injection Hact as <-. }
  apply (world_ok_same_list (oracles sv) (universe (game s))); [|done..].
  by apply (act_constellations a s s').
Qed.

End Sky.

(** ** Constellations are made of bodies *)

Section Known.

Variable sv : Services.

Lemma reconcile_members_known ss K loc w :
  (∀ v, v ∈ K → v ∈ body_id <$> ss) →
  members_known ss (updatedConstellations loc) →
  members_known ss (updatedConstellations (reconcile (oracles sv) K loc w).1).
Proof.
  intros HK Hknown.
  destruct (reconcile_cases (oracles sv) K loc w)
    as [[_ ->]|[(p & _ & _ & ->)|(p & others & Hover & _ & ->)]]; [|done|].
  - destruct (create_constellation_spec (oracles sv) K loc w)
      as (t & _ & _ & -> & _).
    intros c v [Hc| ->%list_elem_of_singleton]%elem_of_app Hv.
    + by apply (Hknown c).
    + by apply HK.
  - cbn [updatedConstellations fst]. rewrite merge_into_spec.
    intros c' v (c & -> & [_ Hc]%list_elem_of_filter)%list_elem_of_fmap Hv.
    destruct (decide (c_id c = c_id p)); [|by apply (Hknown c)].
    cbn [with_starIds starIds] in Hv.
    apply mergedIds_elem in Hv as [Hv|[Hv|(o & Ho & Hv)]].
    + apply (Hknown p); [|done].
      apply (primary_elem (updatedConstellations loc) K p others Hover).
    + by apply HK.
    + apply (Hknown o); [|done].
      by apply (others_elem (updatedConstellations loc) K p others Hover).
Qed.

Lemma foldM_members_known ss clusters : ∀ loc w,
  (∀ K v, K ∈ clusters → v ∈ K → v ∈ body_id <$> ss) →
  members_known ss (updatedConstellations loc) →
  members_known ss
    (updatedConstellations (foldM (reconcile (oracles sv)) clusters loc w).1).
Proof.
  induction clusters as [|K clusters IH]; intros loc w HK Hknown; [done|].
  cbn [foldM]. unfold bind. apply IH.
  - intros K' v HK'. apply HK. by right.
  - apply reconcile_members_known; [|done]. intros v. apply HK. left.
Qed.

Lemma checkForConstellations_members_known ss w w' :
  checkForConstellations (oracles sv) ss (constellations w) w = Some w' →
  members_known ss (constellations w) → members_known ss (constellations w').
Proof.
  intros Hrun Hknown. destruct (decide (length ss < 3)) as [Hlt|Hge].
  - rewrite checkForConstellations_few in Hrun by done. by injection Hrun as <-.
  - destruct (checkForConstellations_run (oracles sv) ss w)
      as (clusters & w1 & _ & Hgood & _ & Hrun1 & Hcs & _); [lia|].
    rewrite Hrun in Hrun1. injection Hrun1 as <-. rewrite Hcs.
    apply foldM_members_known; [|done].
    intros K v HK. by apply (Hgood K HK).
Qed.

Lemma members_known_mono ss ss' cs :
  (∀ v, v ∈ body_id <$> ss → v ∈ body_id <$> ss') →
  members_known ss cs → members_known ss' cs.
Proof. intros Hsub Hknown c v Hc Hv. by apply Hsub, (Hknown c). Qed.

Lemma act_members_known a s :
  members_known (stars (universe (game s)))
                (constellations (universe (game s))) →
  ∃ s', act sv a s = Some s' ∧
        members_known (stars (universe (game s')))
                      (constellations (universe (game s'))).
Proof.
  intros Hknown. destruct (act_total sv a s) as (s' & Hact).
  exists s'. split; [done|].
  destruct (decide (a = Reset)) as [->|Hreset].
  { injection Hact as <-. intros c v Hc. by apply elem_of_nil in Hc. }
  destruct (decide (a = Chart)) as [->|Hchart].
  { cbn [act] in Hact. unfold chart in Hact.
    destruct (decide _); [|by injection Hact as <-].
    destruct (checkForConstellations _ _ _ _) as [w'|] eqn:Hrun; [|done].
    destruct (checkForConstellations_frame (oracles sv)
                (stars (universe (game s)))
                (constellations (universe (game s))) (universe (game s)))
      as (w1 & Hrun1 & Hstars & _).
    rewrite Hrun in Hrun1. injection Hrun1 as <-.
    injection Hact as <-. state_simpl. rewrite Hstars.
    by apply (checkForConstellations_members_known _ _ _ Hrun). }
  rewrite (act_constellations sv a s s' Hact Hreset Hchart).
  apply (members_known_mono (stars (universe (game s)))); [|done].
  destruct (act_stars sv a s s' Hact Hreset)
    as [->|[(sel & text & ->)|(body & t & _ & _ & _ & ->)]].
  - done.
  - intros v. rewrite <- list_fmap_compose.
    erewrite (list_fmap_ext (body_id ∘ _) body_id); [done|].
    intros i b _. simpl. by destruct (decide _).
  - intros v Hv. rewrite fmap_app. apply elem_of_app. by left.
Qed.

End Known.

(** ** The star map: the nearest bodies *)

Lemma insert_by_dist_Permutation n l : insert_by_dist n l ≡ₚ n :: l.
Proof.
  induction l as [|m l IH]; [done|]. cbn [insert_by_dist].
  destruct (Qle_bool _ _); [done|]. rewrite IH. apply Permutation_swap.
Qed.

Lemma sort_by_dist_Permutation l : sort_by_dist l ≡ₚ l.
Proof.
  unfold sort_by_dist. induction l as [|n l IH]; [done|].
  cbn [foldr]. by rewrite insert_by_dist_Permutation, IH.
Qed.

Lemma by_dist_cons n l :
  by_dist (n :: l) ↔ (∀ m, m ∈ l → (dist n <= dist m)%Q) ∧ by_dist l.
Proof.
  split.
  - intros H. split.
    + intros m (j & Hj)%list_elem_of_lookup.
      apply (H 0 (S j) n m); [lia|done|done].
    + intros i j a b Hij Hi Hj. by apply (H (S i) (S j) a b); [lia|..].
  - intros [Hn Hl] i j a b Hij Hi Hj.
    destruct i as [|i].
    + injection Hi as <-. destruct j as [|j].
      * injection Hj as <-. apply Qle_refl.
      * apply Hn. by eapply list_elem_of_lookup_2.
    + destruct j as [|j]; [lia|]. apply (Hl i j a b); [lia|done|done].
Qed.

Lemma insert_by_dist_sorted n l : by_dist l → by_dist (insert_by_dist n l).
Proof.
  induction l as [|m l IH]; intros Hl.
  - apply by_dist_cons. split; [|done]. intros m Hm. by apply elem_of_nil in Hm.
  - cbn [insert_by_dist]. apply by_dist_cons in Hl as [Hm Hl].
    destruct (Qle_bool (dist n) (dist m)) eqn:Hle.
    + apply Qle_bool_iff in Hle. apply by_dist_cons. split.
      * intros a [->|Ha]%elem_of_cons; [done|].
        apply Qle_trans with (dist m); [done|by apply Hm].
      * apply by_dist_cons. by split.
    + assert (Hlt : (dist m <= dist n)%Q).
      { apply Qlt_le_weak, Qnot_le_lt. intros H. apply Qle_bool_iff in H.
        congruence. }
      apply by_dist_cons. split; [|by apply IH].
      intros a Ha. rewrite insert_by_dist_Permutation in Ha.
      apply elem_of_cons in Ha as [->|Ha]; [done|by apply Hm].
Qed.

Lemma sort_by_dist_sorted l : by_dist (sort_by_dist l).
Proof.
  unfold sort_by_dist. induction l as [|n l IH].
  - intros i j n m _ Hi. by destruct i.
  - cbn [foldr]. by apply insert_by_dist_sorted.
Qed.

Lemma nearest_within_reach stars star n :
  n ∈ nearest stars star → n ∈ within_reach stars star.
Proof.
  unfold nearest. fold (within_reach stars star).
  intros Hn. apply elem_of_take in Hn as (i & Hi & _).
  rewrite <- (sort_by_dist_Permutation (within_reach stars star)).
  by eapply list_elem_of_lookup_2.
Qed.

(** A candidate is another body of the list that passes the proximity
    test, with what [Math.hypot] returns for it. *)
Lemma within_reach_spec stars star n :
  n ∈ within_reach stars star →
  neighbor n ∈ stars ∧ body_id (neighbor n) ≠ body_id star ∧
  near (neighbor n) star = true ∧
  dist n = Math_hypot (x (coordinates (neighbor n)) - x (coordinates star))
                      (y (coordinates (neighbor n)) - y (coordinates star)).
Proof.
  unfold within_reach.
  intros [Hd (s & -> & [Hid Hs]%list_elem_of_filter)%list_elem_of_fmap]%list_elem_of_filter.
  cbn [neighbor dist] in *. split; [done|]. split; [done|].
  split; [exact Hd|done].
Qed.

Lemma elem_positions {A} (l : list A) (a b : A) (f : A → string) :
  a ∈ l → b ∈ l → f a ≠ f b →
  ∃ i j, i ≠ j ∧ l !! i = Some a ∧ l !! j = Some b.
Proof.
  intros (i & Hi)%list_elem_of_lookup (j & Hj)%list_elem_of_lookup Hne.
  exists i, j. split; [|done]. intros ->. rewrite Hi in Hj. by injection Hj as ->.
Qed.

Lemma ltb_linkId a b : String.ltb a b = true → linkId a b = a +:+ "-" +:+ b.
Proof.
  unfold linkId, String.ltb. rewrite (String.compare_antisym b a).
  by destruct (String.compare a b).
Qed.

Lemma links_of_spec m stars star l :
  l ∈ links_of m stars star →
  ∃ n, n ∈ nearest stars star ∧
       String.ltb (body_id star) (body_id (neighbor n)) = true ∧
       l = link_between m star n.
Proof.
  unfold links_of. intros (n & Hl & Hn)%list_elem_of_bind.
  exists n. split; [done|].
  destruct (String.ltb _ _) eqn:Hlt; [|by apply elem_of_nil in Hl].
  apply list_elem_of_singleton in Hl as ->. split; [done|].
  unfold link_between. by rewrite ltb_linkId.
Qed.

Lemma nearest_length stars star :
  length (nearest stars star) = length (within_reach stars star) `min` 2.
Proof.
  unfold nearest. fold (within_reach stars star).
  rewrite length_take, sort_by_dist_Permutation. lia.
Qed.

Lemma links_of_length m stars star : length (links_of m stars star) ≤ 2.
Proof.
  unfold links_of.
  assert (H : ∀ l : list Neighbor,
            length (l ≫= λ n,
                      if String.ltb (body_id star) (body_id (neighbor n))
                      then [link_between m star n] else [])
            ≤ length l).
  { induction l as [|n l IH]; [done|]. cbn [mbind list_bind].
    rewrite length_app. destruct (String.ltb _ _); simpl; lia. }
  pose proof (nearest_length stars star).
  etrans; [|apply Nat.le_min_r with (n := length (within_reach stars star))].
  rewrite <- H0. etrans; [|apply (H (nearest stars star))].
  apply Nat.eq_le_incl. f_equal. apply list_bind_ext; [|done].
  intros n. destruct (String.ltb _ _) eqn:Hlt; [|done].
  unfold link_between. by rewrite ltb_linkId.
Qed.

Lemma bind_length_le {A B} (f : A → list B) (l : list A) k :
  (∀ a, length (f a) ≤ k) → length (l ≫= f) ≤ k * length l.
Proof.
  intros Hf. induction l as [|a l IH]; [simpl; lia|].
  cbn [mbind list_bind]. rewrite length_app. specialize (Hf a). simpl. lia.
Qed.

(** ** The star map: the constellation of a body *)

Lemma set_members_lookup (m : gmap string string) i (ids : list string) v :
  foldl (λ m sid, <[sid := i]> m) m ids !! v
  = if decide (v ∈ ids) then Some i else m !! v.
Proof.
  revert m. induction ids as [|sid ids IH]; intros m; [done|].
  cbn [foldl]. rewrite IH.
  destruct (decide (v ∈ ids)) as [Hin|Hnin].
  - rewrite decide_True; [done|by right].
  - destruct (decide (v = sid)) as [->|Hne].
    + rewrite lookup_insert_eq. rewrite decide_True; [done|left].
    + rewrite lookup_insert_ne by done.
      rewrite decide_False; [done|]. by intros [?|?]%elem_of_cons.
Qed.

(** The constellation of a body is the last one that lists it. *)
Lemma starToConstellation_lookup cs v :
  starToConstellation cs !! v
  = c_id <$> last (filter (λ c, v ∈ starIds c) cs).
Proof.
  unfold starToConstellation.
  assert (H : ∀ m : gmap string string,
            foldl (λ m c, foldl (λ m sid, <[sid := c_id c]> m) m (starIds c))
                  m cs !! v
            = match last (filter (λ c, v ∈ starIds c) cs) with
              | Some c => Some (c_id c)
              | None => m !! v
              end).
  { induction cs as [|c cs IH]; intros m; [done|].
    cbn [foldl]. rewrite IH, set_members_lookup.
    destruct (decide (v ∈ starIds c)) as [Hin|Hnin].
    - rewrite filter_cons_True by done.
      destruct (filter _ cs) as [|d l] eqn:Hf; [done|].
      rewrite !last_cons. by destruct (last l).
    - by rewrite filter_cons_False by done. }
  rewrite H. by destruct (last _).
Qed.

Lemma starToConstellation_Some cs v i :
  starToConstellation cs !! v = Some i →
  ∃ c, c ∈ cs ∧ v ∈ starIds c ∧ c_id c = i.
Proof.
  rewrite starToConstellation_lookup.
  destruct (last _) as [c|] eqn:Hlast; [|done]. intros [= <-].
  exists c. apply last_Some_elem_of, list_elem_of_filter in Hlast as [? ?]. done.
Qed.

Lemma starToConstellation_member cs c v :
  members_disjoint cs → c ∈ cs → v ∈ starIds c →
  starToConstellation cs !! v = Some (c_id c).
Proof.
  intros Hdisj Hc Hv. rewrite starToConstellation_lookup.
  destruct (last _) as [d|] eqn:Hlast.
  - apply last_Some_elem_of, list_elem_of_filter in Hlast as [Hvd Hd].
    simpl. f_equal. destruct (decide (c_id d = c_id c)) as [|Hne]; [done|].
    exfalso. by apply (Hdisj d c Hd Hc Hne v).
  - apply last_None in Hlast.
    assert (Hin : c ∈ filter (λ c, v ∈ starIds c) cs)
      by (by apply list_elem_of_filter).
    rewrite Hlast in Hin. by apply elem_of_nil in Hin.
Qed.

Lemma sameConstellation_true c1 c2 :
  sameConstellation c1 c2 = true ↔ ∃ i, i ≠ "" ∧ c1 = Some i ∧ c2 = Some i.
Proof.
  unfold sameConstellation. destruct c1 as [i|], c2 as [j|]; try naive_solver.
  rewrite !andb_true_iff, !bool_decide_eq_true. naive_solver.
Qed.

(** ** The star map: the labels *)

Lemma Map_set_fresh {A} k (v : A) m :
  k ∉ m.*1 → Map_set k v m = m ++ [(k, v)].
Proof.
  induction m as [|[k' v'] m IH]; intros Hk; [done|].
  cbn [Map_set]. rewrite fmap_cons, not_elem_of_cons in Hk. destruct Hk as [Hne Hk].
  rewrite decide_False by done. by rewrite IH.
Qed.

Lemma Map_get_fmap {A} (g : Constellation → A) cs c :
  ids_unique cs → c ∈ cs →
  Map_get (c_id c) ((λ d, (c_id d, g d)) <$> cs) = Some (g c).
Proof.
  induction cs as [|d cs IH]; intros Hu Hc; [by apply elem_of_nil in Hc|].
  cbn [fmap list_fmap Map_get].
  apply NoDup_cons in Hu as [Hd Hu].
  destruct (decide (c_id d = c_id c)) as [Heq|Hne].
  - apply elem_of_cons in Hc as [->|Hc]; [done|].
    exfalso. apply Hd. rewrite Heq. by apply list_elem_of_fmap_2.
  - apply elem_of_cons in Hc as [->|Hc]; [done|]. by apply IH.
Qed.

Lemma Map_set_fmap {A} (g : Constellation → A) cs c v :
  ids_unique cs → c ∈ cs →
  Map_set (c_id c) v ((λ d, (c_id d, g d)) <$> cs)
  = (λ d, (c_id d, if decide (c_id d = c_id c) then v else g d)) <$> cs.
Proof.
  induction cs as [|d cs IH]; intros Hu Hc; [by apply elem_of_nil in Hc|].
  cbn [fmap list_fmap Map_set].
  apply NoDup_cons in Hu as [Hd Hu].
  destruct (decide (c_id d = c_id c)) as [Heq|Hne].
  - rewrite Heq. f_equal. apply list_fmap_ext. intros i e He.
    rewrite decide_False; [done|]. intros Hee. apply Hd.
    rewrite Heq, <- Hee. apply list_elem_of_fmap_2.
    by eapply list_elem_of_lookup_2.
  - f_equal. apply elem_of_cons in Hc as [->|Hc]; [done|]. by apply IH.
Qed.

Lemma constellationData0_spec cs :
  ids_unique cs →
  constellationData0 cs = (λ c, (c_id c, data_of [] c)) <$> cs.
Proof.
  unfold constellationData0.
  assert (H : ∀ pre,
            ids_unique (pre ++ cs) →
            foldl (λ m c,
                     Map_set (c_id c)
                       {| xSum := 0; ySum := 0; count := 0;
                          label_name := c_name c |} m)
                  ((λ c, (c_id c, data_of [] c)) <$> pre) cs
            = (λ c, (c_id c, data_of [] c)) <$> (pre ++ cs)).
  { induction cs as [|c cs IH]; intros pre Hu; [by rewrite app_nil_r|].
    cbn [foldl]. rewrite Map_set_fresh.
    - specialize (IH (pre ++ [c])). rewrite fmap_app in IH.
      rewrite <- app_assoc in IH. by apply IH.
    - rewrite <- list_fmap_compose. unfold ids_unique in Hu.
      rewrite fmap_app, fmap_cons in Hu.
      apply NoDup_app in Hu as (_ & Hu & _). intros Hin.
      apply (Hu (c_id c)); [done|left]. }
  intros Hu. by apply (H []).
Qed.

Lemma sum_x_snoc l s : sum_x (l ++ [s]) = (sum_x l + x (coordinates s))%Q.
Proof. unfold sum_x. by rewrite foldl_app. Qed.

Lemma sum_y_snoc l s : sum_y (l ++ [s]) = (sum_y l + y (coordinates s))%Q.
Proof. unfold sum_y. by rewrite foldl_app. Qed.

Lemma members_in_snoc ss s c :
  members_in (ss ++ [s]) c
  = members_in ss c ++ (if decide (body_id s ∈ starIds c) then [s] else []).
Proof.
  unfold members_in. rewrite filter_app. f_equal.
Qed.

Lemma data_of_other ss s c :
  body_id s ∉ starIds c → data_of (ss ++ [s]) c = data_of ss c.
Proof.
  intros Hnot. unfold data_of. rewrite members_in_snoc, decide_False by done.
  by rewrite app_nil_r.
Qed.

Lemma data_of_member ss s c :
  body_id s ∈ starIds c →
  data_of (ss ++ [s]) c
  = {| xSum := xSum (data_of ss c) + x (coordinates s);
       ySum := ySum (data_of ss c) + y (coordinates s);
       count := count (data_of ss c) + 1;
       label_name := label_name (data_of ss c) |}.
Proof.
  intros Hin. unfold data_of. rewrite members_in_snoc, decide_True by done.
  cbn [xSum ySum count label_name].
  by rewrite sum_x_snoc, sum_y_snoc, length_app.
Qed.

Lemma add_to_centroid_spec cs seen s :
  ids_unique cs → members_disjoint cs → (∀ c, c ∈ cs → c_id c ≠ "") →
  add_to_centroid (starToConstellation cs)
    ((λ c, (c_id c, data_of seen c)) <$> cs) s
  = (λ c, (c_id c, data_of (seen ++ [s]) c)) <$> cs.
Proof.
  intros Hu Hdisj Hids. unfold add_to_centroid.
  destruct (starToConstellation cs !! body_id s) as [cId|] eqn:Hm.
  - apply starToConstellation_Some in Hm as (c & Hc & Hs & <-).
    rewrite decide_False by (by apply Hids).
    rewrite (Map_get_fmap (data_of seen) cs c Hu Hc).
    rewrite (Map_set_fmap (data_of seen) cs c _ Hu Hc).
    apply list_fmap_ext. intros i d Hd. f_equal.
    apply list_elem_of_lookup_2 in Hd.
    destruct (decide (c_id d = c_id c)) as [Heq|Hne].
    + rewrite (ids_unique_eq cs d c Hu Hd Hc Heq). by rewrite data_of_member.
    + rewrite data_of_other; [done|]. intros Hin.
      by apply (Hdisj d c Hd Hc Hne (body_id s)).
  - apply list_fmap_ext. intros i d Hd. f_equal.
    apply list_elem_of_lookup_2 in Hd.
    rewrite data_of_other; [done|]. intros Hin.
    by rewrite (starToConstellation_member cs d (body_id s)) in Hm.
Qed.

Lemma constellationData_spec ss cs :
  ids_unique cs → members_disjoint cs → (∀ c, c ∈ cs → c_id c ≠ "") →
  constellationData ss cs = (λ c, (c_id c, data_of ss c)) <$> cs.
Proof.
  intros Hu Hdisj Hids. unfold constellationData.
  rewrite constellationData0_spec by done.
  assert (H : ∀ seen,
            foldl (add_to_centroid (starToConstellation cs))
                  ((λ c, (c_id c, data_of seen c)) <$> cs) ss
            = (λ c, (c_id c, data_of (seen ++ ss) c)) <$> cs).
  { induction ss as [|s ss IH]; intros seen; [by rewrite app_nil_r|].
    cbn [foldl]. rewrite add_to_centroid_spec by done.
    rewrite IH, <- app_assoc. done. }
  apply (H []).
Qed.

(** The members of a constellation among the bodies are as many as its
    member identities. *)
Lemma members_in_length ss c :
  NoDup (body_id <$> ss) → NoDup (starIds c) →
  (∀ v, v ∈ starIds c → v ∈ body_id <$> ss) →
  length (members_in ss c) = length (starIds c).
Proof.
  intros Hss Hc Hknown. rewrite <- (length_fmap body_id (members_in ss c)).
  apply Permutation_length, NoDup_Permutation; [|done|].
  - eapply sublist_NoDup; [exact Hss|]. apply fmap_sublist, sublist_filter.
  - intros v. unfold members_in. split.
    + by intros (s & -> & [Hin _]%list_elem_of_filter)%list_elem_of_fmap.
    + intros Hv. pose proof (Hknown v Hv) as Hin.
      apply list_elem_of_fmap in Hin as (s & -> & Hs).
      apply list_elem_of_fmap_2. by apply list_elem_of_filter.
Qed.

(** ** Bodies are on the map *)

Section OnMap.

Variable sv : Services.
Hypothesis random_unit :
  ∀ t, (0 <= random_at (oracles sv) t)%Q ∧ (random_at (oracles sv) t < 1)%Q.

Lemma settle_on_map i t s :
  tasks s !! i = Some t → all_on_map s →
  all_on_map {| game := (settle sv t (game s)).2;
                tasks := <[i := (settle sv t (game s)).1]> (tasks s) |}.
Proof.
  intros Hi [Hstars Htasks]. unfold all_on_map. cbn [game tasks].
  destruct t as [depth|depth coords|sel|]; cbn [settle fst snd].
  - split; [by state_simpl|]. apply Forall_insert; [done|].
    cbn [task_on_map]. unfold on_map. cbn [x y]. state_simpl.
    destruct (random_unit (clock (universe (game s)))).
    destruct (random_unit (S (clock (universe (game s))))).
    repeat split; Lqa.lra.
  - split; [|by apply Forall_insert].
    destruct (scanned_frame sv depth coords (game s))
      as ([->|(body & _ & Hc & _ & ->)] & _); [done|].
    apply Forall_app. split; [done|]. apply Forall_singleton. rewrite Hc.
    by apply (Forall_lookup_1 _ _ _ _ Htasks Hi).
  - split; [|by apply Forall_insert].
    destruct (analysed_frame sv sel (game s)) as (-> & _).
    apply Forall_fmap. eapply Forall_impl; [exact Hstars|].
    intros b Hb. cbn [compose]. by destruct (decide _).
  - split; [done|]. by rewrite list_insert_id.
Qed.

Lemma act_on_map a s :
  all_on_map s → ∃ s', act sv a s = Some s' ∧ all_on_map s'.
Proof.
  intros Hok. destruct (act_total sv a s) as (s' & Hact).
  exists s'. split; [done|]. destruct Hok as [Hstars Htasks].
  destruct a as [| | |i| | |i| | |i]; cbn [act] in Hact.
  - by injection Hact as <-.
  - injection Hact as <-. split; [|done]. cbn [on_game game].
    by destruct (triggerGaze_frame sv (game s)) as (-> & _).
  - injection Hact as <-. split.
    + by destruct (handleScan_frame sv s) as (-> & _).
    + destruct (handleScan_cases sv s) as [->|(_ & _ & -> & _)]; [done|].
      apply Forall_app. split; [done|]. by apply Forall_singleton.
  - destruct (stars _ !! i); by injection Hact as <-.
  - by injection Hact as <-.
  - injection Hact as <-. split.
    + by destruct (handleAnalyze_frame sv s) as (-> & _).
    + unfold handleAnalyze. destruct (selectedStar (game s)); [|done].
      destruct (_ || _); [done|]. destruct (Qlt_bool _ _); [done|].
      cbn [tasks]. apply Forall_app. split; [done|]. by apply Forall_singleton.
  - injection Hact as <-. split; [|done]. cbn [on_game game].
    by destruct (buyUpgrade_frame sv i (game s)) as (-> & _).
  - injection Hact as <-. split; [|done]. constructor.
  - destruct (chart sv (game s)) as [g'|] eqn:Hchart; [|done].
    injection Hact as <-. split; [|done]. cbn [game].
    by destruct (chart_frame sv _ _ Hchart) as (-> & _).
  - destruct (tasks s !! i) as [t|] eqn:Hi; injection Hact as <-; [|done].
    by apply settle_on_map.
Qed.

End OnMap.

Lemma services0_random_unit t :
  (0 <= random_at (oracles services0) t)%Q ∧
  (random_at (oracles services0) t < 1)%Q.
Proof.
  cbn [services0 oracles random_at env0].
  pose proof (Nat.mod_upper_bound t 8) as Hlt.
  set (n := t `mod` 8) in *.
  unfold Qle, Qlt, Qdiv, Qmult, Qinv, inject_Z. simpl. lia.
Qed.

(** ** The price of an analysis *)

Lemma analysis_cost_closed_form (l : nat) :
  Qfloor (50 * (1 - Qmin 0.5 (number l * 0.1)))
  = (50 - 5 * Z.of_nat (l `min` 5))%Z.
Proof.
  assert (Hq : (50 * (1 - Qmin 0.5 (number l * 0.1))
                == inject_Z (50 - 5 * Z.of_nat (l `min` 5)))%Q).
  { destruct (decide (l ≤ 5)) as [Hle|Hgt].
    - rewrite Nat.min_l by done.
      assert (number l <= 5)%Q.
      { unfold number. change 5%Q with (inject_Z 5). rewrite <- Zle_Qle. lia. }
      rewrite Q.min_r by Lqa.lra.
      unfold Z.sub. rewrite inject_Z_plus, inject_Z_opp, inject_Z_mult.
      fold (number l). change (inject_Z 50) with 50%Q.
      change (inject_Z 5) with 5%Q. Lqa.lra.
    - rewrite Nat.min_r by lia.
      assert (5 <= number l)%Q.
      { unfold number. change 5%Q with (inject_Z 5). rewrite <- Zle_Qle. lia. }
      rewrite Q.min_l by Lqa.lra. reflexivity. }
  rewrite Hq. apply Qfloor_Z.
Qed.

(** ** The claims *)

(** C1. After any sequence of reconciliation calls that starts from an
    empty constellation list, two constellations at different positions of
    the list share no member id, and every constellation has at least three
    (distinct) member ids.  [uuidv4] is taken to return a new identity at
    every call. *)
Theorem constellations_disjoint_after_calls env calls w :
  Inj (=) (=) (uuid_at env) →
  constellations w = [] →
  ∃ w', run_calls env calls w = Some w' ∧
        (∀ i j c d, i ≠ j →
           constellations w' !! i = Some c → constellations w' !! j = Some d →
           ∀ v, v ∈ starIds c → v ∉ starIds d) ∧
        (∀ c, c ∈ constellations w' →
              3 ≤ length (starIds c) ∧ NoDup (starIds c)).
Proof.
  intros Hinj Hnil.
  destruct (run_calls_ok env Hinj calls w (world_ok_empty env w Hnil))
    as (w' & Hrun & [[Hu _] [Hd He]]).
  exists w'. split; [done|]. split; [|done].
  intros i j c d Hne Hi Hj v Hv1 Hv2.
  apply (Hd c d) with v; [by eapply list_elem_of_lookup_2..| |done|done].
  by eapply ids_unique_lookup.
Qed.

(** C2. Reconciliation is idempotent: a second call on the same bodies,
    with the list the first call left, returns the very same state: the
    same list, the same resources (no reward), the same log (no entry), and
    no oracle was consulted.  The identities of the list are pairwise
    distinct and [uuidv4] returns none of them. *)
Theorem reconciliation_idempotent env ss w :
  Inj (=) (=) (uuid_at env) →
  ids_ok env (clock w) (constellations w) →
  ∃ w1, checkForConstellations env ss (constellations w) w = Some w1 ∧
        checkForConstellations env ss (constellations w1) w1 = Some w1.
Proof.
  intros Hinj Hids.
  destruct (decide (length ss < 3)) as [Hlt|Hge].
  - exists w. by rewrite checkForConstellations_few.
  - destruct (checkForConstellations_run env ss w)
      as (clusters & w1 & Hfind & Hgood & Hdisj & Hrun & Hcs & _ & _ & Hclock & _);
      [lia|].
    exists w1. split; [done|].
    assert (Hne : ∀ K, K ∈ clusters → K ≠ []).
    { intros K HK. eapply good_cluster_nonempty. by apply Hgood. }
    destruct (foldM_reconcile_spec env Hinj clusters (loc_of w) w [])
      as (_ & [Hu _] & Hsettled); try done.
    { intros K1 K HK1. by apply elem_of_nil in HK1. }
    { intros K1 HK1. by apply elem_of_nil in HK1. }
    rewrite <- Hcs in Hu, Hsettled.
    unfold checkForConstellations.
    rewrite (proj2 (Nat.ltb_ge _ _) (proj1 (Nat.nlt_ge _ _) Hge)), Hfind.
    fold (loc_of w1). rewrite foldM_settled; done.
Qed.


(** C4. A cluster that overlaps no constellation: exactly one constellation
    is appended; its members are the cluster, its identity is the next
    value of [uuidv4] (carried by no constellation of the list when
    [uuidv4] returns none of their identities), and its timestamp the next
    value of [Date.now]; the starlight grows by [50 + 10 * size], the data
    by [20 + 5 * size] (80 and 35 for three bodies), the focus is
    unchanged, and one log entry of type [constellation] announcing these
    amounts is put in front of the log. *)
Theorem create_on_no_overlap env K loc w :
  filter (overlapping K) (updatedConstellations loc) = [] →
  ∃ t, clock w < t ∧
    let name := name_in env (length K) w in
    let c := created env name K t in
    (reconcile env K loc w).1
    = {| updatedConstellations := updatedConstellations loc ++ [c];
         hasChanges := true |} ∧
    starIds c = K ∧ c_id c = uuid_at env t ∧ discoveredAt c = now_at env (S t) ∧
    (ids_fresh env (clock w) (updatedConstellations loc) →
     c_id c ∉ c_id <$> updatedConstellations loc) ∧
    starlight (resources (reconcile env K loc w).2)
    = (starlight (resources w) + inject_Z (Z.of_nat (50 + 10 * length K)))%Q ∧
    data (resources (reconcile env K loc w).2)
    = (data (resources w) + inject_Z (Z.of_nat (20 + 5 * length K)))%Q ∧
    focus (resources (reconcile env K loc w).2) = focus (resources w) ∧
    logs (reconcile env K loc w).2
    = take 50 ({| log_id := uuid_at env (t + 2);
                  timestamp := now_at env (t + 3);
                  message := charted_message name K;
                  log_type := constellation |} :: logs w) ∧
    (length K = 3 →
     starlight (resources (reconcile env K loc w).2)
     = (starlight (resources w) + 80)%Q ∧
     data (resources (reconcile env K loc w).2)
     = (data (resources w) + 35)%Q).
Proof.
  intros Hf. unfold reconcile. rewrite Hf.
  destruct (create_constellation_spec env K loc w)
    as (t & Ht & Hclock & -> & -> & _ & _ & ->).
  exists t. split; [done|]. cbv zeta.
  unfold add_reward, rewardStarlight, rewardData, charted_entry.
  cbn [starlight data focus fst snd starIds c_id discoveredAt created].
  rewrite (Nat.mul_comm (length K) 10), (Nat.mul_comm (length K) 5).
  replace (S (t + 2)) with (t + 3) by lia.
  do 4 (split; [done|]). split; [intros Hfresh; apply Hfresh; lia|].
  do 4 (split; [done|]). by intros ->.
Qed.


(** C6, amended.  When the naming request fails, [generateConstellationName]
    still returns a name: a prefix and a root, separated by a space, each
    picked from its fixed pool of eight words by a draw of [Math.random];
    the name is not empty.  The constellation is created all the same, with
    its identity and with the reward of [50 + 10 * size] starlight and
    [20 + 5 * size] data. *)
Theorem creation_survives_naming_failure env K loc w :
  generateContent_at env (clock w) (length K) = Throws →
  (0 <= random_at env (S (clock w)))%Q ∧ (random_at env (S (clock w)) < 1)%Q →
  (0 <= random_at env (S (S (clock w))))%Q ∧
  (random_at env (S (S (clock w))) < 1)%Q →
  filter (overlapping K) (updatedConstellations loc) = [] →
  let prefix := pick prefixes (random_at env (S (clock w))) in
  let root := pick roots (random_at env (S (S (clock w)))) in
  let name := name_in env (length K) w in
  name = prefix +:+ " " +:+ root ∧ prefix ∈ prefixes ∧ root ∈ roots ∧
  name ≠ "" ∧
  ∃ t,
    (reconcile env K loc w).1
    = {| updatedConstellations :=
           updatedConstellations loc
           ++ [{| c_id := uuid_at env t; c_name := name; starIds := K;
                  discoveredAt := now_at env (S t) |}];
         hasChanges := true |} ∧
    starlight (resources (reconcile env K loc w).2)
    = (starlight (resources w) + inject_Z (Z.of_nat (50 + 10 * length K)))%Q ∧
    data (resources (reconcile env K loc w).2)
    = (data (resources w) + inject_Z (Z.of_nat (20 + 5 * length K)))%Q.
Proof.
  intros Hthrow [Hu0 Hu1] [Hv0 Hv1] Hf. cbv zeta.
  split; [by apply fallback_name|].
  split; [by apply pick_in_pool|]. split; [by apply pick_in_pool|].
  split.
  { rewrite fallback_name by done. apply append_nonempty. discriminate. }
  unfold reconcile. rewrite Hf.
  destruct (create_constellation_spec env K loc w)
    as (t & Ht & Hclock & -> & -> & _).
  exists t. unfold add_reward, rewardStarlight, rewardData, created.
  cbn [starlight data].
  by rewrite (Nat.mul_comm (length K) 10), (Nat.mul_comm (length K) 5).
Qed.

(** C7. The search for clusters always succeeds, and every cluster has at
    least three (distinct) ids.  An id whose connected component has at
    most two ids is in no cluster.  With fewer than three bodies, or when
    no component has more than two ids, there is no cluster and
    reconciliation returns the state it was given. *)
Theorem clusters_have_three_members env ss cs w :
  ∃ clusters,
    findClusters ss = Some clusters ∧
    (∀ K, K ∈ clusters → 3 ≤ length K ∧ NoDup K) ∧
    (∀ a, component_at_most 2 ss a → ∀ K, K ∈ clusters → a ∉ K) ∧
    (length ss < 3 ∨ (∀ s, s ∈ ss → component_at_most 2 ss (body_id s)) →
     clusters = [] ∧ checkForConstellations env ss cs w = Some w).
Proof.
  destruct (findClusters_spec ss) as (clusters & Hfind & Hgood & _).
  exists clusters. split; [done|].
  assert (Hsmall : ∀ a, component_at_most 2 ss a → ∀ K, K ∈ clusters → a ∉ K).
  { intros a (l & Hl & Hall) K HK Ha.
    destruct (Hgood K HK) as (Hlen & Hnd & _ & Hconn).
    assert (Hsub : K ⊆+ l).
    { apply NoDup_submseteq; [done|]. intros b Hb. by apply Hall, Hconn. }
    apply submseteq_length in Hsub. lia. }
  split; [|split; [done|]].
  { intros K HK. destruct (Hgood K HK) as (? & ? & _). done. }
  intros Hcase.
  assert (Hnil : clusters = []).
  { destruct clusters as [|K clusters]; [done|]. exfalso.
    destruct (Hgood K) as (Hlen & Hnd & Hids & _); [left|].
    destruct Hcase as [Hfew|Hall].
    - assert (Hsub : K ⊆+ body_id <$> ss) by by apply NoDup_submseteq.
      apply submseteq_length in Hsub. rewrite length_fmap in Hsub. lia.
    - destruct K as [|a K]; [simpl in Hlen; lia|].
      assert (Ha : a ∈ body_id <$> ss) by (apply Hids; left).
      apply list_elem_of_fmap in Ha as (s & -> & Hs).
      apply (Hsmall (body_id s) (Hall s Hs) (body_id s :: K)); left. }
  split; [done|]. unfold checkForConstellations.
  destruct (length ss <? 3); [done|]. by rewrite Hfind, Hnil.
Qed.

(** C8, amended.  The adjacency lists hold exactly the pairs of ids carried
    by two bodies of the list that pass the test [Math.hypot(dx, dy) < 180],
    applied to the value that [Math.hypot] returns for the body at the lower
    position first.  That value is a rounded one.  When, on the pairs of
    the list, it is within [ε] of the Euclidean distance: two bodies nearer
    than [180 - ε] are adjacent; when the ids of the list are pairwise
    distinct, two adjacent bodies are nearer than [180 + ε]; and two ids of
    one cluster, at whatever distance, are joined by a path whose every
    step joins two bodies nearer than [180 + ε].  Where [Math.hypot] is
    exact ([ε = 0]), adjacent means nearer than 180. *)
Theorem adjacency_is_proximity_up_to_rounding ε ss :
  (∀ a b, b ∈ neighbors (buildAdjacency ss) a ↔ edge ss a b) ∧
  (accurate ε ss →
   (∀ i j s1 s2, i ≠ j → ss !! i = Some s1 → ss !! j = Some s2 →
      ((distance s1 s2 < 180 - ε)%R →
       body_id s2 ∈ neighbors (buildAdjacency ss) (body_id s1)) ∧
      (NoDup (body_id <$> ss) →
       body_id s2 ∈ neighbors (buildAdjacency ss) (body_id s1) →
       (distance s1 s2 < 180 + ε)%R)) ∧
   ∃ clusters, findClusters ss = Some clusters ∧
     ∀ K a b, K ∈ clusters → a ∈ K → b ∈ K →
              rtc (adjacent (180 + ε) ss) a b).
Proof.
  split; [apply buildAdjacency_edge|]. intros Hacc. split.
  - intros i j s1 s2 Hne Hi Hj. rewrite buildAdjacency_edge. split.
    + intros Hd. apply (adjacent_edge ε); [done|].
      by exists i, j, s1, s2.
    + intros Hnd Hedge.
      apply (edge_adjacent ε) in Hedge
        as (i' & j' & t1 & t2 & _ & Hi' & Hj' & H1 & H2 & Hd); [|done].
      destruct (body_at_unique ss i' i t1 s1 Hnd Hi' Hi H1) as [_ ->].
      destruct (body_at_unique ss j' j t2 s2 Hnd Hj' Hj H2) as [_ ->].
      done.
  - destruct (findClusters_spec ss) as (clusters & Hfind & Hgood & _).
    exists clusters. split; [done|]. intros K a b HK Ha Hb.
    destruct (Hgood K HK) as (_ & _ & _ & Hconn).
    eapply rtc_subrel; [|by apply Hconn].
    intros u v. by apply edge_adjacent.
Qed.

(** C9, amended.  Passes are not serialised: a pass is started on the list
    committed so far ([deliver]), and a suspended pass that is resumed
    leaves that list alone unless it returns.  Under every interleaving of
    hook firings and settled naming promises that starts from an empty
    list, no event fails, the committed list has pairwise disjoint member
    sets and three members or more per constellation, and so has the local
    list of every suspended pass.  [uuidv4] is taken to return a new
    identity at every call. *)
Theorem interleaved_passes_keep_disjointness env es w :
  Inj (=) (=) (uuid_at env) →
  constellations w = [] →
  ∃ c, run_events env es (config0 w) = Some c ∧
       disjoint_and_large (constellations (world c)) ∧
       (∀ K rest loc, Awaiting K rest loc ∈ passes c →
                      disjoint_and_large (updatedConstellations loc)) ∧
       (∀ i p, passes c !! i = Some p →
               (resume env p (world c)).1 ≠ Finished →
               constellations (resume env p (world c)).2
               = constellations (world c)).
Proof.
  intros Hinj Hnil.
  destruct (run_events_ok env Hinj es (config0 w)) as (c & Hrun & Hw & Hps).
  { split; [by apply world_ok_empty|]. intros p Hp. by apply elem_of_nil in Hp. }
  exists c. split; [done|]. split; [|split].
  - apply ok_disjoint_and_large; apply Hw.
  - intros K rest loc Hin. destruct (Hps _ Hin) as ([Hu _] & Hm & _).
    by apply ok_disjoint_and_large.
  - intros i p _. apply resume_constellations.
Qed.

(** C10. A reconciliation pass always returns and leaves the bodies and
    the focus as they are; neither the starlight nor the data decreases.
    When the identities of the list are pairwise distinct and [uuidv4]
    returns new ones, the starlight grows by exactly the sum of
    [50 + 10 * size], and the data by the sum of [20 + 5 * size], over the
    constellations created by the pass (those of the new list whose
    identity was not in the old one): one reward for each, and nothing
    else. *)
Theorem reconciliation_only_adds_rewards env ss w :
  ∃ w', checkForConstellations env ss (constellations w) w = Some w' ∧
        stars w' = stars w ∧
        focus (resources w') = focus (resources w) ∧
        (starlight (resources w) <= starlight (resources w'))%Q ∧
        (data (resources w) <= data (resources w'))%Q ∧
        (Inj (=) (=) (uuid_at env) →
         ids_ok env (clock w) (constellations w) →
         let new := created_since (constellations w) (constellations w') in
         (starlight (resources w')
          == starlight (resources w)
             + inject_Z (Z.of_nat (total_starlight new)))%Q ∧
         (data (resources w')
          == data (resources w) + inject_Z (Z.of_nat (total_data new)))%Q).
Proof.
  destruct (checkForConstellations_frame env ss (constellations w) w)
    as (w' & Hrun & Hst & Hf & Hsl & Hdl).
  exists w'. do 5 (split; [done|]). intros Hinj Hids. cbv zeta.
  destruct (decide (length ss < 3)) as [Hlt|Hge].
  - rewrite checkForConstellations_few in Hrun by done.
    injection Hrun as <-. rewrite created_since_self. simpl. split; ring.
  - destruct (checkForConstellations_run env ss w)
      as (clusters & w1 & Hfind & Hgood & Hdisj & Hrun1 & Hcs & Hres & _);
      [lia|].
    rewrite Hrun in Hrun1. injection Hrun1 as <-.
    rewrite Hcs, Hres.
    destruct (foldM_reconcile_adds env Hinj (constellations w) clusters
                (loc_of w) w) as (extra & Hc & Hs & Hd); try done.
    { apply Hids. }
    { intros c K Hc. simpl in Hc. rewrite created_since_self in Hc.
      by apply elem_of_nil in Hc. }
    simpl in Hc. rewrite created_since_self in Hc. simpl in Hc.
    rewrite Hc. done.
Qed.

(** ** Properties of the components, the passes, the game and the star map *)

(** X1. The clusters are exactly the connected components with three ids
    or more: a cluster holds every id connected to one of its members and
    no other, and an id of the list is in some cluster if and only if its
    component has more than two ids. *)
Theorem clusters_are_components ss :
  ∃ clusters,
    findClusters ss = Some clusters ∧
    (∀ K a b, K ∈ clusters → a ∈ K → (b ∈ K ↔ connected ss a b)) ∧
    (∀ a, a ∈ body_id <$> ss →
          ((∃ K, K ∈ clusters ∧ a ∈ K) ↔ ¬ component_at_most 2 ss a)).
Proof.
  destruct (findClusters_components ss)
    as (clusters & Hfind & Hgood & _ & Hmax & Hin).
  exists clusters. split; [done|]. split.
  - intros K a b HK Ha. split; [|by apply (Hmax K)].
    intros Hb. destruct (Hgood K HK) as (_ & _ & _ & Hconn). by apply Hconn.
  - intros a Ha. split; [|by apply Hin].
    intros (K & HK & HaK). apply (good_cluster_large ss K); [by apply Hgood|done].
Qed.

(** X2. The clusters do not depend on the order of the body list: a
    permutation of the list gives clusters with the same members.  The
    order decides which of two bodies is subtracted from the other, so
    that [Math.hypot] must take no account of the signs of its
    arguments. *)
Theorem clusters_order_independent ss ss' :
  sign_blind →
  ss ≡ₚ ss' →
  ∃ clusters clusters',
    findClusters ss = Some clusters ∧ findClusters ss' = Some clusters' ∧
    (∀ K, K ∈ clusters → ∃ K', K' ∈ clusters' ∧ K ≡ₚ K') ∧
    (∀ K', K' ∈ clusters' → ∃ K, K ∈ clusters ∧ K ≡ₚ K').
Proof.
  intros Hblind Hp.
  destruct (findClusters_spec ss) as (clusters & Hfind & _).
  destruct (findClusters_spec ss') as (clusters' & Hfind' & _).
  exists clusters, clusters'. split; [done|]. split; [done|]. split.
  - by apply (findClusters_Permutation_sub ss ss').
  - intros K' HK'.
    destruct (findClusters_Permutation_sub ss' ss clusters' clusters
                Hblind (symmetry Hp) Hfind' Hfind K' HK') as (K & HK & HKK).
    exists K. split; [done|]. by symmetry.
Qed.

(** X3. The clusters depend only on the ids and the coordinates of the
    bodies: two lists that agree on these, body by body, give the same
    clusters in the same order, whatever the names, descriptions, analysis
    flags and other fields are. *)
Theorem clusters_depend_on_id_and_place ss ss' :
  Forall2 same_place ss ss' → findClusters ss = findClusters ss'.
Proof.
  apply findClusters_same_place.
Qed.

(** X4. After a pass, every body whose connected component has three ids
    or more belongs to exactly one constellation, and that constellation
    holds the whole component.  The identities in the list the pass starts
    from are distinct and not handed out again. *)
Theorem large_components_are_charted env ss w :
  Inj (=) (=) (uuid_at env) →
  ids_ok env (clock w) (constellations w) →
  ∃ w', checkForConstellations env ss (constellations w) w = Some w' ∧
        ∀ a, a ∈ body_id <$> ss → ¬ component_at_most 2 ss a →
             ∃ c, c ∈ constellations w' ∧
                  (∀ b, connected ss a b → b ∈ starIds c) ∧
                  ∀ d, d ∈ constellations w' → a ∈ starIds d → d = c.
Proof. apply checkForConstellations_covers. Qed.

(** X5. Passes that run one after the other, each to its end before the
    next is started ([run_calls]), never drop a member: a body that is in
    a constellation before is in a constellation afterwards.  The state
    before is well formed.  Passes that interleave in the event loop
    ([run_events]) can drop a member. *)
Theorem members_are_never_dropped env calls w :
  Inj (=) (=) (uuid_at env) →
  world_ok env w →
  ∃ w', run_calls env calls w = Some w' ∧
        ∀ c v, c ∈ constellations w → v ∈ starIds c →
               ∃ c', c' ∈ constellations w' ∧ v ∈ starIds c'.
Proof.
  intros uuid_inj Hok.
  destruct (run_calls_history env uuid_inj calls w Hok)
    as (w' & Hrun & _ & _ & Hkeeps & _).
  exists w'. split; [done|]. exact Hkeeps.
Qed.

(** X6. Through passes that run one after the other, each to its end
    before the next is started ([run_calls]), a constellation keeps its
    identity, its name and its date of discovery and only gains members:
    each constellation afterwards is one from before, grown, or carries an
    identity that was not in use before.  The state before is well
    formed.  Among passes that interleave in the event loop
    ([run_events]) a constellation can lose a member. *)
Theorem constellations_keep_identity env calls w :
  Inj (=) (=) (uuid_at env) →
  world_ok env w →
  ∃ w', run_calls env calls w = Some w' ∧
        ∀ c', c' ∈ constellations w' →
              (∃ c, c ∈ constellations w ∧ grown_from c c') ∨
              c_id c' ∉ c_id <$> constellations w.
Proof.
  intros uuid_inj Hok.
  destruct (run_calls_history env uuid_inj calls w Hok)
    as (w' & Hrun & _ & _ & _ & Hdesc).
  exists w'. split; [done|]. intros c' Hc'.
  destruct (Hdesc c' Hc') as [?|(t & Ht & ->)]; [by left|].
  right. destruct Hok as [[_ Hfresh] _]. by apply Hfresh.
Qed.


(** X8. Every constellation has a name: whatever the naming service
    answers (a name, an empty name or a failure) and whatever the random
    numbers are, a sequence of passes that starts from named constellations
    ends with named constellations. *)
Theorem constellations_always_named env calls w :
  all_named (constellations w) →
  ∃ w', run_calls env calls w = Some w' ∧ all_named (constellations w').
Proof.
  revert w. induction calls as [|ss calls IH]; intros w Hnamed.
  - by exists w.
  - simpl.
    destruct (checkForConstellations_named env ss w Hnamed) as (w1 & -> & H1).
    by apply IH.
Qed.

(** X9. The game loop in closed form: [n] ticks in a row add [n] times the
    passive starlight, leave the data alone and fill the focus up to the
    cap, that is to the smaller of the cap and the focus before plus [n]
    times the regeneration; nothing but the resources changes. *)
Theorem ticks_closed_form sv n s :
  ∃ s', play sv (replicate n Tick) s = Some s' ∧
        tasks s' = tasks s ∧
        game s' = exec (setResources (λ _, purse s')) (game s) ∧
        (starlight (purse s')
         == starlight (purse s) + number n * passiveStarlight (game s))%Q ∧
        data (purse s') = data (purse s) ∧
        (focus (purse s')
         == match n with
            | O => focus (purse s)
            | S _ => Qmin (maxFocus (game s))
                       (focus (purse s) + number n * focusRegen (game s))
            end)%Q.
Proof.
  revert s. induction n as [|n IH]; intros s.
  - exists s. split; [done|]. split; [done|]. split.
    { by destruct s as [[[] ? ? ? ? ?] ?]. }
    split; [|done]. unfold number. simpl. ring.
  - destruct (IH (on_game gameLoop s)) as (s' & Hplay & Htasks & Hgame & Hsl & Hd & Hf).
    exists s'. split; [done|]. split; [done|]. split; [by rewrite Hgame|].
    split; [|split; [by rewrite Hd|]].
    + rewrite Hsl, number_S. unfold purse. cbn [on_game game].
      rewrite gameLoop_resources. cbn [starlight].
      change (passiveStarlight (gameLoop (game s)))
        with (passiveStarlight (game s)).
      ring.
    + pose proof (focusRegen_pos (game s)) as Hr.
      assert (Hfirst : (focus (purse (on_game gameLoop s))
                        == Qmin (maxFocus (game s))
                             (focus (purse s) + focusRegen (game s)))%Q)
        by reflexivity.
      change (maxFocus (game (on_game gameLoop s))) with (maxFocus (game s)) in Hf.
      change (focusRegen (game (on_game gameLoop s)))
        with (focusRegen (game s)) in Hf.
      destruct n as [|n]; rewrite Hf, Hfirst.
      * apply Q.min_compat; [reflexivity|]. unfold number. simpl. ring.
      * pose proof (number_nonneg (S n)) as Hn.
        rewrite Qmin_Qmin_add
          by (apply Qmult_le_0_compat; [done|by apply Qlt_le_weak]).
        apply Q.min_compat; [reflexivity|]. rewrite (number_S (S n)). ring.
Qed.

(** X10. Gazing is rate limited whatever the upgrades are: of [n] calls of
    [triggerGaze] in a row, [k] are accepted; each accepted call pays the
    gaze gain, and the time of the last accepted call moves on by at least
    fifty milliseconds with each of them, to a time read from the clock
    during these calls. *)
Theorem gaze_is_rate_limited sv n s :
  ∃ s' k,
    play sv (replicate n Gaze) s = Some s' ∧ k ≤ n ∧
    (starlight (purse s')
     == starlight (purse s) + number k * gazeGain (game s))%Q ∧
    (lastGazeTime (game s) + 50 * Z.of_nat k ≤ lastGazeTime (game s'))%Z ∧
    (k = 0 → lastGazeTime (game s') = lastGazeTime (game s)) ∧
    (0 < k → ∃ t, clock (universe (game s)) ≤ t < clock (universe (game s)) + n ∧
                  lastGazeTime (game s') = now_at (oracles sv) t).
Proof.
  revert s. induction n as [|n IH]; intros s.
  - exists s, 0. split; [done|]. split; [done|].
    split; [unfold number; simpl; ring|].
    split; [lia|]. split; [done|]. lia.
  - destruct (IH (on_game (triggerGaze sv) s))
      as (s' & k1 & Hplay & Hk1 & Hsl & Hlast & Hzero & Hpos).
    destruct (triggerGaze_cases sv (game s))
      as (Hups & Hclock & [[Hl Hr]|(Hwait & Hl & Hr)]).
    + exists s', k1. split; [done|]. split; [lia|].
      cbn [on_game game] in *. unfold purse in *. cbn [on_game game] in *.
      unfold gazeGain in *. rewrite Hups, Hr in Hsl. rewrite Hl in Hlast, Hzero.
      split; [done|]. split; [done|]. split; [done|].
      intros Hk. destruct (Hpos Hk) as (t & Ht & Heq).
      exists t. split; [lia|done].
    + exists s', (S k1). split; [done|]. split; [lia|].
      cbn [on_game game] in *. unfold purse in *. cbn [on_game game] in *.
      unfold gazeGain in *. rewrite Hups, Hr in Hsl. rewrite Hl in Hlast, Hzero.
      split; [|split; [lia|split; [lia|]]].
      * rewrite Hsl, (number_S k1). cbn [starlight]. ring.
      * intros _. destruct k1 as [|k1].
        -- exists (clock (universe (game s))). split; [lia|]. by apply Hzero.
        -- destruct Hpos as (t & Ht & Heq); [lia|].
           exists t. split; [lia|done].
Qed.

(** X11. No sequence of actions overdraws the resources: if starlight,
    data and focus are not negative before, they are not negative after,
    whatever the player does, whenever the timers fire and whatever the
    services answer. *)
Theorem resources_never_negative sv actions s :
  solvent (purse s) →
  ∃ s', play sv actions s = Some s' ∧ solvent (purse s').
Proof.
  intros H.
  apply (play_invariant sv (λ _, True) (λ s, solvent (purse s)));
    [|apply Forall_any_action|done].
  intros a s0 _. apply act_solvent.
Qed.

(** X12. The upgrades stay those of the catalogue: after any sequence of
    actions the list of upgrades is [UPGRADES] in its order with only the
    levels changed, and no level exceeds the largest level of its upgrade.
    The same holds before. *)
Theorem upgrades_stay_in_catalogue sv actions s :
  upgrades_ok (upgrades (game s)) →
  ∃ s', play sv actions s = Some s' ∧ upgrades_ok (upgrades (game s')).
Proof.
  intros H.
  apply (play_invariant sv (λ _, True) (λ s, upgrades_ok (upgrades (game s))));
    [|apply Forall_any_action|done].
  intros a s0 _. apply act_upgrades_ok.
Qed.

(** X13. The focus never exceeds its cap, and the cap never exceeds 600:
    after any sequence of actions the focus is at most 100 plus 50 for each
    level of the focus condenser, which has ten levels at most.  Before,
    the focus is within its cap and the upgrades are those of the
    catalogue. *)
Theorem focus_stays_capped sv actions s :
  capped (game s) → upgrades_ok (upgrades (game s)) →
  ∃ s', play sv actions s = Some s' ∧
        (focus (purse s') <= maxFocus (game s'))%Q ∧
        (maxFocus (game s') <= 600)%Q.
Proof.
  intros Hcap Hups.
  destruct (play_invariant sv (λ _, True)
              (λ s, capped (game s) ∧ upgrades_ok (upgrades (game s))))
    with (actions := actions) (s := s) as (s' & Hplay & Hcap' & Hups').
  - intros a s0 _ [H1 H2].
    destruct (act_capped sv a s0 H1) as (s1 & Hact & Hc1).
    destruct (act_upgrades_ok sv a s0 H2) as (s2 & Hact2 & Hu2).
    rewrite Hact in Hact2. injection Hact2 as <-. by exists s1.
  - apply Forall_any_action.
  - done.
  - exists s'. split; [done|]. split; [done|]. by apply maxFocus_le.
Qed.

(** X14. Short of a reset, a game never holds more than 388 bodies: a scan
    among [d] bodies costs 20 + floor(1.5 d) focus, the focus never exceeds
    600, and one scan is in flight at a time.  Before, the focus is within
    its cap, the upgrades are those of the catalogue, and the bodies found
    and the scans in flight are within this budget. *)
Theorem at_most_388_bodies sv actions s :
  Forall (λ a, a ≠ Reset) actions → bounded s →
  ∃ s', play sv actions s = Some s' ∧
        length (stars (universe (game s'))) ≤ 388.
Proof.
  intros Hall Hb.
  destruct (play_invariant sv (λ a, a ≠ Reset) bounded (act_bounded sv)
              actions s Hall Hb) as (s' & Hplay & _ & _ & Hlen & _).
  exists s'. split; [done|]. lia.
Qed.

(** X15. The log never grows beyond fifty entries: if it holds fifty
    entries at most before, it does after any sequence of actions. *)
Theorem log_never_exceeds_fifty sv actions s :
  log_bounded (universe (game s)) →
  ∃ s', play sv actions s = Some s' ∧ log_bounded (universe (game s')).
Proof.
  intros H.
  apply (play_invariant sv (λ _, True) (λ s, log_bounded (universe (game s))));
    [|apply Forall_any_action|done].
  intros a s0 _. apply act_log_bounded.
Qed.

(** X16. Short of a reset, a body that has been found stays: after any
    sequence of actions the body list starts with the bodies it held
    before, in their order, each with its identity, its name and its
    coordinates, and analysed if it was. *)
Theorem bodies_persist sv actions s :
  Forall (λ a, a ≠ Reset) actions →
  ∃ s', play sv actions s = Some s' ∧
        sky_extends (stars (universe (game s))) (stars (universe (game s'))).
Proof.
  intros Hall.
  apply (play_invariant sv (λ a, a ≠ Reset)
           (λ s', sky_extends (stars (universe (game s)))
                              (stars (universe (game s')))));
    [|done|apply sky_extends_refl].
  intros a s0 Ha Hs0.
  destruct (act_sky_extends sv a s0 Ha) as (s1 & Hact & Hs1).
  exists s1. split; [done|].
  by apply sky_extends_trans with (stars (universe (game s0))).
Qed.

(** X17. An analysis changes no cluster and no constellation: when the
    analysis of a body arrives, the body list keeps its length, the
    clusters of the bodies are the same as before, and so are the
    constellations. *)
Theorem analysis_keeps_clusters sv sel g :
  length (stars (universe (analysed sv sel g))) = length (stars (universe g)) ∧
  findClusters (stars (universe (analysed sv sel g)))
  = findClusters (stars (universe g)) ∧
  constellations (universe (analysed sv sel g)) = constellations (universe g).
Proof.
  destruct (analysed_frame sv sel g) as (-> & -> & _).
  split; [by rewrite length_fmap|]. split; [|done].
  symmetry. apply findClusters_same_place.
  apply Forall2_fmap_r, Forall2_same_length_lookup. split; [done|].
  intros i s s' Hs Hs'. rewrite Hs in Hs'. injection Hs' as <-.
  change (same_place s (if decide (body_id s = body_id sel)
                        then with_analysis s (run (analyzeCelestialBody sv sel) g).1
                        else s)).
  by destruct (decide (body_id s = body_id sel)).
Qed.

(** X18. The whole game keeps the registry sound: after any sequence of
    actions (ticks, gazes, scans, analyses, purchases, resets, passes over
    the constellations, promises that settle), the bodies have pairwise
    distinct identities, and so have the constellations; two
    constellations share no member and each has three distinct members or
    more.  [uuidv4] returns a new identity at every call, and the state
    before is well formed. *)
Theorem game_keeps_registry_sound sv actions s :
  Inj (=) (=) (uuid_at (oracles sv)) →
  world_ok (oracles sv) (universe (game s)) →
  bodies_ok (oracles sv) (clock (universe (game s)))
            (stars (universe (game s))) →
  ∃ s', play sv actions s = Some s' ∧
        NoDup (body_id <$> stars (universe (game s'))) ∧
        NoDup (c_id <$> constellations (universe (game s'))) ∧
        disjoint_and_large (constellations (universe (game s'))).
Proof.
  intros uuid_inj Hw Hb.
  destruct (play_invariant sv (λ _, True)
              (λ s, world_ok (oracles sv) (universe (game s)) ∧
                    bodies_ok (oracles sv) (clock (universe (game s)))
                              (stars (universe (game s)))))
    with (actions := actions) (s := s)
    as (s' & Hplay & [[Hu Hf] Hm] & [Hnd _]).
  - intros a s0 _ [H1 H2].
    destruct (act_world_ok sv uuid_inj a s0 H1) as (s1 & Hact & Hw1).
    destruct (act_bodies_ok sv uuid_inj a s0 H2) as (s2 & Hact2 & Hb2).
    rewrite Hact in Hact2. injection Hact2 as <-. by exists s1.
  - apply Forall_any_action.
  - done.
  - exists s'. split; [done|]. split; [done|]. split; [done|].
    by apply ok_disjoint_and_large.
Qed.

(** X19. Constellations are made of discovered bodies: if every member
    of every constellation is the identity of a body of the list before,
    the same holds after any sequence of actions, each pass over the
    constellations running to its end before the next action. *)
Theorem constellations_hold_known_bodies sv actions s :
  members_known (stars (universe (game s)))
                (constellations (universe (game s))) →
  ∃ s', play sv actions s = Some s' ∧
        members_known (stars (universe (game s')))
                      (constellations (universe (game s'))).
Proof.
  intros H.
  apply (play_invariant sv (λ _, True)
           (λ s, members_known (stars (universe (game s)))
                               (constellations (universe (game s)))));
    [|apply Forall_any_action|done].
  intros a s0 _. apply act_members_known.
Qed.

(** X20. Saving and loading give the upgrades back: the restore of
    [loadGame], applied to upgrades that are those of the catalogue at any
    levels, returns them unchanged. *)
Theorem restore_gives_upgrades_back us :
  in_catalogue us → restoreUpgrades us = us.
Proof.
  intros (l0 & l1 & l2 & l3 & l4 & l5 & l6 & ->)%in_catalogue_inv.
  reflexivity.
Qed.

(** X21. Whatever the save holds, the restore of [loadGame] yields the
    upgrades of the catalogue, each at the level of the first saved upgrade
    with its identity, or at level zero if there is none; saved upgrades
    that the catalogue does not know are dropped. *)
Theorem restore_yields_catalogue saved :
  in_catalogue (restoreUpgrades saved) ∧
  ∀ def, def ∈ UPGRADES →
         level_of (restoreUpgrades saved) (upgrade_id def)
         = level_of saved (upgrade_id def).
Proof.
  rewrite restoreUpgrades_levels. split; [apply zip_in_catalogue|].
  intros def Hdef. unfold UPGRADES in Hdef.
  repeat (apply elem_of_cons in Hdef as [->|Hdef]; [reflexivity|]).
  by apply elem_of_nil in Hdef.
Qed.

(** X22. Every link of the star map joins a body of the list to another
    body of the list that passes the test of the map: [dist], the value
    that [Math.hypot] returns for the differences of their coordinates,
    the other body less the body, is below 180.  The link is pushed for
    the body with the smaller identity and named after the two, the
    smaller first; it carries the coordinates of the two bodies, the
    opacity [1 - dist / 180] and the mark of the constellations of its two
    ends.  There are two links at most for each body. *)
Theorem links_join_near_bodies stars cs :
  length (links stars cs) ≤ 2 * length stars ∧
  Forall (λ l, ∃ star n,
            star ∈ stars ∧ neighbor n ∈ stars ∧
            String.ltb (body_id star) (body_id (neighbor n)) = true ∧
            dist n
            = Math_hypot (x (coordinates (neighbor n)) - x (coordinates star))
                         (y (coordinates (neighbor n)) - y (coordinates star)) ∧
            (dist n < 180)%Q ∧
            l = link_between (starToConstellation cs) star n)
         (links stars cs).
Proof.
  split.
  - unfold links. apply bind_length_le. intros star. apply links_of_length.
  - apply Forall_forall. intros l (star & Hl & Hstar)%list_elem_of_bind.
    apply links_of_spec in Hl as (n & Hn & Hlt & ->).
    apply nearest_within_reach, within_reach_spec in Hn
      as (Hin & Hne & Hnear & Hdist).
    exists star, n. split; [done|]. split; [done|]. split; [done|].
    split; [done|]. split; [|done].
    rewrite Hdist. by apply hypot_lt_Qlt in Hnear.
Qed.

(** X23. The bodies a body is linked to are its two nearest within reach:
    [nearest] returns two candidates, or all of them if there are fewer,
    nearest first, and every candidate it leaves out is at least as far
    from the body as each one it returns. *)
Theorem nearest_are_the_nearest stars star :
  length (nearest stars star) = length (within_reach stars star) `min` 2 ∧
  by_dist (nearest stars star) ∧
  nearest stars star ⊆+ within_reach stars star ∧
  ∃ rest, within_reach stars star ≡ₚ nearest stars star ++ rest ∧
          ∀ n m, n ∈ nearest stars star → m ∈ rest →
                 (dist n <= dist m)%Q.
Proof.
  split; [apply nearest_length|].
  unfold nearest. fold (within_reach stars star).
  set (l := sort_by_dist (within_reach stars star)).
  assert (Hsorted : by_dist l) by apply sort_by_dist_sorted.
  split; [|split].
  - intros i j n m Hij [Hi _]%lookup_take_Some [Hj _]%lookup_take_Some.
    by apply (Hsorted i j).
  - rewrite <- (sort_by_dist_Permutation (within_reach stars star)).
    apply sublist_submseteq, sublist_take.
  - exists (drop 2 l). split.
    + rewrite take_drop. symmetry. apply sort_by_dist_Permutation.
    + intros n m (i & Hi & Hlt)%elem_of_take (j & Hj)%list_elem_of_lookup.
      rewrite lookup_drop in Hj. apply (Hsorted i (2 + j)); [lia|done|done].
Qed.

(** X24. A link is drawn as charted exactly when its two ends are members
    of one constellation.  The identities of the constellations are
    distinct and not empty, and no two constellations share a member. *)
Theorem charted_means_same_constellation cs a b :
  ids_unique cs → members_disjoint cs → (∀ c, c ∈ cs → c_id c ≠ "") →
  sameConstellation (starToConstellation cs !! a) (starToConstellation cs !! b)
  = true
  ↔ ∃ c, c ∈ cs ∧ a ∈ starIds c ∧ b ∈ starIds c.
Proof.
  intros Huniq Hdisj Hids. rewrite sameConstellation_true. split.
  - intros (i & _ & (c & Hc & Ha & Hi)%starToConstellation_Some
              & (d & Hd & Hb & Hj)%starToConstellation_Some).
    exists c. split; [done|]. split; [done|].
    rewrite <- Hj in Hi. by rewrite (ids_unique_eq cs c d).
  - intros (c & Hc & Ha & Hb). exists (c_id c).
    split; [by apply Hids|]. split; by apply starToConstellation_member.
Qed.

(** X25. After a pass the star map shows every link inside a large
    component as charted: for a body whose connected component has three
    bodies or more, each of its links has its two ends in one
    constellation.  [uuidv4] returns a new, non-empty identity at every
    call, the state before is well formed and its constellations have
    non-empty identities.  The map subtracts the body from its neighbour
    and the pass the later body of the list from the earlier, so that
    [Math.hypot] must take no account of the signs of its arguments. *)
Theorem links_of_large_components_are_charted env ss w :
  sign_blind →
  Inj (=) (=) (uuid_at env) → (∀ t, uuid_at env t ≠ "") →
  world_ok env w → (∀ c, c ∈ constellations w → c_id c ≠ "") →
  ∃ w', checkForConstellations env ss (constellations w) w = Some w' ∧
        ∀ star, star ∈ ss → ¬ component_at_most 2 ss (body_id star) →
                Forall (λ l, isCharted l = true)
                       (links_of (starToConstellation (constellations w'))
                                 ss star).
Proof.
  intros Hblind uuid_inj Hne Hok Hids.
  destruct (checkForConstellations_history env uuid_inj ss w Hok)
    as (w' & Hrun & [_ [Hdisj _]] & _ & _ & Hdesc).
  destruct (checkForConstellations_covers env ss w uuid_inj (proj1 Hok))
    as (w1 & Hrun1 & Hcover).
  rewrite Hrun in Hrun1. injection Hrun1 as <-.
  exists w'. split; [done|]. intros star Hstar Hlarge.
  destruct (Hcover (body_id star)) as (c & Hc & Hall & _);
    [by apply list_elem_of_fmap_2|done|].
  apply Forall_forall. intros l (n & Hn & _ & ->)%links_of_spec.
  apply nearest_within_reach, within_reach_spec in Hn
    as (Hin & Hdiff & Hnear & _).
  cbn [link_between isCharted]. apply sameConstellation_true.
  exists (c_id c). split.
  - destruct (Hdesc c Hc) as [(c0 & Hc0 & <- & _)|(t & _ & ->)]; [by apply Hids|done].
  - split; apply starToConstellation_member; try done.
    + apply Hall. apply rtc_refl.
    + apply Hall, rtc_once. apply edge_unordered; [done|].
      destruct (elem_positions ss star (neighbor n) body_id Hstar Hin)
        as (i & j & Hij & Hi & Hj); [done|].
      exists i, j, star, (neighbor n). rewrite near_sym by done.
      by repeat split.
Qed.

(** X26. The label of a constellation sits at the centroid of its members:
    the labels of the star map are those of the constellations, in their
    order, each with the identity and the name of its constellation, at
    the sum of the coordinates of the member bodies divided by the number
    of members, which is three or more.  The identities of the bodies are
    distinct, those of the constellations distinct and not empty; no two
    constellations share a member, each has three distinct members or
    more, and every member is a body of the list. *)
Theorem labels_sit_at_centroids ss cs :
  NoDup (body_id <$> ss) → ids_unique cs → (∀ c, c ∈ cs → c_id c ≠ "") →
  members_ok cs → members_known ss cs →
  labelsData ss cs = centroid_label ss <$> cs ∧
  ∀ c, c ∈ cs → 3 ≤ length (starIds c).
Proof.
  intros Hss Hu Hids [Hdisj Henough] Hknown.
  split; [|by intros c [? _]%Henough].
  unfold labelsData. rewrite constellationData_spec by done.
  rewrite <- list_fmap_compose. apply list_fmap_ext. intros i c Hc.
  apply list_elem_of_lookup_2 in Hc.
  unfold centroid_label. cbn [compose fst snd data_of xSum ySum count label_name].
  rewrite members_in_length; [done|done|by apply Henough|].
  intros v. by apply Hknown.
Qed.

(** X27. Bodies are found on the map: if [Math.random] returns numbers
    from 0 up to, but not including, 1, then after any sequence of actions
    every body has both coordinates from 0 up to, but not including, 1000,
    provided the bodies before, and the coordinates that pending scans have
    drawn, are in this range. *)
Theorem bodies_stay_on_map sv actions s :
  (∀ t, (0 <= random_at (oracles sv) t)%Q ∧ (random_at (oracles sv) t < 1)%Q) →
  all_on_map s →
  ∃ s', play sv actions s = Some s' ∧
        Forall (λ b, on_map (coordinates b)) (stars (universe (game s'))).
Proof.
  intros Hrandom Hok.
  destruct (play_invariant sv (λ _, True) all_on_map)
    with (actions := actions) (s := s) as (s' & Hplay & Hstars & _).
  - intros a s0 _. by apply act_on_map.
  - apply Forall_any_action.
  - done.
  - by exists s'.
Qed.

(** X28. An analysis costs 50 data, 5 less for each level of the quantum
    processor up to the fifth, so never less than 25: [handleAnalyze]
    either leaves the resources as they are, or the data covers this price
    and is reduced by exactly it, the other resources being unchanged. *)
Theorem analysis_has_a_fixed_price sv s :
  (25 ≤ analysisPrice (game s) ≤ 50)%Z ∧
  (purse (handleAnalyze sv s) = purse s ∨
   (inject_Z (analysisPrice (game s)) <= data (purse s))%Q ∧
   purse (handleAnalyze sv s)
   = {| starlight := starlight (purse s);
        data := data (purse s) - inject_Z (analysisPrice (game s));
        focus := focus (purse s) |}).
Proof.
  split; [unfold analysisPrice; lia|].
  unfold handleAnalyze, analysisPrice.
  destruct (selectedStar (game s)) as [sel|]; [|by left].
  destruct (analyzed sel || isAnalyzing (game s)); [by left|].
  rewrite analysis_cost_closed_form.
  destruct (Qlt_bool _ _) eqn:Hdata; [by left|].
  right. apply Qlt_bool_false in Hdata. split; [done|]. reflexivity.
Qed.

End Celestia.

(** ** Sample runs

    The properties at work on the sample data, with [math64], the double
    nearest to the exact root, for [Math.hypot]. *)

#[global] Existing Instance math64.

Lemma hypot64_sign_blind : sign_blind.
Proof.
  intros [an ad] [bn bd]. cbn [Math_hypot math64]. unfold hypot64. f_equal.
  unfold Qplus, Qmult, Qopp. cbn [Qnum Qden]. by rewrite !Z.mul_opp_opp.
Qed.

Lemma threeInLine_accurate : accurate 0 threeInLine.
Proof.
  assert (H0 : ∀ q, (Rabs (Q2R q - Q2R q) <= 0)%R).
  { intros q. rewrite Rminus_diag, Rabs_R0. lra. }
  intros i j s1 s2 Hlt Hi Hj. unfold threeInLine in Hi, Hj.
  destruct i as [|[|[|i]]], j as [|[|[|j]]]; try lia; try done;
    injection Hi as <-; injection Hj as <-.
  - rewrite (distance_exact _ _ 50) by done.
    replace (Math_hypot _ _) with 50%Q by (vm_compute; reflexivity). apply H0.
  - rewrite (distance_exact _ _ 100) by done.
    replace (Math_hypot _ _) with 100%Q by (vm_compute; reflexivity). apply H0.
  - rewrite (distance_exact _ _ 50) by done.
    replace (Math_hypot _ _) with 50%Q by (vm_compute; reflexivity). apply H0.
Qed.

(** On the bodies of [almost180] the double nearest to the exact root is
    within [2 ^ -45] of it. *)
Lemma almost180_accurate : accurate (Q2R (1 / 2 ^ 45)) almost180.
Proof.
  assert (H : ∀ (h lo : Q) (d : R), (h - lo <= 1 / 2 ^ 45)%Q →
                (Q2R lo <= d <= Q2R h)%R →
                (Rabs (Q2R h - d) <= Q2R (1 / 2 ^ 45))%R).
  { intros h lo d Hle%Qle_Rle [H1 H2]. rewrite Q2R_minus in Hle.
    unfold Rabs. destruct (Rcase_abs _); lra. }
  intros i j s1 s2 Hlt Hi Hj. unfold almost180 in Hi, Hj.
  destruct i as [|[|[|i]]], j as [|[|[|j]]]; try lia; try done;
    injection Hi as <-; injection Hj as <-.
  - replace (Math_hypot _ _) with 180%Q by (vm_compute; reflexivity).
    apply (H 180 (180 - 1 / 2 ^ 46))%Q; [done|].
    apply distance_between; [done|done|]. split; vm_compute; discriminate.
  - replace (Math_hypot _ _) with 360%Q by (vm_compute; reflexivity).
    apply (H 360 (360 - 1 / 2 ^ 45))%Q; [done|].
    apply distance_between; [done|done|]. split; vm_compute; discriminate.
  - replace (Math_hypot _ _) with 180%Q by (vm_compute; reflexivity).
    apply (H 180 (180 - 1 / 2 ^ 46))%Q; [done|].
    apply distance_between; [done|done|]. split; vm_compute; discriminate.
Qed.

(** *** The claims *)

Lemma constellations_disjoint_after_calls_witness :
  Inj (=) (=) (uuid_at env0) ∧
  constellations (world0 []) = [] ∧
  ∃ w', run_calls env0 [scenarioA; scenarioC; scenarioC ++ bodiesXYZ]
          (world0 []) = Some w' ∧
        (∀ i j c d, i ≠ j →
           constellations w' !! i = Some c → constellations w' !! j = Some d →
           ∀ v, v ∈ starIds c → v ∉ starIds d) ∧
        (∀ c, c ∈ constellations w' →
              3 ≤ length (starIds c) ∧ NoDup (starIds c)).
Proof.
  split; [exact env0_uuid_inj|]. split; [reflexivity|].
  apply (constellations_disjoint_after_calls env0
           [scenarioA; scenarioC; scenarioC ++ bodiesXYZ] (world0 [])).
  - exact env0_uuid_inj.
  - reflexivity.
Defined.

Lemma reconciliation_idempotent_witness :
  Inj (=) (=) (uuid_at env0) ∧
  ids_ok env0 (clock (world_with scenarioD [constellationABC]))
         (constellations (world_with scenarioD [constellationABC])) ∧
  ∃ w1, checkForConstellations env0 scenarioD [constellationABC]
          (world_with scenarioD [constellationABC]) = Some w1 ∧
        checkForConstellations env0 scenarioD (constellations w1) w1 = Some w1.
Proof.
  assert (Hids : ids_ok env0 0 [constellationABC]).
  { split; [apply NoDup_singleton|].
    apply env0_fresh. repeat constructor. intros s. discriminate. }
  split; [exact env0_uuid_inj|]. split; [exact Hids|].
  apply (reconciliation_idempotent env0 scenarioD
           (world_with scenarioD [constellationABC]) env0_uuid_inj Hids).
Defined.


(** Scenario D, run through the whole pass: one constellation with the
    seven ids is left and nothing else changes. *)
Example scenarioD_merges :
  checkForConstellations env0 scenarioD [constellationABC; constellationDEF]
    (world_with scenarioD [constellationABC; constellationDEF])
  = Some (world_with scenarioD
            [with_starIds constellationABC
               ["A"; "B"; "C"; "G"; "D"; "F"; "E"]]).
Proof. vm_compute. reflexivity. Qed.

Lemma create_on_no_overlap_witness :
  let K := ["A"; "C"; "B"] in
  let loc := loc_of (world0 scenarioA) in
  let w := world0 scenarioA in
  filter (overlapping K) (updatedConstellations loc) = [] ∧
  ∃ t, clock w < t ∧
    let name := name_in env0 (length K) w in
    let c := created env0 name K t in
    (reconcile env0 K loc w).1
    = {| updatedConstellations := updatedConstellations loc ++ [c];
         hasChanges := true |} ∧
    starIds c = K ∧ c_id c = uuid_at env0 t ∧
    discoveredAt c = now_at env0 (S t) ∧
    (ids_fresh env0 (clock w) (updatedConstellations loc) →
     c_id c ∉ c_id <$> updatedConstellations loc) ∧
    starlight (resources (reconcile env0 K loc w).2)
    = (starlight (resources w) + inject_Z (Z.of_nat (50 + 10 * length K)))%Q ∧
    data (resources (reconcile env0 K loc w).2)
    = (data (resources w) + inject_Z (Z.of_nat (20 + 5 * length K)))%Q ∧
    focus (resources (reconcile env0 K loc w).2) = focus (resources w) ∧
    logs (reconcile env0 K loc w).2
    = take 50 ({| log_id := uuid_at env0 (t + 2);
                  timestamp := now_at env0 (t + 3);
                  message := charted_message name K;
                  log_type := constellation |} :: logs w) ∧
    (length K = 3 →
     starlight (resources (reconcile env0 K loc w).2)
     = (starlight (resources w) + 80)%Q ∧
     data (resources (reconcile env0 K loc w).2)
     = (data (resources w) + 35)%Q).
Proof.
  intros K loc w.
  assert (Hf : filter (overlapping K) (updatedConstellations loc) = [])
    by reflexivity.
  split; [exact Hf|].
  exact (create_on_no_overlap env0 K loc w Hf).
Defined.


(** Scenario C, run through the whole pass: the constellation is extended
    by the new body and nothing else changes. *)
Example scenarioC_extends :
  checkForConstellations env0 scenarioC [constellationABC]
    (world_with scenarioC [constellationABC])
  = Some (world_with scenarioC
            [with_starIds constellationABC ["A"; "B"; "C"; "D"]]).
Proof. vm_compute. reflexivity. Qed.

(** C6, as the specification states it, fails: the fallback name is not a
    function of the call alone.  Two worlds that differ only in what
    [Math.random] returns, the naming request failing in both, get
    different names. *)
Lemma fallback_name_not_deterministic :
  generateContent_at env0 0 3 = Throws ∧
  generateContent_at env1 0 3 = Throws ∧
  name_in env0 3 (world0 []) = "Beta Crown" ∧
  name_in env1 3 (world0 []) = "Alpha Hydra" ∧
  name_in env0 3 (world0 []) ≠ name_in env1 3 (world0 []).
Proof.
  assert (H0 : name_in env0 3 (world0 []) = "Beta Crown")
    by (vm_compute; reflexivity).
  assert (H1 : name_in env1 3 (world0 []) = "Alpha Hydra")
    by (vm_compute; reflexivity).
  split; [reflexivity|]. split; [reflexivity|]. split; [exact H0|].
  split; [exact H1|]. rewrite H0, H1. discriminate.
Qed.

Lemma creation_survives_naming_failure_witness :
  let K := ["A"; "C"; "B"] in
  let loc := loc_of (world0 scenarioA) in
  let w := world0 scenarioA in
  generateContent_at env0 (clock w) (length K) = Throws ∧
  ((0 <= random_at env0 (S (clock w)))%Q ∧
   (random_at env0 (S (clock w)) < 1)%Q) ∧
  ((0 <= random_at env0 (S (S (clock w))))%Q ∧
   (random_at env0 (S (S (clock w))) < 1)%Q) ∧
  filter (overlapping K) (updatedConstellations loc) = [] ∧
  let prefix := pick prefixes (random_at env0 (S (clock w))) in
  let root := pick roots (random_at env0 (S (S (clock w)))) in
  let name := name_in env0 (length K) w in
  name = prefix +:+ " " +:+ root ∧ prefix ∈ prefixes ∧ root ∈ roots ∧
  name ≠ "" ∧
  ∃ t,
    (reconcile env0 K loc w).1
    = {| updatedConstellations :=
           updatedConstellations loc
           ++ [{| c_id := uuid_at env0 t; c_name := name; starIds := K;
                  discoveredAt := now_at env0 (S t) |}];
         hasChanges := true |} ∧
    starlight (resources (reconcile env0 K loc w).2)
    = (starlight (resources w) + inject_Z (Z.of_nat (50 + 10 * length K)))%Q ∧
    data (resources (reconcile env0 K loc w).2)
    = (data (resources w) + inject_Z (Z.of_nat (20 + 5 * length K)))%Q.
Proof.
  intros K loc w.
  assert (Hthrow : generateContent_at env0 (clock w) (length K) = Throws)
    by reflexivity.
  assert (Hu : (0 <= random_at env0 (S (clock w)))%Q ∧
               (random_at env0 (S (clock w)) < 1)%Q)
    by (split; vm_compute; [discriminate|reflexivity]).
  assert (Hv : (0 <= random_at env0 (S (S (clock w))))%Q ∧
               (random_at env0 (S (S (clock w))) < 1)%Q)
    by (split; vm_compute; [discriminate|reflexivity]).
  assert (Hf : filter (overlapping K) (updatedConstellations loc) = [])
    by reflexivity.
  split; [exact Hthrow|]. split; [exact Hu|]. split; [exact Hv|].
  split; [exact Hf|].
  exact (creation_survives_naming_failure env0 K loc w Hthrow Hu Hv Hf).
Defined.

Lemma clusters_have_three_members_witness :
  (∀ s, s ∈ pairAndLoner → component_at_most 2 pairAndLoner (body_id s)) ∧
  ∃ clusters,
    findClusters pairAndLoner = Some clusters ∧
    (∀ K, K ∈ clusters → 3 ≤ length K ∧ NoDup K) ∧
    (∀ a, component_at_most 2 pairAndLoner a →
          ∀ K, K ∈ clusters → a ∉ K) ∧
    clusters = [] ∧
    checkForConstellations env0 pairAndLoner [constellationDEF]
      (world_with pairAndLoner [constellationDEF])
    = Some (world_with pairAndLoner [constellationDEF]).
Proof.
  assert (Hsmall : ∀ s, s ∈ pairAndLoner →
                        component_at_most 2 pairAndLoner (body_id s)).
  { intros s Hs. unfold pairAndLoner in Hs.
    repeat (apply elem_of_cons in Hs as [->|Hs]);
      [exists ["A"; "B"]|exists ["A"; "B"]|exists ["C"]|by apply elem_of_nil in Hs];
      (split; [simpl; lia|]); apply component_closed; compute_done. }
  split; [exact Hsmall|].
  destruct (clusters_have_three_members env0 pairAndLoner [constellationDEF]
              (world_with pairAndLoner [constellationDEF]))
    as (clusters & Hfind & Hlen & Hout & Hnone).
  exists clusters. split; [exact Hfind|]. split; [exact Hlen|].
  split; [exact Hout|]. exact (Hnone (or_intror Hsmall)).
Defined.

(** Scenario B: two bodies 300 apart give no cluster and change nothing. *)
Example scenarioB_nothing :
  findClusters [mkBody "A" 0 0; mkBody "B" 300 0] = Some [] ∧
  checkForConstellations env0 [mkBody "A" 0 0; mkBody "B" 300 0] []
    (world0 [mkBody "A" 0 0; mkBody "B" 300 0])
  = Some (world0 [mkBody "A" 0 0; mkBody "B" 300 0]).
Proof. split; vm_compute; reflexivity. Qed.

(** C8, as the specification states it, fails at the threshold.  The
    bodies A (0, 0) and B (107.99999999999999, 144), the double
    [108 - 2^-46], are less than 180 apart; the double nearest to their
    distance is 180, which [Math.hypot] returns, and the test [dist < 180]
    fails: A and B are not adjacent.  With C (215.99999999999997, 288) as
    far from B again, the three bodies are in line, each less than 180
    from the next, and no cluster is found. *)
Lemma below_180_yet_not_adjacent :
  let a := mkBody "A" 0 0 in
  let b := mkBody "B" (108 - 1 / 2 ^ 46) 144 in
  let c := mkBody "C" (216 - 1 / 2 ^ 45) 288 in
  almost180 = [a; b; c] ∧
  (distance a b < 180)%R ∧ (distance b c < 180)%R ∧
  Math_hypot (x (coordinates a) - x (coordinates b))
             (y (coordinates a) - y (coordinates b)) = 180%Q ∧
  Math_hypot (x (coordinates b) - x (coordinates c))
             (y (coordinates b) - y (coordinates c)) = 180%Q ∧
  (body_id b ∉ neighbors (buildAdjacency almost180) (body_id a)) ∧
  (body_id c ∉ neighbors (buildAdjacency almost180) (body_id b)) ∧
  findClusters almost180 = Some [].
Proof.
  intros a b c. split; [reflexivity|].
  split; [apply distance_below; vm_compute; reflexivity|].
  split; [apply distance_below; vm_compute; reflexivity|].
  split; [vm_compute; reflexivity|]. split; [vm_compute; reflexivity|].
  split; [vm_compute; apply not_elem_of_nil|].
  split; [vm_compute; apply not_elem_of_nil|].
  vm_compute; reflexivity.
Qed.

(** Where [Math.hypot] is exact, as on the bodies 50, 50 and 100 apart,
    adjacent means nearer than 180. *)
Lemma adjacency_is_proximity_up_to_rounding_witness :
  let a := mkBody "A" 0 0 in
  let c := mkBody "C" 60 80 in
  accurate 0 threeInLine ∧
  NoDup (body_id <$> threeInLine) ∧
  threeInLine !! 0 = Some a ∧ threeInLine !! 2 = Some c ∧
  ((distance a c < 180 - 0)%R →
   body_id c ∈ neighbors (buildAdjacency threeInLine) (body_id a)) ∧
  (body_id c ∈ neighbors (buildAdjacency threeInLine) (body_id a) →
   (distance a c < 180 + 0)%R) ∧
  ∃ clusters, findClusters threeInLine = Some clusters ∧
    ∀ K u v, K ∈ clusters → u ∈ K → v ∈ K →
             rtc (adjacent (180 + 0) threeInLine) u v.
Proof.
  intros a c.
  assert (Hacc : accurate 0 threeInLine) by apply threeInLine_accurate.
  assert (Hnd : NoDup (body_id <$> threeInLine)) by compute_done.
  split; [exact Hacc|]. split; [exact Hnd|].
  split; [reflexivity|]. split; [reflexivity|].
  destruct (adjacency_is_proximity_up_to_rounding 0 threeInLine)
    as (_ & Hrest).
  destruct (Hrest Hacc) as (Hpairs & Hpath).
  destruct (Hpairs 0 2 a c (Nat.neq_0_succ 1) eq_refl eq_refl)
    as (Hbelow & Habove).
  split; [exact Hbelow|]. split; [exact (Habove Hnd)|]. exact Hpath.
Defined.

(** C9, as the specification states it, fails: passes do interleave.  The
    hook fires for three bodies and the pass suspends on the naming oracle;
    it fires again for a fourth body, and the second pass starts from the
    empty list, not from the list with the constellation that the first
    pass is about to commit.  Both passes then create a constellation and
    pay a reward, and the second commit replaces the first.  One pass after
    the other, the second would have extended the constellation of the
    first, for one reward. *)
Lemma second_pass_starts_from_stale_list :
  passes <$> run_events env0 [Trigger scenarioA; Trigger scenarioC]
               (config0 (world0 []))
  = Some [Awaiting ["A"; "C"; "B"] []
            {| updatedConstellations := []; hasChanges := false |};
          Awaiting ["A"; "C"; "D"; "B"] []
            {| updatedConstellations := []; hasChanges := false |}] ∧
  (λ w, (resources w, (λ c, (c_id c, starIds c)) <$> constellations w))
  <$> run_calls env0 [scenarioA; scenarioC] (world0 [])
  = Some ({| starlight := 80; data := 35; focus := 100 |},
          [("id-3", ["A"; "C"; "B"; "D"])]) ∧
  (λ c, (resources (world c),
         (λ c, (c_id c, starIds c)) <$> constellations (world c)))
  <$> run_events env0 [Trigger scenarioA; Trigger scenarioC;
                       Resolve 0; Resolve 1] (config0 (world0 []))
  = Some ({| starlight := 170; data := 75; focus := 100 |},
          [("id-10", ["A"; "C"; "D"; "B"])]).
Proof. repeat split; vm_compute; reflexivity. Qed.

Lemma interleaved_passes_keep_disjointness_witness :
  let es := [Trigger scenarioA; Trigger scenarioC; Resolve 1; Resolve 0] in
  Inj (=) (=) (uuid_at env0) ∧
  constellations (world0 []) = [] ∧
  ∃ c, run_events env0 es (config0 (world0 [])) = Some c ∧
       disjoint_and_large (constellations (world c)) ∧
       (∀ K rest loc, Awaiting K rest loc ∈ passes c →
                      disjoint_and_large (updatedConstellations loc)) ∧
       (∀ i p, passes c !! i = Some p →
               (resume env0 p (world c)).1 ≠ Finished →
               constellations (resume env0 p (world c)).2
               = constellations (world c)).
Proof.
  intros es. split; [exact env0_uuid_inj|]. split; [reflexivity|].
  exact (interleaved_passes_keep_disjointness env0 es (world0 [])
           env0_uuid_inj eq_refl).
Defined.

Lemma reconciliation_only_adds_rewards_witness :
  let ss := scenarioC ++ bodiesXYZ in
  let w := world_with ss [constellationABC] in
  Inj (=) (=) (uuid_at env0) ∧
  ids_ok env0 (clock w) (constellations w) ∧
  ∃ w', checkForConstellations env0 ss (constellations w) w = Some w' ∧
        stars w' = stars w ∧
        focus (resources w') = focus (resources w) ∧
        (starlight (resources w) <= starlight (resources w'))%Q ∧
        (data (resources w) <= data (resources w'))%Q ∧
        let new := created_since (constellations w) (constellations w') in
        (starlight (resources w')
         == starlight (resources w)
            + inject_Z (Z.of_nat (total_starlight new)))%Q ∧
        (data (resources w')
         == data (resources w) + inject_Z (Z.of_nat (total_data new)))%Q.
Proof.
  intros ss w.
  assert (Hids : ids_ok env0 (clock w) (constellations w)).
  { split; [apply NoDup_singleton|].
    apply env0_fresh. repeat constructor. intros s. discriminate. }
  split; [exact env0_uuid_inj|]. split; [exact Hids|].
  destruct (reconciliation_only_adds_rewards env0 ss w)
    as (w' & Hrun & Hst & Hf & Hsl & Hdl & Hsum).
  exists w'. do 5 (split; [assumption|]).
  exact (Hsum env0_uuid_inj Hids).
Defined.

(** The pass of the witness extends the old constellation and creates one,
    for which it pays 80 starlight and 35 data. *)
Example one_created_one_extended :
  (λ w', (resources w', starIds <$> constellations w'))
  <$> checkForConstellations env0 (scenarioC ++ bodiesXYZ) [constellationABC]
        (world_with (scenarioC ++ bodiesXYZ) [constellationABC])
  = Some ({| starlight := 0 + 80; data := 0 + 35; focus := 100 |},
          [["A"; "B"; "C"; "D"]; ["X"; "Z"; "Y"]]).
Proof. vm_compute. reflexivity. Qed.

(** *** The components, the passes, the game and the star map *)

Lemma clusters_order_independent_witness :
  sign_blind ∧
  ∃ clusters clusters',
    findClusters scenarioA = Some clusters ∧
    findClusters (reverse scenarioA) = Some clusters' ∧
    (∀ K, K ∈ clusters → ∃ K', K' ∈ clusters' ∧ K ≡ₚ K') ∧
    (∀ K', K' ∈ clusters' → ∃ K, K ∈ clusters ∧ K ≡ₚ K').
Proof.
  split; [exact hypot64_sign_blind|].
  apply (clusters_order_independent scenarioA (reverse scenarioA));
    [exact hypot64_sign_blind|].
  symmetry. apply reverse_Permutation.
Defined.

Lemma clusters_depend_on_id_and_place_witness :
  Forall2 same_place scenarioA ((λ s, with_analysis s "Mostly hydrogen.") <$> scenarioA) ∧
  findClusters scenarioA
  = findClusters ((λ s, with_analysis s "Mostly hydrogen.") <$> scenarioA).
Proof.
  assert (H : Forall2 same_place scenarioA
                ((λ s, with_analysis s "Mostly hydrogen.") <$> scenarioA))
    by (by repeat constructor).
  split; [exact H|].
  exact (clusters_depend_on_id_and_place scenarioA _ H).
Defined.

Lemma large_components_are_charted_witness :
  Inj (=) (=) (uuid_at env0) ∧
  ids_ok env0 (clock (world_with scenarioC [constellationABC]))
         (constellations (world_with scenarioC [constellationABC])) ∧
  ∃ w', checkForConstellations env0 scenarioC
          (constellations (world_with scenarioC [constellationABC]))
          (world_with scenarioC [constellationABC]) = Some w' ∧
        ∀ a, a ∈ body_id <$> scenarioC → ¬ component_at_most 2 scenarioC a →
             ∃ c, c ∈ constellations w' ∧
                  (∀ b, connected scenarioC a b → b ∈ starIds c) ∧
                  ∀ d, d ∈ constellations w' → a ∈ starIds d → d = c.
Proof.
  split; [exact env0_uuid_inj|].
  split; [exact (proj1 (world_with_ABC_ok scenarioC))|].
  apply (large_components_are_charted env0 scenarioC
           (world_with scenarioC [constellationABC]) env0_uuid_inj
           (proj1 (world_with_ABC_ok scenarioC))).
Defined.

Lemma members_are_never_dropped_witness :
  Inj (=) (=) (uuid_at env0) ∧
  world_ok env0 (world_with scenarioD [constellationABC]) ∧
  ∃ w', run_calls env0 [scenarioC; scenarioD]
          (world_with scenarioD [constellationABC]) = Some w' ∧
        ∀ c v, c ∈ constellations (world_with scenarioD [constellationABC]) →
               v ∈ starIds c →
               ∃ c', c' ∈ constellations w' ∧ v ∈ starIds c'.
Proof.
  split; [exact env0_uuid_inj|].
  split; [exact (world_with_ABC_ok scenarioD)|].
  apply (members_are_never_dropped env0 [scenarioC; scenarioD]
           (world_with scenarioD [constellationABC]) env0_uuid_inj
           (world_with_ABC_ok scenarioD)).
Defined.

Lemma constellations_keep_identity_witness :
  Inj (=) (=) (uuid_at env0) ∧
  world_ok env0 (world_with scenarioD [constellationABC]) ∧
  ∃ w', run_calls env0 [scenarioC; scenarioD]
          (world_with scenarioD [constellationABC]) = Some w' ∧
        ∀ c', c' ∈ constellations w' →
              (∃ c, c ∈ constellations (world_with scenarioD [constellationABC])
                    ∧ grown_from c c') ∨
              c_id c' ∉ c_id <$> constellations
                                   (world_with scenarioD [constellationABC]).
Proof.
  split; [exact env0_uuid_inj|].
  split; [exact (world_with_ABC_ok scenarioD)|].
  apply (constellations_keep_identity env0 [scenarioC; scenarioD]
           (world_with scenarioD [constellationABC]) env0_uuid_inj
           (world_with_ABC_ok scenarioD)).
Defined.

(** Passes that interleave can drop a member.  Two passes are started from
    the list that holds A, B and C, the first with a body D next to C, the
    second with a body E next to D as well; both suspend on the name of the
    constellation of X, Y and Z.  The second returns first and commits A
    to E; the first then commits its own list, in which E is missing. *)
Example interleaved_passes_drop_a_member :
  let ss1 := scenarioC ++ bodiesXYZ in
  let ss2 := scenarioC ++ [mkBody "E" 300 90] ++ bodiesXYZ in
  let c0 := config0 (world_with scenarioA [constellationABC]) in
  (λ c, (λ k, (c_id k, starIds k)) <$> constellations (world c))
  <$> run_events env0 [Trigger ss1; Trigger ss2; Resolve 1] c0
  = Some [("c-abc", ["A"; "B"; "C"; "D"; "E"]); ("id-3", ["X"; "Z"; "Y"])] ∧
  (λ c, (λ k, (c_id k, starIds k)) <$> constellations (world c))
  <$> run_events env0 [Trigger ss1; Trigger ss2; Resolve 1; Resolve 0] c0
  = Some [("c-abc", ["A"; "B"; "C"; "D"]); ("id-10", ["X"; "Z"; "Y"])].
Proof. split; vm_compute; reflexivity. Qed.


Lemma constellations_always_named_witness :
  all_named (constellations (world0 scenarioA)) ∧
  ∃ w', run_calls env1 [scenarioA; scenarioD] (world0 scenarioA) = Some w' ∧
        all_named (constellations w').
Proof.
  assert (H0 : all_named (constellations (world0 scenarioA))).
  { intros c Hc. by apply elem_of_nil in Hc. }
  split; [exact H0|].
  exact (constellations_always_named env1 [scenarioA; scenarioD]
           (world0 scenarioA) H0).
Defined.

Lemma resources_never_negative_witness :
  solvent (purse newGame) ∧
  ∃ s', play services0 (replicate 12 Gaze ++ [Tick; Scan; Settle 0; Settle 0; Chart])
          newGame = Some s' ∧
        solvent (purse s').
Proof.
  assert (H : solvent (purse newGame)) by (by vm_compute).
  split; [exact H|].
  exact (resources_never_negative services0
           (replicate 12 Gaze ++ [Tick; Scan; Settle 0; Settle 0; Chart])
           newGame H).
Defined.

Lemma upgrades_stay_in_catalogue_witness :
  upgrades_ok (upgrades (game newGame)) ∧
  ∃ s', play services0 (replicate 20 Gaze ++ [Buy "lens_polishing"; Gaze; Reset])
          newGame = Some s' ∧
        upgrades_ok (upgrades (game s')).
Proof.
  split; [exact UPGRADES_ok|].
  exact (upgrades_stay_in_catalogue services0
           (replicate 20 Gaze ++ [Buy "lens_polishing"; Gaze; Reset])
           newGame UPGRADES_ok).
Defined.

Lemma focus_stays_capped_witness :
  capped (game newGame) ∧ upgrades_ok (upgrades (game newGame)) ∧
  ∃ s', play services0 (replicate 12 Gaze ++ [Scan; Tick; Tick; Reset]) newGame
        = Some s' ∧
        (focus (purse s') <= maxFocus (game s'))%Q ∧
        (maxFocus (game s') <= 600)%Q.
Proof.
  split; [exact (proj1 newGame_bounded)|]. split; [exact UPGRADES_ok|].
  exact (focus_stays_capped services0
           (replicate 12 Gaze ++ [Scan; Tick; Tick; Reset]) newGame
           (proj1 newGame_bounded) UPGRADES_ok).
Defined.

Lemma at_most_388_bodies_witness :
  Forall (λ a, a ≠ Reset)
         (replicate 12 Gaze ++ [Scan; Settle 0; Settle 0; Chart]) ∧
  bounded newGame ∧
  ∃ s', play services0 (replicate 12 Gaze ++ [Scan; Settle 0; Settle 0; Chart])
          newGame = Some s' ∧
        length (stars (universe (game s'))) ≤ 388.
Proof.
  assert (H : Forall (λ a, a ≠ Reset)
                (replicate 12 Gaze ++ [Scan; Settle 0; Settle 0; Chart])).
  { apply Forall_forall. intros a Ha ->. revert Ha.
    apply (bool_decide_unpack _). by vm_compute. }
  split; [exact H|]. split; [exact newGame_bounded|].
  exact (at_most_388_bodies services0 _ newGame H newGame_bounded).
Defined.

Lemma log_never_exceeds_fifty_witness :
  log_bounded (universe (game newGame)) ∧
  ∃ s', play services0 (replicate 60 (Buy "lens_polishing") ++ [Reset; Scan])
          newGame = Some s' ∧
        log_bounded (universe (game s')).
Proof.
  assert (H : log_bounded (universe (game newGame)))
    by (unfold log_bounded; simpl; lia).
  split; [exact H|].
  exact (log_never_exceeds_fifty services0
           (replicate 60 (Buy "lens_polishing") ++ [Reset; Scan]) newGame H).
Defined.

Lemma bodies_persist_witness :
  Forall (λ a, a ≠ Reset)
         (replicate 12 Gaze ++ [Scan; Settle 0; Settle 0; Chart]) ∧
  ∃ s', play services0 (replicate 12 Gaze ++ [Scan; Settle 0; Settle 0; Chart])
          newGame = Some s' ∧
        sky_extends (stars (universe (game newGame)))
                    (stars (universe (game s'))).
Proof.
  assert (H : Forall (λ a, a ≠ Reset)
                (replicate 12 Gaze ++ [Scan; Settle 0; Settle 0; Chart])).
  { apply Forall_forall. intros a Ha ->. revert Ha.
    apply (bool_decide_unpack _). by vm_compute. }
  split; [exact H|].
  exact (bodies_persist services0 _ newGame H).
Defined.

Lemma game_keeps_registry_sound_witness :
  Inj (=) (=) (uuid_at (oracles services0)) ∧
  world_ok (oracles services0) (universe (game newGame)) ∧
  bodies_ok (oracles services0) (clock (universe (game newGame)))
            (stars (universe (game newGame))) ∧
  ∃ s', play services0 (replicate 12 Gaze ++ [Scan; Settle 0; Settle 0; Chart])
          newGame = Some s' ∧
        NoDup (body_id <$> stars (universe (game s'))) ∧
        NoDup (c_id <$> constellations (universe (game s'))) ∧
        disjoint_and_large (constellations (universe (game s'))).
Proof.
  assert (Hw : world_ok (oracles services0) (universe (game newGame)))
    by (by apply world_ok_empty).
  assert (Hb : bodies_ok (oracles services0) (clock (universe (game newGame)))
                 (stars (universe (game newGame)))).
  { split; [constructor|]. intros t' _. apply not_elem_of_nil. }
  split; [exact env0_uuid_inj|]. split; [exact Hw|]. split; [exact Hb|].
  exact (game_keeps_registry_sound services0
           (replicate 12 Gaze ++ [Scan; Settle 0; Settle 0; Chart]) newGame
           env0_uuid_inj Hw Hb).
Defined.

Lemma constellations_hold_known_bodies_witness :
  members_known (stars (universe (game newGame)))
                (constellations (universe (game newGame))) ∧
  ∃ s', play services0 (replicate 12 Gaze ++ [Scan; Settle 0; Settle 0; Chart])
          newGame = Some s' ∧
        members_known (stars (universe (game s')))
                      (constellations (universe (game s'))).
Proof.
  assert (H : members_known (stars (universe (game newGame)))
                (constellations (universe (game newGame)))).
  { intros c v Hc. by apply elem_of_nil in Hc. }
  split; [exact H|].
  exact (constellations_hold_known_bodies services0
           (replicate 12 Gaze ++ [Scan; Settle 0; Settle 0; Chart]) newGame H).
Defined.

Lemma restore_gives_upgrades_back_witness :
  in_catalogue (zip_with with_level UPGRADES [3; 0; 1; 10; 2; 0; 5]) ∧
  restoreUpgrades (zip_with with_level UPGRADES [3; 0; 1; 10; 2; 0; 5])
  = zip_with with_level UPGRADES [3; 0; 1; 10; 2; 0; 5].
Proof.
  split; [exact (zip_in_catalogue 3 0 1 10 2 0 5)|].
  exact (restore_gives_upgrades_back _ (zip_in_catalogue 3 0 1 10 2 0 5)).
Defined.

Lemma charted_means_same_constellation_witness :
  ids_unique [constellationABC; constellationDEF] ∧
  members_disjoint [constellationABC; constellationDEF] ∧
  (∀ c, c ∈ [constellationABC; constellationDEF] → c_id c ≠ "") ∧
  (sameConstellation
     (starToConstellation [constellationABC; constellationDEF] !! "A")
     (starToConstellation [constellationABC; constellationDEF] !! "C") = true
   ↔ ∃ c, c ∈ [constellationABC; constellationDEF] ∧
          "A" ∈ starIds c ∧ "C" ∈ starIds c).
Proof.
  assert (H1 : ids_unique [constellationABC; constellationDEF]).
  { apply (bool_decide_unpack _). by vm_compute. }
  assert (H2 : members_disjoint [constellationABC; constellationDEF]).
  { intros c d Hc Hd Hne v Hv1 Hv2.
    rewrite !elem_of_cons, elem_of_nil in Hc, Hd.
    destruct Hc as [->|[->|[]]], Hd as [->|[->|[]]]; try done;
      simpl in Hv1, Hv2; rewrite !elem_of_cons, elem_of_nil in Hv1, Hv2;
      naive_solver. }
  assert (H3 : ∀ c, c ∈ [constellationABC; constellationDEF] → c_id c ≠ "").
  { intros c Hc. rewrite !elem_of_cons, elem_of_nil in Hc.
    by destruct Hc as [->|[->|[]]]. }
  split; [exact H1|]. split; [exact H2|]. split; [exact H3|].
  exact (charted_means_same_constellation _ "A" "C" H1 H2 H3).
Defined.

Lemma links_of_large_components_are_charted_witness :
  sign_blind ∧
  Inj (=) (=) (uuid_at env0) ∧ (∀ t, uuid_at env0 t ≠ "") ∧
  world_ok env0 (world_with scenarioC [constellationABC]) ∧
  (∀ c, c ∈ constellations (world_with scenarioC [constellationABC]) →
        c_id c ≠ "") ∧
  ∃ w', checkForConstellations env0 scenarioC
          (constellations (world_with scenarioC [constellationABC]))
          (world_with scenarioC [constellationABC]) = Some w' ∧
        ∀ star, star ∈ scenarioC →
                ¬ component_at_most 2 scenarioC (body_id star) →
                Forall (λ l, isCharted l = true)
                       (links_of (starToConstellation (constellations w'))
                                 scenarioC star).
Proof.
  assert (H1 : ∀ t, uuid_at env0 t ≠ "") by done.
  assert (H2 : ∀ c, c ∈ constellations (world_with scenarioC [constellationABC]) →
                    c_id c ≠ "").
  { intros c Hc. simpl in Hc. rewrite !elem_of_cons, elem_of_nil in Hc.
    by destruct Hc as [->|[]]. }
  split; [exact hypot64_sign_blind|].
  split; [exact env0_uuid_inj|]. split; [exact H1|].
  split; [exact (world_with_ABC_ok scenarioC)|]. split; [exact H2|].
  exact (links_of_large_components_are_charted env0 scenarioC
           (world_with scenarioC [constellationABC]) hypot64_sign_blind
           env0_uuid_inj H1 (world_with_ABC_ok scenarioC) H2).
Defined.

Lemma labels_sit_at_centroids_witness :
  NoDup (body_id <$> scenarioD) ∧
  ids_unique [constellationABC; constellationDEF] ∧
  (∀ c, c ∈ [constellationABC; constellationDEF] → c_id c ≠ "") ∧
  members_ok [constellationABC; constellationDEF] ∧
  members_known scenarioD [constellationABC; constellationDEF] ∧
  labelsData scenarioD [constellationABC; constellationDEF]
  = centroid_label scenarioD <$> [constellationABC; constellationDEF] ∧
  ∀ c, c ∈ [constellationABC; constellationDEF] → 3 ≤ length (starIds c).
Proof.
  assert (H0 : NoDup (body_id <$> scenarioD)).
  { apply (bool_decide_unpack _). by vm_compute. }
  assert (H1 : ids_unique [constellationABC; constellationDEF]).
  { apply (bool_decide_unpack _). by vm_compute. }
  assert (H2 : ∀ c, c ∈ [constellationABC; constellationDEF] → c_id c ≠ "").
  { intros c Hc. rewrite !elem_of_cons, elem_of_nil in Hc.
    by destruct Hc as [->|[->|[]]]. }
  assert (H3 : members_ok [constellationABC; constellationDEF]).
  { split.
    - intros c d Hc Hd Hne v Hv1 Hv2.
      rewrite !elem_of_cons, elem_of_nil in Hc, Hd.
      destruct Hc as [->|[->|[]]], Hd as [->|[->|[]]]; try done;
        simpl in Hv1, Hv2; rewrite !elem_of_cons, elem_of_nil in Hv1, Hv2;
        naive_solver.
    - intros c Hc. rewrite !elem_of_cons, elem_of_nil in Hc.
      destruct Hc as [->|[->|[]]]; (split; [simpl; lia|]);
        apply (bool_decide_unpack _); by vm_compute. }
  assert (H4 : members_known scenarioD [constellationABC; constellationDEF]).
  { intros c v Hc Hv. rewrite !elem_of_cons, elem_of_nil in Hc.
    destruct Hc as [->|[->|[]]]; simpl in Hv;
      rewrite !elem_of_cons, elem_of_nil in Hv;
      destruct Hv as [->|[->|[->|[]]]];
      apply (bool_decide_unpack _); by vm_compute. }
  split; [exact H0|]. split; [exact H1|]. split; [exact H2|].
  split; [exact H3|]. split; [exact H4|].
  exact (labels_sit_at_centroids scenarioD _ H0 H1 H2 H3 H4).
Defined.

Lemma bodies_stay_on_map_witness :
  (∀ t, (0 <= random_at (oracles services0) t)%Q ∧
        (random_at (oracles services0) t < 1)%Q) ∧
  all_on_map newGame ∧
  ∃ s', play services0 (replicate 12 Gaze ++ [Scan; Settle 0; Settle 0; Chart])
          newGame = Some s' ∧
        Forall (λ b, on_map (coordinates b)) (stars (universe (game s'))).
Proof.
  assert (H : all_on_map newGame) by (split; constructor).
  split; [exact services0_random_unit|]. split; [exact H|].
  exact (bodies_stay_on_map services0
           (replicate 12 Gaze ++ [Scan; Settle 0; Settle 0; Chart]) newGame
           services0_random_unit H).
Defined.

(** The star map of scenario C with its charted triangle: each body is
    linked to its two nearest in reach, from the smaller identity, so the
    body D, whose only neighbour C has its two nearest already, gets no
    link. *)
Example scenarioC_links :
  (λ l, (link_id l, isCharted l)) <$> links scenarioC [constellationABC]
  = [("A-B", true); ("A-C", true); ("B-C", true)].
Proof. vm_compute. reflexivity. Qed.

(** A new game: twelve gazes, of which eleven are a second apart and
    paid, a scan that finds a body through the fallback of the service,
    and a pass that finds no cluster. *)
Example first_scan :
  (λ s, (Qred (starlight (resources (universe (game s)))),
         Qred (data (resources (universe (game s)))),
         Qred (focus (resources (universe (game s)))),
         body_name <$> stars (universe (game s)),
         message <$> logs (universe (game s)), tasks s))
  <$> play services0 (replicate 12 Gaze ++ [Scan; Settle 0; Settle 0; Chart])
        newGame
  = Some (1%Q, 5%Q, 80%Q, ["Unknown Signal 125"],
          ["Discovery: Unknown Signal 125 (STAR)";
           "Scanning sector (ETA: 1s)..."],
          [Settled]).
Proof. vm_compute. reflexivity. Qed.
